(** * cppcompiler: the recursive-descent parser and the AST getters

    A shallow embedding of [src/lexing_parsing/parser.ipp] (class
    [parser::Parser]) and of the AST node classes (namespace [ast]).

    The parser is stateful: it owns a lexer and a one-token lookahead
    ([_currentToken]), and it reports errors by throwing.  It is embedded
    in a state-and-exception monad over the record [Parser].  Every
    [while] loop of the source becomes a [Fixpoint] over a fuel argument,
    because the lexer is an external collaborator and nothing in the
    parser itself bounds the number of tokens it hands out. *)

From Stdlib Require Import String Ascii List ZArith Bool Lia.
Import ListNotations.
Local Open Scope string_scope.
Local Open Scope list_scope.

(* ===================================================================== *)
(** ** Tokens (namespace [lexer]) *)
(* ===================================================================== *)

(** Modelled from the spec: the enumeration [lexer::TokenType] is declared
    in lexer.ipp, which is not part of the modelled sources.  The
    constructors below are the enumerators that parser.ipp names
    ([TT_K_INT] and [TT_K_VOID] appear in its comments as the first
    entries of [PURE_TYPES_TOKEN_LIST]). *)
Inductive TokenType : Set :=
| TT_NONE | TT_END
| TT_IDENT | TT_NUMBER
| TT_STAR | TT_LPAR | TT_RPAR | TT_LCURL | TT_RCURL
| TT_SEMI | TT_COMMA | TT_COLON | TT_EQUAL | TT_DOUBLE_QUOTE
| TT_K_CLASS | TT_K_RETURN | TT_K_ASM
| TT_K_INT | TT_K_VOID.

Definition TokenType_eq_dec (a b : TokenType) : {a = b} + {a <> b}.
Proof. decide equality. Defined.

Definition TokenType_eqb (a b : TokenType) : bool :=
  if TokenType_eq_dec a b then true else false.

Infix "=?t" := TokenType_eqb (at level 70, no associativity).

(** A source position.  The parser never inspects one: it only copies the
    position of the current token into the errors it throws. *)
Definition Position := nat.

(** [lexer::Token]: kind, raw text and source position. *)
Record Token : Set := mkToken {
  type : TokenType;
  value : string;
  position : Position
}.

(* ===================================================================== *)
(** ** Errors and outcomes (dbg/errors.hpp) *)
(* ===================================================================== *)

(** The source builds its messages by streaming string literals, token
    kinds and token texts into an [ostream]; a message is kept as the
    sequence of streamed pieces. *)
Inductive MsgPart : Set :=
| Txt (s : string)
| Typ (t : TokenType)
| Val (s : string).

Definition Message := list MsgPart.

(** Modelled from the spec: the macros [USER_ASSERT], [USER_THROW] and
    [THROW] come from dbg/errors.hpp, which is not part of the modelled
    sources.  Following the spec's two disjoint error classes, the
    [USER_] macros raise a user-facing error that carries a message and,
    when the call site passes one, a source position; [THROW] raises an
    internal (compiler-bug) error that carries a message only. *)
Inductive Error : Set :=
| UserError (msg : Message) (pos : option Position)
| InternalError (msg : Message).

(** The ways a call can end: it returns a value and leaves a new state;
    it throws; it steps out of the bounds inside which C++ defines its
    behaviour (it indexes a [string_view] past its end, or increments an
    [int] past [INT_MAX]); or the model runs out of fuel inside a loop. *)
Inductive Outcome (S A : Type) : Type :=
| Return (a : A) (s : S)
| Throw (e : Error)
| OutOfBounds
| OutOfFuel.

Arguments Return {S A} a s.
Arguments Throw {S A} e.
Arguments OutOfBounds {S A}.
Arguments OutOfFuel {S A}.

(** Computations over a mutable state [S] that may throw. *)
Definition M (S A : Type) : Type := S -> Outcome S A.

Definition ret {S A} (a : A) : M S A := fun s => Return a s.

Definition bind {S A B} (m : M S A) (k : A -> M S B) : M S B :=
  fun s =>
    match m s with
    | Return a s' => k a s'
    | Throw e => Throw e
    | OutOfBounds => OutOfBounds
    | OutOfFuel => OutOfFuel
    end.

Definition throw {S A} (e : Error) : M S A := fun _ => Throw e.
Definition out_of_bounds {S A} : M S A := fun _ => OutOfBounds.
Definition out_of_fuel {S A} : M S A := fun _ => OutOfFuel.

Declare Scope parser_scope.
Delimit Scope parser_scope with parser.
Notation "x <- m ;; k" := (bind m (fun x => k))
  (at level 61, m at next level, right associativity) : parser_scope.
Notation "m ;;; k" := (bind m (fun _ => k))
  (at level 61, right associativity) : parser_scope.
Local Open Scope parser_scope.

Definition USER_THROW {S A} (msg : Message) (pos : option Position) : M S A :=
  throw (UserError msg pos).

Definition USER_ASSERT {S} (cond : bool) (msg : Message)
  (pos : option Position) : M S unit :=
  if cond then ret tt else USER_THROW msg pos.

Definition THROW {S A} (msg : Message) : M S A :=
  throw (InternalError msg).

(** Whether an outcome is a user-facing error, an internal error. *)
Definition isUserError {S A} (o : Outcome S A) : bool :=
  match o with Throw (UserError _ _) => true | _ => false end.

Definition isInternalError {S A} (o : Outcome S A) : bool :=
  match o with Throw (InternalError _) => true | _ => false end.

(* ===================================================================== *)
(** ** External collaborators *)
(* ===================================================================== *)

(** [ast::NumberLitteralUnderlyingType] (ast/litteralTypes.hpp). *)
Definition NumberLitteralUnderlyingType := Z.

(** The token source ([lexer::Lexer], lexer.ipp), which lies outside the
    modelled sources and is taken as a parameter: its state and the two
    member functions the parser calls.  Both advance the lexer; both may
    throw. *)
Class TokenSource : Type := {
  Lexer : Type;
  Lexer_nextToken : M Lexer Token;
  Lexer_getRawUntil : ascii -> M Lexer string
}.

(** The other collaborators that lie outside the modelled sources, taken
    as parameters:
    - the static [lexer::Lexer::replaceEscapes];
    - [scopes::Register] with [scopes::strToReg], which throws on a name
      it does not know;
    - [utils::readNumber];
    - the X-macro [PURE_TYPES_TOKEN_LIST], as the list of the token kinds
      it enumerates. *)
Class Externals : Type := {
  Lexer_replaceEscapes : string -> string;
  Register : Type;
  strToReg : string -> Error + Register;
  readNumber : string -> NumberLitteralUnderlyingType;
  PURE_TYPES_TOKEN_LIST : list TokenType
}.

(** [codegen::NasmGenerator_x86_64] (codegen/generate.hpp): the emitter
    state and the one emission the modelled AST methods call. *)
Class Generator `{Externals} : Type := {
  NasmGenerator_x86_64 : Type;
  emitLoadNumberLitteral :
    Register -> NumberLitteralUnderlyingType -> M NasmGenerator_x86_64 unit
}.

(* ===================================================================== *)
(** ** The AST nodes (namespace [ast]) *)
(* ===================================================================== *)

Module ast.

(** A pointer to a description record owned by a scope: null, or the
    address of the record.  The pointees ([scopes::TypeDescription] and
    the like) are declared outside the modelled sources; the getters only
    test the pointer against null and hand it back. *)
Inductive pointer : Set :=
| nullptr
| address (a : positive).

Inductive Visibility : Set := Public | Protected | Private.

Definition allVisibilities : list Visibility := [Public; Protected; Private].

Definition Visibility_eqb (a b : Visibility) : bool :=
  match a, b with
  | Public, Public | Protected, Protected | Private, Private => true
  | _, _ => false
  end.

(** [class Type]; [pointerDepth] is a C++ [int], kept as the integer it
    holds. *)
Record Type_ : Set := mkType {
  Type_name : string;
  Type_pointerDepth : Z;
  Type_description : pointer
}.

(** The constructor [Type(name, pointerDepth)]: the description slot
    starts as [nullptr]. *)
Definition newType (name : string) (pointerDepth : Z) : Type_ :=
  mkType name pointerDepth nullptr.

Definition getTypeDescription {S} (self : Type_) : M S pointer :=
  match Type_description self with
  | address a => ret (address a)
  | nullptr => THROW [Txt "TypeDescription not set"]
  end.

Fixpoint string_of_copies (n : nat) (c : ascii) : string :=
  match n with
  | O => EmptyString
  | S n' => String c (string_of_copies n' c)
  end.

(** [std::string(pointerDepth, '*')] converts its [int] count to
    [size_t]: a negative count becomes a size beyond [max_size()], and
    the constructor throws [std::length_error], for which [None]
    stands. *)
Definition fullName (self : Type_) : option string :=
  if (0 <=? Type_pointerDepth self)%Z then
    Some (Type_name self
          ++ string_of_copies (Z.to_nat (Type_pointerDepth self)) "*")%string
  else None.

(** [class Variable]. *)
Record Variable_ : Set := mkVariable {
  Variable_name : string;
  Variable_description : pointer
}.

Definition newVariable (name : string) : Variable_ := mkVariable name nullptr.

Definition getName (self : Variable_) : string := Variable_name self.

Definition getVariableDescription {S} (self : Variable_) : M S pointer :=
  match Variable_description self with
  | address a => ret (address a)
  | nullptr => THROW [Txt "VariableDescription not set"]
  end.

Record NumberLiteral : Set := mkNumberLiteral {
  number : NumberLitteralUnderlyingType
}.

Record StringLiteral : Set := mkStringLiteral {
  content : string
}.

Definition getContent (self : StringLiteral) : string := content self.

(** [Expression::ExpressionVariant]: [std::variant<NumberLiteral, Variable>]. *)
Inductive Expression : Set :=
| Expression_NumberLiteral (e : NumberLiteral)
| Expression_Variable (e : Variable_).

Record FunctionCall : Set := mkFunctionCall {
  FunctionCall_name : string;
  arguments : list Expression
}.

Record Declaration : Set := mkDeclaration {
  Declaration_type : Type_;
  variable : Variable_;
  assignment : option Expression
}.

Record ReturnStatement : Set := mkReturnStatement {
  expression : Expression
}.

Section WithExternals.
Context `{Ext : Externals}.

(** [InlineAsmStatement::BindingRequest], plain old data. *)
Record BindingRequest : Type := mkBindingRequest {
  registerTo : Register;
  varIdentifier : string
}.

Record InlineAsmStatement : Type := mkInlineAsmStatement {
  asmBlock : StringLiteral;
  requests : list BindingRequest
}.

(** [Instruction::InstructionVariant]:
    [std::variant<ReturnStatement, InlineAsmStatement, Declaration>]. *)
Inductive Instruction : Type :=
| Instruction_ReturnStatement (i : ReturnStatement)
| Instruction_InlineAsmStatement (i : InlineAsmStatement)
| Instruction_Declaration (i : Declaration).

Record InstructionList : Type := mkInstructionList {
  instructions : list Instruction
}.

Record FunctionParameter : Set := mkFunctionParameter {
  FunctionParameter_type : Type_;
  FunctionParameter_name : string
}.

Record Attribute : Set := mkAttribute {
  Attribute_type : Type_;
  Attribute_name : string
}.

Record FunctionParameterList : Set := mkFunctionParameterList {
  parameters : list FunctionParameter
}.

Record Function : Type := mkFunction {
  Function_returnType : Type_;
  Function_name : string;
  Function_params : FunctionParameterList;
  Function_body : InstructionList;
  Function_description : pointer
}.

Definition newFunction (returnType : Type_) (name : string)
  (params : FunctionParameterList) (body : InstructionList) : Function :=
  mkFunction returnType name params body nullptr.

Record Method : Type := mkMethod {
  Method_returnType : Type_;
  Method_name : string;
  Method_params : FunctionParameterList;
  Method_body : InstructionList
}.

Record AccessSpecifier : Set := mkAccessSpecifier {
  level : Visibility
}.

(** [AccessSpecifier::operator==(Visibility)]. *)
Definition AccessSpecifier_eq (self : AccessSpecifier) (vis : Visibility) : bool :=
  Visibility_eqb (level self) vis.

Definition AttributeList : Type := list (Attribute * AccessSpecifier).
Definition MethodList : Type := list (Method * AccessSpecifier).

Record Class_ : Type := mkClass {
  Class_name : string;
  attributes : AttributeList;
  methods : MethodList
}.

Record TranslationUnit : Type := mkTranslationUnit {
  functions : list Function;
  classes : list Class_
}.

(** *** [loadValueInRegister] *)

Context `{Gen : !Generator}.

Definition Variable_loadValueInRegister (self : Variable_)
  (targetRegister : Register) : M NasmGenerator_x86_64 unit :=
  THROW [Txt "variable loadValueInRegister Not implemented"].

Definition NumberLiteral_loadValueInRegister (self : NumberLiteral)
  (targetRegister : Register) : M NasmGenerator_x86_64 unit :=
  emitLoadNumberLitteral targetRegister (number self).

(** [std::visit] over the two alternatives. *)
Definition Expression_loadValueInRegister (self : Expression)
  (targetRegister : Register) : M NasmGenerator_x86_64 unit :=
  match self with
  | Expression_NumberLiteral expr =>
      NumberLiteral_loadValueInRegister expr targetRegister
  | Expression_Variable expr =>
      Variable_loadValueInRegister expr targetRegister
  end.

Definition FunctionCall_loadValueInRegister (self : FunctionCall)
  (targetRegister : Register) : M NasmGenerator_x86_64 unit :=
  THROW [Txt "FunctionCall loadValueInRegister Not implemented"].

End WithExternals.

End ast.

(* ===================================================================== *)
(** ** The parser (class [parser::Parser]) *)
(* ===================================================================== *)

Import ast.

(** [enum TrailingSeparator]. *)
Inductive TrailingSeparator : Set :=
| TRAILING_FORBIDDEN
| TRAILING_OPTIONAL
| TRAILING_REQUIRED.

Definition TrailingSeparator_eqb (a b : TrailingSeparator) : bool :=
  match a, b with
  | TRAILING_FORBIDDEN, TRAILING_FORBIDDEN
  | TRAILING_OPTIONAL, TRAILING_OPTIONAL
  | TRAILING_REQUIRED, TRAILING_REQUIRED => true
  | _, _ => false
  end.

(** How one turn of a [while] body ends: it falls through to the loop
    test, or it leaves the loop with [break]. *)
Inductive LoopControl : Set := Continue | Break.

(** [std::string_view::operator[]]: defined only below [size()]. *)
Definition string_view_at {S} (s : string) (pos : nat) : M S ascii :=
  match String.get pos s with
  | Some c => ret c
  | None => out_of_bounds
  end.

(** [std::string_view::substr(pos)] for [pos <= size()], the only way the
    parser calls it (it has read [raw[0]] before it takes [substr(1)]). *)
Definition string_view_substr (s : string) (pos : nat) : string :=
  String.substring pos (String.length s - pos) s.

(** The largest [int], on the x86-64 targets of the compiler. *)
Definition INT_MAX : Z := 2147483647%Z.

(** [i++] on an [int]: past [INT_MAX] the signed overflow is undefined
    behaviour. *)
Definition int_increment {S} (i : Z) : M S Z :=
  if (i <? INT_MAX)%Z then ret (i + 1)%Z else out_of_bounds.

(** The double-quote character, the breaker handed to [getRawUntil]. *)
Definition double_quote : ascii := "034"%char.

Section Parser.
Context `{TS : TokenSource} `{Ext : Externals}.

(** The two data members of the class. *)
Record Parser : Type := mkParser {
  _lexer : Lexer;
  _currentToken : Token
}.

Definition P (A : Type) : Type := M Parser A.

(** Runs a lexer operation on the [_lexer] member. *)
Definition onLexer {A} (op : M Lexer A) : P A :=
  fun p =>
    match op (_lexer p) with
    | Return a lx => Return a (mkParser lx (_currentToken p))
    | Throw e => Throw e
    | OutOfBounds => OutOfBounds
    | OutOfFuel => OutOfFuel
    end.

Definition currentToken : P Token :=
  fun p => Return (_currentToken p) p.

Definition setCurrentToken (t : Token) : P unit :=
  fun p => Return tt (mkParser (_lexer p) t).

(** Lifts [strToReg], which returns or throws and has no state. *)
Definition callStrToReg (s : string) : P Register :=
  match strToReg s with
  | inr r => ret r
  | inl e => throw e
  end.

Definition getRawUntil (breaker : ascii) : P string :=
  raw <- onLexer (Lexer_getRawUntil breaker);;
  t <- onLexer Lexer_nextToken;;
  setCurrentToken t;;;
  ret raw.

Definition nextToken : P unit :=
  t <- onLexer Lexer_nextToken;;
  setCurrentToken t.

Definition match_ (type_ : TokenType) : P string :=
  tok <- currentToken;;
  USER_ASSERT (type tok =?t type_)
    [Txt "Unexpected token type=["; Typ (type tok); Txt "] for value=[";
     Val (value tok); Txt "] expected=["; Typ type_; Txt "]"]
    (Some (position tok));;;
  let cur := value tok in
  nextToken;;;
  ret cur.

(** The separator step of [parseSeparatedList]'s loop body
    ([if constexpr (ttSeparator != TT_NONE)]). *)
Definition separatorStep (ttSeparator : TokenType)
  (trailingMode : TrailingSeparator) : P LoopControl :=
  if negb (ttSeparator =?t TT_NONE) then
    tok <- currentToken;;
    if type tok =?t ttSeparator then
      match_ ttSeparator;;; ret Continue
    else if TrailingSeparator_eqb trailingMode TRAILING_REQUIRED then
      USER_THROW [Txt "Expected trailing "; Typ ttSeparator]
        (Some (position tok))
    else ret Break
  else ret Continue.

(** The check after the separator
    ([if constexpr (ttBreaker != TT_NONE && trailingMode == TRAILING_FORBIDDEN)]). *)
Definition forbiddenStep (ttSeparator : TokenType)
  (trailingMode : TrailingSeparator) (ttBreaker : TokenType) : P unit :=
  if negb (ttBreaker =?t TT_NONE)
     && TrailingSeparator_eqb trailingMode TRAILING_FORBIDDEN then
    tok <- currentToken;;
    USER_ASSERT (negb (type tok =?t ttBreaker))
      [Txt "Found trailing "; Typ ttSeparator;
       Txt " in list, expected new element"]
      (Some (position tok))
  else ret tt.

(** The [while] loop of [parseSeparatedList]; [elementList] is the vector
    built so far. *)
Fixpoint parseSeparatedList_loop {T : Type} (ttSeparator : TokenType)
  (trailingMode : TrailingSeparator) (ttBreaker : TokenType)
  (parseElement : P T) (fuel : nat) (elementList : list T) : P (list T) :=
  match fuel with
  | O => out_of_fuel
  | S fuel' =>
    tok <- currentToken;;
    if (ttBreaker =?t TT_NONE) || negb (type tok =?t ttBreaker) then
      e <- parseElement;;
      let elementList := elementList ++ [e] in
      ctl <- separatorStep ttSeparator trailingMode;;
      match ctl with
      | Break => ret elementList
      | Continue =>
        forbiddenStep ttSeparator trailingMode ttBreaker;;;
        parseSeparatedList_loop ttSeparator trailingMode ttBreaker
          parseElement fuel' elementList
      end
    else ret elementList
  end.

Definition parseSeparatedList {T : Type} (ttSeparator : TokenType)
  (trailingMode : TrailingSeparator) (ttBreaker : TokenType)
  (parseElement : P T) (fuel : nat) : P (list T) :=
  parseSeparatedList_loop ttSeparator trailingMode ttBreaker parseElement
    fuel [].

(** This [USER_ASSERT] passes no position. *)
Definition matchIdent (ident : string) : P unit :=
  cur <- match_ TT_IDENT;;
  USER_ASSERT (String.eqb cur ident)
    [Txt "Specific expected ident was not matched. Expected=["; Val ident;
     Txt "] got=["; Val cur; Txt "]"]
    None.

(** The expansion of [PURE_TYPES_TOKEN_LIST] under
    [X(token, str) = if (_currentToken.type == token) return match(token);],
    followed by the final [return match(TT_IDENT)]. *)
Fixpoint parsePureType_X (tokens : list TokenType) : P string :=
  match tokens with
  | [] => match_ TT_IDENT
  | token :: tokens' =>
    tok <- currentToken;;
    if type tok =?t token then match_ token
    else parsePureType_X tokens'
  end.

Definition parsePureType : P string := parsePureType_X PURE_TYPES_TOKEN_LIST.

Fixpoint parseType_loop (fuel : nat) (pointerDepth : Z) : P Z :=
  match fuel with
  | O => out_of_fuel
  | S fuel' =>
    tok <- currentToken;;
    if type tok =?t TT_STAR then
      match_ TT_STAR;;;
      pointerDepth <- int_increment pointerDepth;;
      parseType_loop fuel' pointerDepth
    else ret pointerDepth
  end.

Definition parseType (fuel : nat) : P Type_ :=
  pureType <- parsePureType;;
  pointerDepth <- parseType_loop fuel 0%Z;;
  ret (newType pureType pointerDepth).

Definition parseSingleParam (fuel : nat) : P FunctionParameter :=
  type_ <- parseType fuel;;
  tok <- currentToken;;
  name <- (if type tok =?t TT_IDENT then match_ TT_IDENT else ret EmptyString);;
  ret (mkFunctionParameter type_ name).

Definition parseFunctionParams (fuel : nat) : P FunctionParameterList :=
  match_ TT_LPAR;;;
  functionParams <-
    parseSeparatedList TT_COMMA TRAILING_FORBIDDEN TT_RPAR
      (parseSingleParam fuel) fuel;;
  match_ TT_RPAR;;;
  ret (mkFunctionParameterList functionParams).

(** A single double-quoted value; no escape characters are replaced. *)
Definition parseRawSingleStringLiteral : P string :=
  tok <- currentToken;;
  USER_ASSERT (type tok =?t TT_DOUBLE_QUOTE)
    [Txt "Expected double quote for literal"] (Some (position tok));;;
  raw <- getRawUntil double_quote;;
  match_ TT_DOUBLE_QUOTE;;;
  ret raw.

Definition parseRegisterName : P Register :=
  raw <- parseRawSingleStringLiteral;;
  c <- string_view_at raw 0;;
  tok <- currentToken;;
  USER_ASSERT (Ascii.eqb c "=")
    [Txt "Only ={register} identifiers are supported"]
    (Some (position tok));;;
  callStrToReg (string_view_substr raw 1).

(** The [while] loop of [parseStringLiteral]; [totalSize] only sizes the
    [reserve] call and is left out. *)
Fixpoint parseStringLiteral_loop (fuel : nat) (literals : list string)
  : P (list string) :=
  match fuel with
  | O => out_of_fuel
  | S fuel' =>
    tok <- currentToken;;
    if type tok =?t TT_DOUBLE_QUOTE then
      singleLiteral <- parseRawSingleStringLiteral;;
      parseStringLiteral_loop fuel' (literals ++ [singleLiteral])
    else ret literals
  end.

(** [for (auto &lit: literals) content += replaceEscapes(lit);]. *)
Definition concatReplaced (literals : list string) : string :=
  fold_left (fun content lit => (content ++ Lexer_replaceEscapes lit)%string)
    literals EmptyString.

Definition parseStringLiteral (fuel : nat) : P StringLiteral :=
  literals <- parseStringLiteral_loop fuel [];;
  tok <- currentToken;;
  (match literals with
   | [] => USER_THROW [Txt "Expected a valid string literal"]
             (Some (position tok))
   | _ :: _ => ret tt
   end);;;
  ret (mkStringLiteral (concatReplaced literals)).

Definition parseNumberLiteral : P NumberLiteral :=
  numberView <- match_ TT_NUMBER;;
  ret (mkNumberLiteral (readNumber numberView)).

Definition parseExpression : P Expression :=
  tok <- currentToken;;
  if type tok =?t TT_IDENT then
    ident <- match_ TT_IDENT;;
    ret (Expression_Variable (newVariable ident))
  else
    numberLiteral <- parseNumberLiteral;;
    ret (Expression_NumberLiteral numberLiteral).

Definition parseReturnStatement : P ReturnStatement :=
  match_ TT_K_RETURN;;;
  expression <- parseExpression;;
  ret (mkReturnStatement expression).

Definition parseBindingRequest : P BindingRequest :=
  registerTo <- parseRegisterName;;
  match_ TT_LPAR;;;
  ident <- match_ TT_IDENT;;
  match_ TT_RPAR;;;
  ret (mkBindingRequest registerTo ident).

Definition parseInlineAsmStatement (fuel : nat) : P InlineAsmStatement :=
  match_ TT_K_ASM;;;
  match_ TT_LPAR;;;
  asmBlock <- parseStringLiteral fuel;;
  tok <- currentToken;;
  requests <-
    (if type tok =?t TT_COLON then
       match_ TT_COLON;;;
       parseSeparatedList TT_COMMA TRAILING_OPTIONAL TT_RPAR
         parseBindingRequest fuel
     else ret []);;
  match_ TT_RPAR;;;
  ret (mkInlineAsmStatement asmBlock requests).

Definition parseDeclaration (fuel : nat) : P Declaration :=
  type_ <- parseType fuel;;
  name <- match_ TT_IDENT;;
  tok <- currentToken;;
  if type tok =?t TT_EQUAL then
    match_ TT_EQUAL;;;
    expression <- parseExpression;;
    ret (mkDeclaration type_ (newVariable name) (Some expression))
  else
    ret (mkDeclaration type_ (newVariable name) None).

(** Whether a token kind is one of the [case token:] labels that the
    X-macro adds to the [switch]. *)
Definition isPureTypeToken (t : TokenType) : bool :=
  existsb (TokenType_eqb t) PURE_TYPES_TOKEN_LIST.

(** The [switch] on [_currentToken.type].  The labels of a C++ [switch]
    are pairwise distinct, so the order of the tests does not matter. *)
Definition parseSingleInstruction (fuel : nat) : P Instruction :=
  tok <- currentToken;;
  if type tok =?t TT_K_RETURN then
    i <- parseReturnStatement;; ret (Instruction_ReturnStatement i)
  else if type tok =?t TT_K_ASM then
    i <- parseInlineAsmStatement fuel;; ret (Instruction_InlineAsmStatement i)
  else if isPureTypeToken (type tok) then
    i <- parseDeclaration fuel;; ret (Instruction_Declaration i)
  else
    USER_THROW [Txt "Unexpected token while parsing instruction [";
                Typ (type tok); Txt "]"]
      (Some (position tok)).

Fixpoint parseFunctionCall_loop (fuel : nat) (arguments : list Expression)
  : P (list Expression) :=
  match fuel with
  | O => out_of_fuel
  | S fuel' =>
    tok <- currentToken;;
    if negb (type tok =?t TT_RPAR) then
      e <- parseExpression;;
      match_ TT_COMMA;;;
      parseFunctionCall_loop fuel' (arguments ++ [e])
    else ret arguments
  end.

Definition parseFunctionCall (fuel : nat) : P FunctionCall :=
  name <- match_ TT_IDENT;;
  match_ TT_LPAR;;;
  arguments <- parseFunctionCall_loop fuel [];;
  match_ TT_RPAR;;;
  ret (mkFunctionCall name arguments).

Definition parseCodeBlock (fuel : nat) : P InstructionList :=
  match_ TT_LCURL;;;
  instructions <-
    parseSeparatedList TT_SEMI TRAILING_REQUIRED TT_RCURL
      (parseSingleInstruction fuel) fuel;;
  match_ TT_RCURL;;;
  ret (mkInstructionList instructions).

Definition parseFunction (fuel : nat) : P Function :=
  returnType <- parseType fuel;;
  name <- match_ TT_IDENT;;
  parametersNode <- parseFunctionParams fuel;;
  body <- parseCodeBlock fuel;;
  ret (newFunction returnType name parametersNode body).

(** The member loop of [parseClass]. *)
Fixpoint parseClass_loop (fuel : nat) (methods : MethodList)
  (attributes : AttributeList) : P (MethodList * AttributeList) :=
  match fuel with
  | O => out_of_fuel
  | S fuel' =>
    tok <- currentToken;;
    if negb (type tok =?t TT_RCURL) then
      let attribute_specifier := mkAccessSpecifier Public in
      type_ <- parseType fuel';;
      name <- match_ TT_IDENT;;
      tok <- currentToken;;
      if type tok =?t TT_LPAR then
        parametersNode <- parseFunctionParams fuel';;
        body <- parseCodeBlock fuel';;
        let method := mkMethod type_ name parametersNode body in
        parseClass_loop fuel' (methods ++ [(method, attribute_specifier)])
          attributes
      else
        let attribute := mkAttribute type_ name in
        let attributes := attributes ++ [(attribute, attribute_specifier)] in
        match_ TT_SEMI;;;
        parseClass_loop fuel' methods attributes
    else ret (methods, attributes)
  end.

Definition parseClass (fuel : nat) : P Class_ :=
  match_ TT_K_CLASS;;;
  name <- match_ TT_IDENT;;
  match_ TT_LCURL;;;
  members <- parseClass_loop fuel [] [];;
  match_ TT_RCURL;;;
  match_ TT_SEMI;;;
  ret (mkClass name (snd members) (fst members)).

Fixpoint parseTranslationUnit_loop (fuel : nat) (funcList : list Function)
  (classList : list Class_) : P (list Function * list Class_) :=
  match fuel with
  | O => out_of_fuel
  | S fuel' =>
    tok <- currentToken;;
    if negb (type tok =?t TT_END) then
      if type tok =?t TT_K_CLASS then
        c <- parseClass fuel';;
        parseTranslationUnit_loop fuel' funcList (classList ++ [c])
      else
        f <- parseFunction fuel';;
        parseTranslationUnit_loop fuel' (funcList ++ [f]) classList
    else ret (funcList, classList)
  end.

Definition parseTranslationUnit (fuel : nat) : P TranslationUnit :=
  nextToken;;;
  lists <- parseTranslationUnit_loop fuel [] [];;
  match_ TT_END;;;
  ret (mkTranslationUnit (fst lists) (snd lists)).

(** *** The grammar's reading of a binding's register name

    The grammar of the specification derives the register-name string of
    a binding with its [stringLiteral] rule.  [parseRegisterName_grammar]
    follows those words: it reads the name with [parseStringLiteral]
    (adjacent literals concatenated, escapes replaced) and only then
    interprets the [=REGNAME] form.  It is compared with
    [parseRegisterName], which is what the source does. *)
Definition parseRegisterName_grammar (fuel : nat) : P Register :=
  lit <- parseStringLiteral fuel;;
  let raw := getContent lit in
  c <- string_view_at raw 0;;
  tok <- currentToken;;
  USER_ASSERT (Ascii.eqb c "=")
    [Txt "Only ={register} identifiers are supported"]
    (Some (position tok));;;
  callStrToReg (string_view_substr raw 1).

End Parser.

Arguments Parser {TS}.
Arguments mkParser {TS} _ _.

(* ===================================================================== *)
(** ** A scripted token source *)
(* ===================================================================== *)

(** What a token source hands out: a token, or the raw text that
    [getRawUntil] scans after an opening quote. *)
Inductive Lexeme : Set :=
| LexTok (t : Token)
| LexRaw (s : string).

Definition endToken : Token := mkToken TT_END EmptyString 0.

(** Modelled from the spec: the token source (lexer.ipp is not part of the
    modelled sources).  The specification gives its boundary only: a
    pull-based interface exposing [nextToken() -> Token] and, for raw
    literal scanning, [getRawUntil(delimiter) -> text].  The scripted
    source replays a fixed sequence of lexemes: [nextToken] hands out the
    next token of the script (and [TT_END] for ever once the script is
    exhausted), [getRawUntil] hands out the raw text that comes next in
    the script (the empty text when a token comes next).  Neither
    throws. *)
Fixpoint script_nextToken (l : list Lexeme) : Outcome (list Lexeme) Token :=
  match l with
  | [] => Return endToken []
  | LexTok t :: r => Return t r
  | LexRaw _ :: r => script_nextToken r
  end.

Definition script_getRawUntil (delimiter : ascii) (l : list Lexeme)
  : Outcome (list Lexeme) string :=
  match l with
  | LexRaw s :: r => Return s r
  | _ => Return EmptyString l
  end.

Definition ScriptedSource : TokenSource :=
  {| Lexer := list Lexeme;
     Lexer_nextToken := script_nextToken;
     Lexer_getRawUntil := script_getRawUntil |}.

(** *** Stand-ins for the concrete examples *)

(** Modelled from the spec: [scopes::Register] and [scopes::strToReg]
    (ast/scopes/registers.hpp is not part of the modelled sources): an
    enumeration of physical machine registers with a canonical-name to
    enum mapping; unknown names are a user error.  Three registers are
    enough for the examples. *)
Inductive SampleRegister : Set := REG_EAX | REG_EBX | REG_RAX.

Definition sample_strToReg (s : string) : Error + SampleRegister :=
  if String.eqb s "eax" then inr REG_EAX
  else if String.eqb s "ebx" then inr REG_EBX
  else if String.eqb s "rax" then inr REG_RAX
  else inl (UserError [Txt "Unknown register "; Val s] None).

(** Modelled from the spec: [utils::readNumber] (dbg/utils.hpp is not part
    of the modelled sources) yields the numeric value of a number token;
    here the value of its decimal digits. *)
Fixpoint sample_readNumber_acc (s : string) (acc : Z) : Z :=
  match s with
  | EmptyString => acc
  | String c s' =>
    sample_readNumber_acc s' (10 * acc + (Z.of_nat (nat_of_ascii c) - 48))%Z
  end.

Definition sample_readNumber (s : string) : NumberLitteralUnderlyingType :=
  sample_readNumber_acc s 0%Z.

(** Modelled from the spec: [lexer::Lexer::replaceEscapes] (reading escape
    sequences is out of the specification's scope).  The example texts
    contain no backslash, and such a text has nothing to replace. *)
Definition sample_replaceEscapes (s : string) : string := s.

(** The externals of the concrete examples: [int] and [void] are the
    primitive-type keywords. *)
Definition SampleExternals : Externals :=
  {| Lexer_replaceEscapes := sample_replaceEscapes;
     Register := SampleRegister;
     strToReg := sample_strToReg;
     readNumber := sample_readNumber;
     PURE_TYPES_TOKEN_LIST := [TT_K_INT; TT_K_VOID] |}.

(** The state of a parser over the scripted source in which [t] is the
    current token and the lexemes [rest] are still to come. *)
Definition stateAt (t : Token) (rest : list Lexeme) : @Parser ScriptedSource :=
  mkParser (rest : @Lexer ScriptedSource) t.

(** A token stream as lexemes. *)
Definition toks (l : list Token) : list Lexeme := map LexTok l.

(** The state a parser over the scripted source is in once [nextToken]
    has loaded its first token from the script [l]. *)
Definition primed (l : list Lexeme) : @Parser ScriptedSource :=
  match script_nextToken l with
  | Return t r => stateAt t r
  | _ => stateAt endToken []
  end.

(** *** Separated lists as token streams *)

(** A list element as it stands in the input: its first token, the rest
    of its lexemes, and the value its parser builds from them. *)
Record ListElement (T : Type) : Type := mkListElement {
  el_head : Token;
  el_tail : list Lexeme;
  el_value : T
}.

Arguments mkListElement {T} _ _ _.
Arguments el_head {T} _.
Arguments el_tail {T} _.
Arguments el_value {T} _.

Definition el_lexemes {T} (e : ListElement T) : list Lexeme :=
  LexTok (el_head e) :: el_tail e.

(** [parseElement] reads the element [e]: [e] does not begin with the
    breaker, and when the token behind [e] is a separator or the breaker,
    [parseElement] consumes exactly the lexemes of [e] and returns [e]'s
    value. *)
Definition ReadsElement {T : Type}
  (ttSeparator ttBreaker : TokenType)
  (parseElement : M (@Parser ScriptedSource) T) (e : ListElement T) : Prop :=
  type (el_head e) <> ttBreaker /\
  forall (t : Token) (rest : list Lexeme),
    type t = ttSeparator \/ type t = ttBreaker ->
    parseElement (stateAt (el_head e) (el_tail e ++ LexTok t :: rest))
    = Return (el_value e) (stateAt t rest).

(** The input [e1 sep e2 sep ... eN sep]: every element with the
    separator token that follows it. *)
Fixpoint separated {T} (items : list (ListElement T * Token)) : list Lexeme :=
  match items with
  | [] => []
  | (e, s) :: items' => el_lexemes e ++ LexTok s :: separated items'
  end.

Definition values {T} (items : list (ListElement T * Token)) : list T :=
  map (fun item => el_value (fst item)) items.

(** *** String literals as token streams *)

(** One double-quoted piece: the opening quote token, the raw text, the
    closing quote token. *)
Record LiteralPiece : Set := mkLiteralPiece {
  piece_open : Token;
  piece_raw : string;
  piece_close : Token
}.

Definition piece_lexemes (p : LiteralPiece) : list Lexeme :=
  [LexTok (piece_open p); LexRaw (piece_raw p); LexTok (piece_close p)].

Definition pieces_lexemes (ps : list LiteralPiece) : list Lexeme :=
  flat_map piece_lexemes ps.

Definition wellQuoted (p : LiteralPiece) : Prop :=
  type (piece_open p) = TT_DOUBLE_QUOTE /\
  type (piece_close p) = TT_DOUBLE_QUOTE.

(** The in-order concatenation of the pieces, escapes replaced. *)
Fixpoint concatenation `{Ext : Externals} (ps : list LiteralPiece) : string :=
  match ps with
  | [] => EmptyString
  | p :: ps' => (Lexer_replaceEscapes (piece_raw p) ++ concatenation ps')%string
  end.

(** *** Sample inputs *)

Definition tk (t : TokenType) (v : string) (p : Position) : Token :=
  mkToken t v p.

Definition quoteAt (p : Position) : Token := tk TT_DOUBLE_QUOTE "dq" p.

(** [(int a,)], the tokens numbered by column. *)
Definition sample_params_trailing_comma : @Parser ScriptedSource :=
  primed (toks [tk TT_LPAR "(" 0; tk TT_K_INT "int" 1; tk TT_IDENT "a" 5;
                tk TT_COMMA "," 6; tk TT_RPAR ")" 7]).

(** [f(a)] and [f(a,)]. *)
Definition sample_call : @Parser ScriptedSource :=
  primed (toks [tk TT_IDENT "f" 0; tk TT_LPAR "(" 1; tk TT_IDENT "a" 2;
                tk TT_RPAR ")" 3]).

Definition sample_call_trailing_comma : @Parser ScriptedSource :=
  primed (toks [tk TT_IDENT "f" 0; tk TT_LPAR "(" 1; tk TT_IDENT "a" 2;
                tk TT_COMMA "," 3; tk TT_RPAR ")" 4]).



(** The binding whose register name is split over two adjacent literals:
    the text =e in quotes, the text ax in quotes, then [(x)]. *)
Definition sample_binding_two_literals : @Parser ScriptedSource :=
  primed [LexTok (quoteAt 0); LexRaw "=e"; LexTok (quoteAt 3);
          LexTok (quoteAt 5); LexRaw "ax"; LexTok (quoteAt 8);
          LexTok (tk TT_LPAR "(" 9); LexTok (tk TT_IDENT "x" 10);
          LexTok (tk TT_RPAR ")" 11)].

(** The binding whose register name is the empty literal, then [(x)]. *)
Definition sample_binding_empty_literal : @Parser ScriptedSource :=
  primed [LexTok (quoteAt 0); LexRaw EmptyString; LexTok (quoteAt 1);
          LexTok (tk TT_LPAR "(" 2); LexTok (tk TT_IDENT "x" 3);
          LexTok (tk TT_RPAR ")" 4)].

(** The binding whose register name lacks the leading equals sign: the
    text eax in quotes, then [(x)]. *)
Definition sample_binding_no_equals : @Parser ScriptedSource :=
  primed [LexTok (quoteAt 0); LexRaw "eax"; LexTok (quoteAt 4);
          LexTok (tk TT_LPAR "(" 5); LexTok (tk TT_IDENT "x" 6);
          LexTok (tk TT_RPAR ")" 7)].

(** [class A { int x; int* get() { return 1; } };]. *)
Definition sample_class : @Parser ScriptedSource :=
  primed (toks [tk TT_K_CLASS "class" 0; tk TT_IDENT "A" 6; tk TT_LCURL "{" 8;
                tk TT_K_INT "int" 10; tk TT_IDENT "x" 14; tk TT_SEMI ";" 15;
                tk TT_K_INT "int" 17; tk TT_STAR "*" 20; tk TT_IDENT "get" 22;
                tk TT_LPAR "(" 25; tk TT_RPAR ")" 26; tk TT_LCURL "{" 28;
                tk TT_K_RETURN "return" 30; tk TT_NUMBER "1" 37;
                tk TT_SEMI ";" 38; tk TT_RCURL "}" 40; tk TT_RCURL "}" 42;
                tk TT_SEMI ";" 43]).

(** [x = 1;] as a statement: its leading token is an identifier. *)
Definition sample_identifier_statement : @Parser ScriptedSource :=
  primed (toks [tk TT_IDENT "x" 0; tk TT_EQUAL "=" 2; tk TT_NUMBER "1" 4;
                tk TT_SEMI ";" 5]).

(** [int x = 2;] as a statement. *)
Definition sample_declaration_statement : @Parser ScriptedSource :=
  primed (toks [tk TT_K_INT "int" 0; tk TT_IDENT "x" 4; tk TT_EQUAL "=" 6;
                tk TT_NUMBER "2" 8; tk TT_SEMI ";" 9]).

(** A member of a class is paired with the access specifier [Public]. *)
Definition isPublic {A : Type} (member : A * AccessSpecifier) : Prop :=
  level (snd member) = Public.

(** An element with the separator token behind it, as the list parser
    meets them. *)
Definition ReadsItem {T : Type}
  (ttSeparator ttBreaker : TokenType)
  (parseElement : M (@Parser ScriptedSource) T)
  (item : ListElement T * Token) : Prop :=
  ReadsElement ttSeparator ttBreaker parseElement (fst item)
  /\ type (snd item) = ttSeparator.

(** The two inputs the trailing-separator policies tell apart, for the
    list whose last element is [e] and whose earlier elements are
    [items]: [e1 sep ... eN sep B] and [e1 sep ... eN B], each followed
    by [rest]. *)
Definition withTrailing {T} (items : list (ListElement T * Token))
  (e : ListElement T) (s b : Token) (rest : list Lexeme) : list Lexeme :=
  separated items ++ el_lexemes e ++ LexTok s :: LexTok b :: rest.

Definition withoutTrailing {T} (items : list (ListElement T * Token))
  (e : ListElement T) (b : Token) (rest : list Lexeme) : list Lexeme :=
  separated items ++ el_lexemes e ++ LexTok b :: rest.

(** [int a] as a list element, and the parameter list [(int a, int b,)]
    with and without its trailing comma. *)
Definition sample_param (name : string) (p : Position)
  : ListElement FunctionParameter :=
  mkListElement (tk TT_K_INT "int" p) [LexTok (tk TT_IDENT name (p + 4))]
    (mkFunctionParameter (newType "int" 0) name).

Definition sample_comma (p : Position) : Token := tk TT_COMMA "," p.
Definition sample_rpar (p : Position) : Token := tk TT_RPAR ")" p.

(** *** What a parser over the scripted source has left to read *)

(** The number of lexemes still in the script, plus one for a current
    token that is not the end of input. *)
Definition remaining (s : @Parser ScriptedSource) : nat :=
  length (_lexer s : list Lexeme)
  + (if type (_currentToken s) =?t TT_END then 0 else 1).

Definition isEndLexeme (x : Lexeme) : bool :=
  match x with
  | LexTok t => type t =?t TT_END
  | LexRaw _ => false
  end.

(** A script that holds no [TT_END] token of its own: the end of input
    is then reached only by reading the script to its end. *)
Definition NoEndInside (l : list Lexeme) : Prop :=
  Forall (fun x => isEndLexeme x = false) l.

(** The current token is [TT_END] only once the script is exhausted. *)
Definition EndMeansExhausted (s : @Parser ScriptedSource) : Prop :=
  NoEndInside (_lexer s : list Lexeme)
  /\ (type (_currentToken s) = TT_END -> (_lexer s : list Lexeme) = []).

(** An error the parser may throw: a user-facing error that carries a
    position, or an error that [strToReg] threw. *)
Definition Positioned `{Ext : Externals} (e : Error) : Prop :=
  (exists msg p, e = UserError msg (Some p))
  \/ (exists name, strToReg name = inl e).

(** How a call that returns moves the parser: it never puts lexemes
    back, with [strict] it has consumed at least one, and it keeps
    [EndMeansExhausted]. *)
Definition Advances (strict : bool) (s s' : @Parser ScriptedSource) : Prop :=
  (if strict then remaining s' < remaining s else remaining s' <= remaining s)
  /\ (EndMeansExhausted s -> EndMeansExhausted s').

(** A call is well behaved from the state [s]: if it returns it has
    advanced, and if it throws the error is [Positioned].  Running out
    of fuel is tolerated only with [lax]. *)
Definition WellBehaved `{Ext : Externals} (lax strict : bool) {A : Type}
  (m : M (@Parser ScriptedSource) A) (s : @Parser ScriptedSource) : Prop :=
  match m s with
  | Return _ s' => Advances strict s s'
  | Throw e => Positioned e
  | OutOfBounds => True
  | OutOfFuel => lax = true
  end.

(** The fuel is enough for what is left to read, with [slack] to spare
    for the loops around the call; with [lax] any fuel will do. *)
Definition Fuelled (lax : bool) (slack fuel : nat)
  (s : @Parser ScriptedSource) : Prop :=
  lax = true \/ remaining s + slack < fuel.

(** *** Nodes fresh from the parser *)

(** [FunctionParameter::getTypeDescription]: the getter of the
    parameter's type. *)
Definition FunctionParameter_getTypeDescription {S} (self : FunctionParameter)
  : M S pointer :=
  getTypeDescription (FunctionParameter_type self).

(** No description slot of the node has been set. *)
Definition UndecoratedType (t : Type_) : Prop :=
  Type_description t = nullptr.

Definition UndecoratedVariable (v : Variable_) : Prop :=
  Variable_description v = nullptr.

Definition UndecoratedExpression (e : Expression) : Prop :=
  match e with
  | Expression_NumberLiteral _ => True
  | Expression_Variable v => UndecoratedVariable v
  end.

Definition UndecoratedInstruction `{Ext : Externals} (i : Instruction) : Prop :=
  match i with
  | Instruction_ReturnStatement r => UndecoratedExpression (expression r)
  | Instruction_InlineAsmStatement _ => True
  | Instruction_Declaration d =>
    UndecoratedType (Declaration_type d)
    /\ UndecoratedVariable (variable d)
    /\ match assignment d with
       | Some e => UndecoratedExpression e
       | None => True
       end
  end.

Definition UndecoratedParameter (p : FunctionParameter) : Prop :=
  UndecoratedType (FunctionParameter_type p).

Definition UndecoratedParameters (ps : FunctionParameterList) : Prop :=
  Forall UndecoratedParameter (parameters ps).

Definition UndecoratedBody `{Ext : Externals} (b : InstructionList) : Prop :=
  Forall UndecoratedInstruction (instructions b).

Definition UndecoratedFunction `{Ext : Externals} (f : Function) : Prop :=
  UndecoratedType (Function_returnType f)
  /\ UndecoratedParameters (Function_params f)
  /\ UndecoratedBody (Function_body f)
  /\ Function_description f = nullptr.

Definition UndecoratedMethod `{Ext : Externals} (m : Method) : Prop :=
  UndecoratedType (Method_returnType m)
  /\ UndecoratedParameters (Method_params m)
  /\ UndecoratedBody (Method_body m).

Definition UndecoratedClass `{Ext : Externals} (c : Class_) : Prop :=
  Forall (fun a => UndecoratedType (Attribute_type (fst a))) (attributes c)
  /\ Forall (fun m => UndecoratedMethod (fst m)) (methods c).

Definition UndecoratedUnit `{Ext : Externals} (tu : TranslationUnit) : Prop :=
  Forall UndecoratedFunction (functions tu)
  /\ Forall UndecoratedClass (classes tu).

(** *** Types, parameters and declarations as token streams *)

(** A type as it stands in the input: the token of its name and the
    star tokens behind it. *)
Record TypeSyntax : Set := mkTypeSyntax {
  ts_name : Token;
  ts_stars : list Token
}.

(** The type name is a primitive-type keyword or an identifier, the
    stars are stars, and there are no more of them than the [int] that
    counts them holds. *)
Definition WellFormedType `{Ext : Externals} (t : TypeSyntax) : Prop :=
  (In (type (ts_name t)) PURE_TYPES_TOKEN_LIST \/ type (ts_name t) = TT_IDENT)
  /\ Forall (fun star => type star = TT_STAR) (ts_stars t)
  /\ (Z.of_nat (length (ts_stars t)) <= INT_MAX)%Z.

(** The node the type stands for. *)
Definition typeOf (t : TypeSyntax) : Type_ :=
  newType (value (ts_name t)) (Z.of_nat (length (ts_stars t))).

(** A function parameter as it stands in the input: a type and, if it
    is named, the identifier token of its name. *)
Record ParamSyntax : Set := mkParamSyntax {
  par_type : TypeSyntax;
  par_name : option Token
}.

Definition WellFormedParam `{Ext : Externals} (p : ParamSyntax) : Prop :=
  WellFormedType (par_type p)
  /\ type (ts_name (par_type p)) <> TT_RPAR
  /\ match par_name p with
     | Some n => type n = TT_IDENT
     | None => True
     end.

Definition optionTokens (o : option Token) : list Token :=
  match o with
  | Some t => [t]
  | None => []
  end.

Definition paramOf (p : ParamSyntax) : FunctionParameter :=
  mkFunctionParameter (typeOf (par_type p))
    (match par_name p with
     | Some n => value n
     | None => EmptyString
     end).

Definition paramElement (p : ParamSyntax) : ListElement FunctionParameter :=
  mkListElement (ts_name (par_type p))
    (toks (ts_stars (par_type p) ++ optionTokens (par_name p)))
    (paramOf p).

(** The expression a single token stands for: a variable for an
    identifier, a number literal otherwise. *)
Definition expressionOf `{Ext : Externals} (t : Token) : Expression :=
  if type t =?t TT_IDENT then Expression_Variable (newVariable (value t))
  else Expression_NumberLiteral (mkNumberLiteral (readNumber (value t))).

Definition isExpressionToken (t : Token) : Prop :=
  type t = TT_IDENT \/ type t = TT_NUMBER.

(** A parameter with the comma behind it, fit to be read with [fuel]. *)
Definition ParamFits `{Ext : Externals} (fuel : nat) (p : ParamSyntax) : Prop :=
  WellFormedParam p /\ length (ts_stars (par_type p)) < fuel.

Definition ParamItemFits `{Ext : Externals} (fuel : nat)
  (item : ParamSyntax * Token) : Prop :=
  ParamFits fuel (fst item) /\ type (snd item) = TT_COMMA.

Definition paramItems (items : list (ParamSyntax * Token))
  : list (ListElement FunctionParameter * Token) :=
  map (fun item => (paramElement (fst item), snd item)) items.

(** The parameters between the parentheses: none, or some parameters
    each followed by a comma and then a last one. *)
Inductive ParamListSyntax : Set :=
| NoParams
| Params (items : list (ParamSyntax * Token)) (last : ParamSyntax).

Definition paramListLexemes (ps : ParamListSyntax) : list Lexeme :=
  match ps with
  | NoParams => []
  | Params items last =>
    separated (paramItems items) ++ el_lexemes (paramElement last)
  end.

Definition paramListOf (ps : ParamListSyntax) : FunctionParameterList :=
  mkFunctionParameterList
    (match ps with
     | NoParams => []
     | Params items last => values (paramItems items) ++ [paramOf last]
     end).

Definition ParamListFits `{Ext : Externals} (fuel : nat)
  (ps : ParamListSyntax) : Prop :=
  match ps with
  | NoParams => 0 < fuel
  | Params items last =>
    Forall (ParamItemFits fuel) items /\ ParamFits fuel last
    /\ S (length items) < fuel
  end.

(** *** Statements as token streams *)

(** A declaration as it stands in the input: a type, the identifier
    token of the variable and, if it is initialised, the equals token
    and the token of the initialiser. *)
Record DeclSyntax : Set := mkDeclSyntax {
  decl_type : TypeSyntax;
  decl_name : Token;
  decl_init : option (Token * Token)
}.

Definition WellFormedDecl `{Ext : Externals} (d : DeclSyntax) : Prop :=
  WellFormedType (decl_type d)
  /\ type (decl_name d) = TT_IDENT
  /\ match decl_init d with
     | Some (eq, e) => type eq = TT_EQUAL /\ isExpressionToken e
     | None => True
     end.

Definition declTail (d : DeclSyntax) : list Token :=
  ts_stars (decl_type d) ++ decl_name d
  :: match decl_init d with
     | Some (eq, e) => [eq; e]
     | None => []
     end.

Definition declOf `{Ext : Externals} (d : DeclSyntax) : Declaration :=
  mkDeclaration (typeOf (decl_type d)) (newVariable (value (decl_name d)))
    (match decl_init d with
     | Some (_, e) => Some (expressionOf e)
     | None => None
     end).

(** A return statement or a declaration statement, without the
    semicolon behind it. *)
Inductive StatementSyntax : Set :=
| SReturn (ret e : Token)
| SDecl (d : DeclSyntax).

Definition WellFormedStatement `{Ext : Externals} (st : StatementSyntax)
  : Prop :=
  match st with
  | SReturn r e => type r = TT_K_RETURN /\ isExpressionToken e
  | SDecl d =>
    WellFormedDecl d
    /\ In (type (ts_name (decl_type d))) PURE_TYPES_TOKEN_LIST
    /\ type (ts_name (decl_type d)) <> TT_K_RETURN
    /\ type (ts_name (decl_type d)) <> TT_K_ASM
    /\ type (ts_name (decl_type d)) <> TT_RCURL
  end.

Definition statementStars (st : StatementSyntax) : nat :=
  match st with
  | SReturn _ _ => 0
  | SDecl d => length (ts_stars (decl_type d))
  end.

Definition statementOf `{Ext : Externals} (st : StatementSyntax) : Instruction :=
  match st with
  | SReturn _ e => Instruction_ReturnStatement (mkReturnStatement (expressionOf e))
  | SDecl d => Instruction_Declaration (declOf d)
  end.

Definition statementElement `{Ext : Externals} (st : StatementSyntax)
  : ListElement Instruction :=
  match st with
  | SReturn r e => mkListElement r [LexTok e] (statementOf st)
  | SDecl d => mkListElement (ts_name (decl_type d)) (toks (declTail d))
                 (statementOf st)
  end.

Definition StatementItemFits `{Ext : Externals} (fuel : nat)
  (item : StatementSyntax * Token) : Prop :=
  WellFormedStatement (fst item) /\ statementStars (fst item) < fuel
  /\ type (snd item) = TT_SEMI.

Definition statementItems `{Ext : Externals}
  (items : list (StatementSyntax * Token))
  : list (ListElement Instruction * Token) :=
  map (fun item => (statementElement (fst item), snd item)) items.

(** *** Functions, classes and translation units as token streams *)

(** A function (or a method of a class) as it stands in the input. *)
Record FunctionSyntax : Set := mkFunctionSyntax {
  fn_type : TypeSyntax;
  fn_name : Token;
  fn_lpar : Token;
  fn_params : ParamListSyntax;
  fn_rpar : Token;
  fn_lcurl : Token;
  fn_body : list (StatementSyntax * Token);
  fn_rcurl : Token
}.

Definition functionTail `{Ext : Externals} (f : FunctionSyntax)
  (rest : list Lexeme) : list Lexeme :=
  toks (ts_stars (fn_type f))
  ++ LexTok (fn_name f) :: LexTok (fn_lpar f)
  :: paramListLexemes (fn_params f)
  ++ LexTok (fn_rpar f) :: LexTok (fn_lcurl f)
  :: separated (statementItems (fn_body f))
  ++ LexTok (fn_rcurl f) :: rest.

(** The lexemes of the function, followed by [rest]. *)
Definition functionLexemes `{Ext : Externals} (f : FunctionSyntax)
  (rest : list Lexeme) : list Lexeme :=
  LexTok (ts_name (fn_type f)) :: functionTail f rest.

Definition bodyOf `{Ext : Externals} (f : FunctionSyntax) : InstructionList :=
  mkInstructionList (map (fun item => statementOf (fst item)) (fn_body f)).

Definition functionOf `{Ext : Externals} (f : FunctionSyntax) : Function :=
  newFunction (typeOf (fn_type f)) (value (fn_name f))
    (paramListOf (fn_params f)) (bodyOf f).

Definition methodOf `{Ext : Externals} (f : FunctionSyntax) : Method :=
  mkMethod (typeOf (fn_type f)) (value (fn_name f))
    (paramListOf (fn_params f)) (bodyOf f).

(** The function is well formed and [fuel] is enough to read it. *)
Definition FunctionFits `{Ext : Externals} (fuel : nat) (f : FunctionSyntax)
  : Prop :=
  WellFormedType (fn_type f)
  /\ length (ts_stars (fn_type f)) < fuel
  /\ type (fn_name f) = TT_IDENT
  /\ type (fn_lpar f) = TT_LPAR
  /\ ParamListFits fuel (fn_params f)
  /\ type (fn_rpar f) = TT_RPAR
  /\ type (fn_lcurl f) = TT_LCURL
  /\ Forall (StatementItemFits fuel) (fn_body f)
  /\ length (fn_body f) < fuel
  /\ type (fn_rcurl f) = TT_RCURL.

(** A member of a class: an attribute with its semicolon, or a method. *)
Inductive MemberSyntax : Set :=
| MAttribute (t : TypeSyntax) (name semi : Token)
| MMethod (f : FunctionSyntax).

Definition memberLexemes `{Ext : Externals} (m : MemberSyntax)
  (rest : list Lexeme) : list Lexeme :=
  match m with
  | MAttribute t name semi =>
    LexTok (ts_name t)
    :: toks (ts_stars t) ++ LexTok name :: LexTok semi :: rest
  | MMethod f => functionLexemes f rest
  end.

Definition MemberFits `{Ext : Externals} (fuel : nat) (m : MemberSyntax)
  : Prop :=
  match m with
  | MAttribute t name semi =>
    WellFormedType t /\ length (ts_stars t) < fuel
    /\ type (ts_name t) <> TT_RCURL
    /\ type name = TT_IDENT /\ type semi = TT_SEMI
  | MMethod f => FunctionFits fuel f /\ type (ts_name (fn_type f)) <> TT_RCURL
  end.

Fixpoint membersLexemes `{Ext : Externals} (ms : list MemberSyntax)
  (rest : list Lexeme) : list Lexeme :=
  match ms with
  | [] => rest
  | m :: ms' => memberLexemes m (membersLexemes ms' rest)
  end.

Definition attributesOf `{Ext : Externals} (ms : list MemberSyntax)
  : AttributeList :=
  flat_map (fun m =>
              match m with
              | MAttribute t name _ =>
                [(mkAttribute (typeOf t) (value name), mkAccessSpecifier Public)]
              | MMethod _ => []
              end) ms.

Definition methodsOf `{Ext : Externals} (ms : list MemberSyntax) : MethodList :=
  flat_map (fun m =>
              match m with
              | MAttribute _ _ _ => []
              | MMethod f => [(methodOf f, mkAccessSpecifier Public)]
              end) ms.

(** A class as it stands in the input. *)
Record ClassSyntax : Set := mkClassSyntax {
  cl_class : Token;
  cl_name : Token;
  cl_lcurl : Token;
  cl_members : list MemberSyntax;
  cl_rcurl : Token;
  cl_semi : Token
}.

Definition classLexemes `{Ext : Externals} (c : ClassSyntax)
  (rest : list Lexeme) : list Lexeme :=
  LexTok (cl_class c) :: LexTok (cl_name c) :: LexTok (cl_lcurl c)
  :: membersLexemes (cl_members c)
       (LexTok (cl_rcurl c) :: LexTok (cl_semi c) :: rest).

Definition classOf `{Ext : Externals} (c : ClassSyntax) : Class_ :=
  mkClass (value (cl_name c)) (attributesOf (cl_members c))
    (methodsOf (cl_members c)).

Definition ClassFits `{Ext : Externals} (fuel : nat) (c : ClassSyntax) : Prop :=
  type (cl_class c) = TT_K_CLASS
  /\ type (cl_name c) = TT_IDENT
  /\ type (cl_lcurl c) = TT_LCURL
  /\ Forall (MemberFits fuel) (cl_members c)
  /\ length (cl_members c) < fuel
  /\ type (cl_rcurl c) = TT_RCURL
  /\ type (cl_semi c) = TT_SEMI.

(** What stands at the top level of a translation unit. *)
Inductive TopLevelSyntax : Set :=
| TFunction (f : FunctionSyntax)
| TClass (c : ClassSyntax).

Definition topLexemes `{Ext : Externals} (t : TopLevelSyntax)
  (rest : list Lexeme) : list Lexeme :=
  match t with
  | TFunction f => functionLexemes f rest
  | TClass c => classLexemes c rest
  end.

Fixpoint unitLexemes `{Ext : Externals} (ts : list TopLevelSyntax)
  : list Lexeme :=
  match ts with
  | [] => []
  | t :: ts' => topLexemes t (unitLexemes ts')
  end.

Definition TopFits `{Ext : Externals} (fuel : nat) (t : TopLevelSyntax) : Prop :=
  match t with
  | TFunction f =>
    FunctionFits fuel f
    /\ type (ts_name (fn_type f)) <> TT_END
    /\ type (ts_name (fn_type f)) <> TT_K_CLASS
  | TClass c => ClassFits fuel c
  end.

Definition functionsOf `{Ext : Externals} (ts : list TopLevelSyntax)
  : list Function :=
  flat_map (fun t => match t with
                     | TFunction f => [functionOf f]
                     | TClass _ => []
                     end) ts.

Definition classesOf `{Ext : Externals} (ts : list TopLevelSyntax)
  : list Class_ :=
  flat_map (fun t => match t with
                     | TFunction _ => []
                     | TClass c => [classOf c]
                     end) ts.

Definition unitOf `{Ext : Externals} (ts : list TopLevelSyntax)
  : TranslationUnit :=
  mkTranslationUnit (functionsOf ts) (classesOf ts).

(** *** Inline assembly and calls as token streams *)

(** A binding as it stands in the input: the quoted register name with
    its leading equals sign, and the variable in parentheses; with the
    register its name stands for. *)
Record BindingSyntax `{Ext : Externals} : Type := mkBindingSyntax {
  bd_open : Token;
  bd_name : string;
  bd_close : Token;
  bd_lpar : Token;
  bd_ident : Token;
  bd_rpar : Token;
  bd_register : Register
}.

Definition WellFormedBinding `{Ext : Externals} (b : BindingSyntax) : Prop :=
  type (bd_open b) = TT_DOUBLE_QUOTE
  /\ type (bd_close b) = TT_DOUBLE_QUOTE
  /\ type (bd_lpar b) = TT_LPAR
  /\ type (bd_ident b) = TT_IDENT
  /\ type (bd_rpar b) = TT_RPAR
  /\ strToReg (bd_name b) = inr (bd_register b).

Definition bindingOf `{Ext : Externals} (b : BindingSyntax) : BindingRequest :=
  mkBindingRequest (bd_register b) (value (bd_ident b)).

Definition bindingElement `{Ext : Externals} (b : BindingSyntax)
  : ListElement BindingRequest :=
  mkListElement (bd_open b)
    (LexRaw (String "=" (bd_name b))
     :: toks [bd_close b; bd_lpar b; bd_ident b; bd_rpar b])
    (bindingOf b).

Definition BindingItemFits `{Ext : Externals} (item : BindingSyntax * Token)
  : Prop :=
  WellFormedBinding (fst item) /\ type (snd item) = TT_COMMA.

Definition bindingItems `{Ext : Externals} (items : list (BindingSyntax * Token))
  : list (ListElement BindingRequest * Token) :=
  map (fun item => (bindingElement (fst item), snd item)) items.

(** The arguments of a call as [parseFunctionCall] wants them: each an
    expression token with a comma token behind it. *)
Definition argumentLexemes (args : list (Token * Token)) : list Lexeme :=
  flat_map (fun arg => [LexTok (fst arg); LexTok (snd arg)]) args.

Definition ArgumentFits (arg : Token * Token) : Prop :=
  isExpressionToken (fst arg) /\ type (snd arg) = TT_COMMA.

(** *** Sample syntax *)

Definition sample_int : TypeSyntax := mkTypeSyntax (tk TT_K_INT "int" 0) [].

Definition sample_int_pp : TypeSyntax :=
  mkTypeSyntax (tk TT_K_INT "int" 0) [tk TT_STAR "*" 3; tk TT_STAR "*" 4].

Definition sample_user_type : TypeSyntax :=
  mkTypeSyntax (tk TT_IDENT "Node" 0) [tk TT_STAR "*" 4].

(** [int a, Node* next, int]: two named parameters and an unnamed one. *)
Definition sample_param_list : ParamListSyntax :=
  Params
    [(mkParamSyntax sample_int (Some (tk TT_IDENT "a" 4)), tk TT_COMMA "," 5);
     (mkParamSyntax sample_user_type (Some (tk TT_IDENT "next" 6)),
      tk TT_COMMA "," 10)]
    (mkParamSyntax sample_int None).

(** [int x = 2; int** p; return x;] *)
Definition sample_statements : list (StatementSyntax * Token) :=
  [(SDecl (mkDeclSyntax sample_int (tk TT_IDENT "x" 4)
             (Some (tk TT_EQUAL "=" 6, tk TT_NUMBER "2" 8))),
    tk TT_SEMI ";" 9);
   (SDecl (mkDeclSyntax sample_int_pp (tk TT_IDENT "p" 6) None),
    tk TT_SEMI ";" 7);
   (SReturn (tk TT_K_RETURN "return" 0) (tk TT_IDENT "x" 7), tk TT_SEMI ";" 8)].

(** [int f(int a, Node* next, int) { int x = 2; int** p; return x; }] *)
Definition sample_function : FunctionSyntax :=
  mkFunctionSyntax sample_int (tk TT_IDENT "f" 4) (tk TT_LPAR "(" 5)
    sample_param_list (tk TT_RPAR ")" 6) (tk TT_LCURL "{" 7)
    sample_statements (tk TT_RCURL "}" 8).

(** [int one() { return 1; }] *)
Definition sample_method : FunctionSyntax :=
  mkFunctionSyntax sample_int (tk TT_IDENT "one" 4) (tk TT_LPAR "(" 7)
    NoParams (tk TT_RPAR ")" 8) (tk TT_LCURL "{" 9)
    [(SReturn (tk TT_K_RETURN "return" 0) (tk TT_NUMBER "1" 7),
      tk TT_SEMI ";" 8)]
    (tk TT_RCURL "}" 10).

(** [class A { int x; int one() { return 1; } Node* next; };] *)
Definition sample_class_syntax : ClassSyntax :=
  mkClassSyntax (tk TT_K_CLASS "class" 0) (tk TT_IDENT "A" 6)
    (tk TT_LCURL "{" 8)
    [MAttribute sample_int (tk TT_IDENT "x" 4) (tk TT_SEMI ";" 5);
     MMethod sample_method;
     MAttribute sample_user_type (tk TT_IDENT "next" 6) (tk TT_SEMI ";" 10)]
    (tk TT_RCURL "}" 9) (tk TT_SEMI ";" 10).

Definition sample_tops : list TopLevelSyntax :=
  [TClass sample_class_syntax; TFunction sample_function;
   TFunction sample_method].

(** The script of [sample_tops] under the sample externals. *)
Definition sample_unit_script : list Lexeme :=
  unitLexemes (Ext := SampleExternals) sample_tops.

(** The register name eax, with its equals sign, in quotes and then [(x)]. *)
Definition sample_binding_syntax (reg : string) (r : SampleRegister)
  (var : string) : @BindingSyntax SampleExternals :=
  @mkBindingSyntax SampleExternals (quoteAt 0) reg (quoteAt 5)
    (tk TT_LPAR "(" 6) (tk TT_IDENT var 7) (tk TT_RPAR ")" 8) r.

(** The text nop in quotes. *)
Definition sample_asm_text : list LiteralPiece :=
  [mkLiteralPiece (quoteAt 4) "nop" (quoteAt 8)].

(** [int] alone: a script that ends in the middle of a function. *)
Definition sample_truncated_script : list Lexeme :=
  toks [tk TT_K_INT "int" 0].

(* ===================================================================== *)
(** ** Properties *)
(* ===================================================================== *)

(** *** Token kinds and the monad *)

Lemma TokenType_eqb_refl (t : TokenType) : (t =?t t) = true.
Proof.
  unfold TokenType_eqb. destruct (TokenType_eq_dec t t); congruence.
Qed.

Lemma TokenType_eqb_eq (a b : TokenType) : (a =?t b) = true <-> a = b.
Proof.
  unfold TokenType_eqb. destruct (TokenType_eq_dec a b); split; congruence.
Qed.

Lemma TokenType_eqb_neq (a b : TokenType) : a <> b -> (a =?t b) = false.
Proof.
  unfold TokenType_eqb. destruct (TokenType_eq_dec a b); congruence.
Qed.

Lemma TokenType_eqb_false (a b : TokenType) : (a =?t b) = false -> a <> b.
Proof.
  unfold TokenType_eqb. destruct (TokenType_eq_dec a b); congruence.
Qed.

Lemma bind_Return_inv {S A B} (m : M S A) (k : A -> M S B) (s s' : S) (b : B) :
  bind m k s = Return b s' ->
  exists a s1, m s = Return a s1 /\ k a s1 = Return b s'.
Proof.
  unfold bind. destruct (m s) as [a s1| | |]; try discriminate.
  intros H. exists a, s1. split; [reflexivity | exact H].
Qed.

Lemma bind_Return {S A B} (m : M S A) (k : A -> M S B) (s s1 : S) (a : A) :
  m s = Return a s1 -> bind m k s = k a s1.
Proof. intros H. unfold bind. rewrite H. reflexivity. Qed.

Lemma isPureTypeToken_In `{Ext : Externals} (t : TokenType) :
  isPureTypeToken t = true <-> In t PURE_TYPES_TOKEN_LIST.
Proof.
  unfold isPureTypeToken. rewrite existsb_exists. split.
  - intros [x [Hin Heq]]. apply TokenType_eqb_eq in Heq. subst. exact Hin.
  - intros Hin. exists t. split; [exact Hin | apply TokenType_eqb_refl].
Qed.

(** *** The AST getters and the stubbed loads *)

Section AstProperties.
Context `{Ext : Externals} `{Gen : !Generator}.

(** C7: for every Variable node, every target register and every
    generator state, [Variable::loadValueInRegister] throws its
    placeholder internal error and returns no generator state (so nothing
    is emitted), also when it is reached through an [Expression]; and
    [FunctionCall::loadValueInRegister] throws its placeholder internal
    error for every call. *)
Theorem loadValueInRegister_stubs :
  forall (v : Variable_) (call : FunctionCall) (targetRegister : Register)
         (generator : NasmGenerator_x86_64),
    Variable_loadValueInRegister v targetRegister generator
    = Throw (InternalError [Txt "variable loadValueInRegister Not implemented"])
    /\ Expression_loadValueInRegister (Expression_Variable v) targetRegister
         generator
       = Throw (InternalError
                  [Txt "variable loadValueInRegister Not implemented"])
    /\ FunctionCall_loadValueInRegister call targetRegister generator
       = Throw (InternalError
                  [Txt "FunctionCall loadValueInRegister Not implemented"])
    /\ isInternalError
         (Variable_loadValueInRegister v targetRegister generator) = true
    /\ isInternalError
         (FunctionCall_loadValueInRegister call targetRegister generator)
       = true.
Proof.
  intros v call targetRegister generator.
  repeat split.
Qed.

End AstProperties.

(** C8: a Type node (a Variable node) whose description slot is null makes
    [getTypeDescription] ([getVariableDescription]) throw an internal
    error, which is not a user-facing error; this is the case of every
    node fresh from its constructor.  Once the slot holds the address of
    a description, the getter returns exactly that address and leaves the
    state alone. *)
Theorem getDescription_unset_or_stored :
  forall (S : Type) (s : S) (name : string) (pointerDepth : Z) (a : positive),
    getTypeDescription (mkType name pointerDepth nullptr) s
    = Throw (InternalError [Txt "TypeDescription not set"])
    /\ getTypeDescription (newType name pointerDepth) s
       = Throw (InternalError [Txt "TypeDescription not set"])
    /\ isInternalError (getTypeDescription (mkType name pointerDepth nullptr) s)
       = true
    /\ isUserError (getTypeDescription (mkType name pointerDepth nullptr) s)
       = false
    /\ getTypeDescription (mkType name pointerDepth (address a)) s
       = Return (address a) s
    /\ getVariableDescription (mkVariable name nullptr) s
       = Throw (InternalError [Txt "VariableDescription not set"])
    /\ getVariableDescription (newVariable name) s
       = Throw (InternalError [Txt "VariableDescription not set"])
    /\ isInternalError (getVariableDescription (mkVariable name nullptr) s)
       = true
    /\ isUserError (getVariableDescription (mkVariable name nullptr) s) = false
    /\ getVariableDescription (mkVariable name (address a)) s
       = Return (address a) s.
Proof.
  intros S s name pointerDepth a.
  repeat split.
Qed.

(** *** Statements *)

Section StatementProperties.
Context `{TS : TokenSource} `{Ext : Externals}.

Lemma parseSingleInstruction_unexpected (fuel : nat) (s : Parser) :
  type (_currentToken s) <> TT_K_RETURN ->
  type (_currentToken s) <> TT_K_ASM ->
  ~ In (type (_currentToken s)) PURE_TYPES_TOKEN_LIST ->
  parseSingleInstruction fuel s
  = Throw (UserError [Txt "Unexpected token while parsing instruction [";
                      Typ (type (_currentToken s)); Txt "]"]
             (Some (position (_currentToken s)))).
Proof.
  intros Hret Hasm Hpure.
  unfold parseSingleInstruction, bind, currentToken.
  rewrite (TokenType_eqb_neq _ _ Hret), (TokenType_eqb_neq _ _ Hasm).
  destruct (isPureTypeToken (type (_currentToken s))) eqn:Hp.
  - apply isPureTypeToken_In in Hp. contradiction.
  - reflexivity.
Qed.

Lemma parseSingleInstruction_declaration (fuel : nat) (s s' : Parser)
  (d : Declaration) :
  parseSingleInstruction fuel s = Return (Instruction_Declaration d) s' ->
  In (type (_currentToken s)) PURE_TYPES_TOKEN_LIST.
Proof.
  unfold parseSingleInstruction.
  intros H. apply bind_Return_inv in H.
  destruct H as [tok [s1 [Hcur H]]].
  unfold currentToken in Hcur. inversion Hcur; subst tok s1; clear Hcur.
  destruct (type (_currentToken s) =?t TT_K_RETURN).
  { apply bind_Return_inv in H. destruct H as [i [s2 [_ H]]].
    unfold ret in H. discriminate H. }
  destruct (type (_currentToken s) =?t TT_K_ASM).
  { apply bind_Return_inv in H. destruct H as [i [s2 [_ H]]].
    unfold ret in H. discriminate H. }
  destruct (isPureTypeToken (type (_currentToken s))) eqn:Hp.
  - apply isPureTypeToken_In. exact Hp.
  - unfold USER_THROW, throw in H. discriminate H.
Qed.

(** C5: a statement whose leading token is an identifier, the identifier
    kind not being one of the primitive-type keywords, makes
    [parseSingleInstruction] throw a user-facing error at that token; and
    whenever [parseSingleInstruction] returns a declaration, the leading
    token was a primitive-type keyword. *)
Theorem parseSingleInstruction_identifier_led :
  forall (fuel : nat) (s : Parser),
    (type (_currentToken s) = TT_IDENT ->
     ~ In TT_IDENT PURE_TYPES_TOKEN_LIST ->
     parseSingleInstruction fuel s
     = Throw (UserError [Txt "Unexpected token while parsing instruction [";
                         Typ TT_IDENT; Txt "]"]
                (Some (position (_currentToken s)))))
    /\ (forall (d : Declaration) (s' : Parser),
          parseSingleInstruction fuel s
          = Return (Instruction_Declaration d) s' ->
          In (type (_currentToken s)) PURE_TYPES_TOKEN_LIST).
Proof.
  intros fuel s. split.
  - intros Hid Hnot.
    rewrite (parseSingleInstruction_unexpected fuel s).
    + rewrite Hid. reflexivity.
    + rewrite Hid. discriminate.
    + rewrite Hid. discriminate.
    + rewrite Hid. exact Hnot.
  - intros d s'. apply parseSingleInstruction_declaration.
Qed.

End StatementProperties.

Lemma parseSingleInstruction_identifier_led_witness :
  parseSingleInstruction (TS := ScriptedSource) (Ext := SampleExternals) 4
    sample_identifier_statement
  = Throw (UserError [Txt "Unexpected token while parsing instruction [";
                      Typ TT_IDENT; Txt "]"] (Some 0))
  /\ In (type (_currentToken sample_declaration_statement))
       (PURE_TYPES_TOKEN_LIST (Externals := SampleExternals)).
Proof.
  split.
  - apply (proj1 (parseSingleInstruction_identifier_led
                    (TS := ScriptedSource) (Ext := SampleExternals)
                    4 sample_identifier_statement)).
    + reflexivity.
    + simpl. intros [H | [H | H]]; [discriminate H | discriminate H | exact H].
  - eapply (proj2 (parseSingleInstruction_identifier_led
                     (TS := ScriptedSource) (Ext := SampleExternals)
                     4 sample_declaration_statement)).
    vm_compute. reflexivity.
Defined.

(** *** Register names of inline-asm bindings *)

Lemma substring_whole (s : string) : String.substring 0 (String.length s) s = s.
Proof.
  induction s as [| c s IH]; simpl; [reflexivity | rewrite IH; reflexivity].
Qed.

Lemma string_view_substr_1 (c : ascii) (s : string) :
  string_view_substr (String c s) 1 = s.
Proof.
  unfold string_view_substr. simpl. rewrite Nat.sub_0_r. apply substring_whole.
Qed.

Section RegisterNameProperties.
Context `{TS : TokenSource} `{Ext : Externals}.

Lemma parseRegisterName_empty (s s' : Parser) :
  parseRawSingleStringLiteral s = Return EmptyString s' ->
  parseRegisterName s = OutOfBounds.
Proof.
  intros H. unfold parseRegisterName. rewrite (bind_Return _ _ _ _ _ H).
  reflexivity.
Qed.

Lemma parseRegisterName_no_equals (s s' : Parser) (c : ascii) (tl : string) :
  parseRawSingleStringLiteral s = Return (String c tl) s' ->
  c <> "="%char ->
  parseRegisterName s
  = Throw (UserError [Txt "Only ={register} identifiers are supported"]
             (Some (position (_currentToken s')))).
Proof.
  intros H Hc. unfold parseRegisterName. rewrite (bind_Return _ _ _ _ _ H).
  unfold bind, string_view_at, currentToken. simpl.
  destruct (Ascii.eqb c "=") eqn:E.
  - apply Ascii.eqb_eq in E. contradiction.
  - reflexivity.
Qed.

(** C10: [parseRegisterName] reads [raw[0]] with no test that the raw
    literal is non-empty.  When the literal it has read is empty, the
    read is out of bounds; when the literal is non-empty and does not
    begin with the equals sign, it throws the user-facing error of its
    assertion, whatever the register-name lookup would do. *)
Theorem parseRegisterName_first_character :
  forall (s s' : Parser) (raw : string),
    parseRawSingleStringLiteral s = Return raw s' ->
    (raw = EmptyString -> parseRegisterName s = OutOfBounds)
    /\ (forall (c : ascii) (tl : string),
          raw = String c tl -> c <> "="%char ->
          parseRegisterName s
          = Throw (UserError [Txt "Only ={register} identifiers are supported"]
                     (Some (position (_currentToken s'))))).
Proof.
  intros s s' raw H. split.
  - intros ->. eapply parseRegisterName_empty. exact H.
  - intros c tl -> Hc. eapply parseRegisterName_no_equals; eassumption.
Qed.

End RegisterNameProperties.

Lemma parseRegisterName_first_character_witness :
  parseRegisterName (TS := ScriptedSource) (Ext := SampleExternals)
    sample_binding_empty_literal = OutOfBounds
  /\ parseRegisterName (TS := ScriptedSource) (Ext := SampleExternals)
       sample_binding_no_equals
     = Throw (UserError [Txt "Only ={register} identifiers are supported"]
                (Some 5)).
Proof.
  split.
  - apply (proj1 (parseRegisterName_first_character
                    (TS := ScriptedSource) (Ext := SampleExternals)
                    sample_binding_empty_literal
                    (stateAt (tk TT_LPAR "(" 2)
                       [LexTok (tk TT_IDENT "x" 3); LexTok (tk TT_RPAR ")" 4)])
                    EmptyString eq_refl)).
    reflexivity.
  - apply (proj2 (parseRegisterName_first_character
                    (TS := ScriptedSource) (Ext := SampleExternals)
                    sample_binding_no_equals
                    (stateAt (tk TT_LPAR "(" 5)
                       [LexTok (tk TT_IDENT "x" 6); LexTok (tk TT_RPAR ")" 7)])
                    "eax" eq_refl) "e"%char "ax").
    + reflexivity.
    + discriminate.
Defined.

Section ScriptedRegisterName.
Context `{Ext : Externals}.

(** C2, as the source has it: the register name of a binding is read as
    one raw double-quoted literal.  Whatever token [t] follows its closing
    quote, a further opening quote included, stays unread (adjacent
    literals are not concatenated), and the text behind the leading
    equals sign goes to the register-name lookup as it is, with no escape
    sequence replaced. *)
Theorem parseRegisterName_single_raw_literal :
  forall (q1 q2 t : Token) (name : string) (rest : list Lexeme),
    type q1 = TT_DOUBLE_QUOTE ->
    type q2 = TT_DOUBLE_QUOTE ->
    parseRegisterName (TS := ScriptedSource)
      (stateAt q1 (LexRaw (String "=" name) :: LexTok q2 :: LexTok t :: rest))
    = match strToReg name with
      | inr r => Return r (stateAt t rest)
      | inl e => Throw e
      end.
Proof.
  intros [ty1 v1 p1] [ty2 v2 p2] t name rest H1 H2.
  simpl in H1, H2. subst ty1 ty2.
  unfold parseRegisterName, parseRawSingleStringLiteral, getRawUntil, match_,
    nextToken, callStrToReg, bind, currentToken, onLexer, setCurrentToken,
    USER_ASSERT, string_view_at, ret, throw, stateAt.
  simpl. rewrite string_view_substr_1.
  destruct (strToReg name); reflexivity.
Qed.

End ScriptedRegisterName.

Lemma parseRegisterName_single_raw_literal_witness :
  parseRegisterName (TS := ScriptedSource) (Ext := SampleExternals)
    (stateAt (quoteAt 0)
       [LexRaw "=eax"; LexTok (quoteAt 5); LexTok (quoteAt 7); LexRaw "x";
        LexTok (quoteAt 9)])
  = Return REG_EAX (stateAt (quoteAt 7) [LexRaw "x"; LexTok (quoteAt 9)]).
Proof.
  apply (parseRegisterName_single_raw_literal (Ext := SampleExternals)
           (quoteAt 0) (quoteAt 5) (quoteAt 7) "eax"
           [LexRaw "x"; LexTok (quoteAt 9)]); reflexivity.
Defined.

(** C2, as the grammar words it, fails on the binding whose register name
    is split over two adjacent literals: the grammar's reading joins them
    into the name of a register, while [parseRegisterName] stops at the
    first literal and looks up the text e alone. *)
Lemma parseRegisterName_not_stringLiteral :
  parseRegisterName_grammar (TS := ScriptedSource) (Ext := SampleExternals) 3
    sample_binding_two_literals
  = Return REG_EAX
      (stateAt (tk TT_LPAR "(" 9)
         [LexTok (tk TT_IDENT "x" 10); LexTok (tk TT_RPAR ")" 11)])
  /\ parseRegisterName (TS := ScriptedSource) (Ext := SampleExternals)
       sample_binding_two_literals
     = Throw (UserError [Txt "Unknown register "; Val "e"] None)
  /\ parseRegisterName (TS := ScriptedSource) (Ext := SampleExternals)
       sample_binding_two_literals
     <> parseRegisterName_grammar (TS := ScriptedSource)
          (Ext := SampleExternals) 3 sample_binding_two_literals.
Proof.
  split; [reflexivity | split; [reflexivity | discriminate]].
Qed.

(** *** Class members *)

Section ClassProperties.
Context `{TS : TokenSource} `{Ext : Externals}.

(** The member loop only ever appends members paired with [Public]. *)
Lemma parseClass_loop_public (fuel : nat) :
  forall (ms : MethodList) (ats : AttributeList) (s : Parser)
         (ms' : MethodList) (ats' : AttributeList) (s' : Parser),
    Forall isPublic ms -> Forall isPublic ats ->
    parseClass_loop fuel ms ats s = Return (ms', ats') s' ->
    Forall isPublic ms' /\ Forall isPublic ats'.
Proof.
  induction fuel as [| fuel IH]; intros ms ats s ms' ats' s' Hms Hats H.
  - discriminate H.
  - cbn [parseClass_loop] in H.
    apply bind_Return_inv in H. destruct H as [tok [s1 [_ H]]].
    destruct (negb (type tok =?t TT_RCURL)).
    + apply bind_Return_inv in H. destruct H as [ty [s2 [_ H]]].
      apply bind_Return_inv in H. destruct H as [name [s3 [_ H]]].
      apply bind_Return_inv in H. destruct H as [tok2 [s4 [_ H]]].
      destruct (type tok2 =?t TT_LPAR).
      * apply bind_Return_inv in H. destruct H as [params [s5 [_ H]]].
        apply bind_Return_inv in H. destruct H as [body [s6 [_ H]]].
        apply IH in H; [exact H | | exact Hats].
        apply Forall_app. split; [exact Hms |].
        constructor; [reflexivity | constructor].
      * apply bind_Return_inv in H. destruct H as [u [s5 [_ H]]].
        apply IH in H; [exact H | exact Hms |].
        apply Forall_app. split; [exact Hats |].
        constructor; [reflexivity | constructor].
    + unfold ret in H. inversion H; subst. split; assumption.
Qed.

(** C9: every attribute and every method of a class that [parseClass]
    returns is paired with the access specifier [Public]; hence none is
    paired with [Protected] or [Private], whatever the input. *)
Theorem parseClass_members_public :
  forall (fuel : nat) (s s' : Parser) (c : Class_),
    parseClass fuel s = Return c s' ->
    Forall isPublic (attributes c)
    /\ Forall isPublic (methods c)
    /\ (forall a, In a (attributes c) ->
          level (snd a) <> Protected /\ level (snd a) <> Private)
    /\ (forall m, In m (methods c) ->
          level (snd m) <> Protected /\ level (snd m) <> Private).
Proof.
  intros fuel s s' c H. unfold parseClass in H.
  apply bind_Return_inv in H. destruct H as [u1 [s1 [_ H]]].
  apply bind_Return_inv in H. destruct H as [name [s2 [_ H]]].
  apply bind_Return_inv in H. destruct H as [u2 [s3 [_ H]]].
  apply bind_Return_inv in H. destruct H as [[ms ats] [s4 [Hloop H]]].
  apply bind_Return_inv in H. destruct H as [u3 [s5 [_ H]]].
  apply bind_Return_inv in H. destruct H as [u4 [s6 [_ H]]].
  unfold ret in H. inversion H; subst c s'. simpl.
  apply parseClass_loop_public in Hloop; [| constructor | constructor].
  destruct Hloop as [Hms Hats].
  repeat split; try assumption.
  - rewrite Forall_forall in Hats. rewrite (Hats a H0). discriminate.
  - rewrite Forall_forall in Hats. rewrite (Hats a H0). discriminate.
  - rewrite Forall_forall in Hms. rewrite (Hms m H0). discriminate.
  - rewrite Forall_forall in Hms. rewrite (Hms m H0). discriminate.
Qed.

End ClassProperties.

Lemma parseClass_members_public_witness :
  exists (c : Class_ (Ext := SampleExternals)) (s' : @Parser ScriptedSource),
    parseClass (TS := ScriptedSource) (Ext := SampleExternals) 4 sample_class
    = Return c s'
    /\ length (attributes c) = 1
    /\ length (methods c) = 1
    /\ Forall isPublic (attributes c)
    /\ Forall isPublic (methods c).
Proof.
  eexists. eexists.
  split; [vm_compute; reflexivity |].
  split; [reflexivity |].
  split; [reflexivity |].
  pose proof (parseClass_members_public
                (TS := ScriptedSource) (Ext := SampleExternals)
                4 sample_class _ _ eq_refl) as H.
  split; [exact (proj1 H) | exact (proj1 (proj2 H))].
Defined.

(** *** The scripted token source *)

Lemma script_nextToken_total (l : list Lexeme) :
  exists t r, script_nextToken l = Return t r.
Proof.
  induction l as [| [t | raw] l IH]; simpl.
  - exists endToken, []. reflexivity.
  - exists t, l. reflexivity.
  - exact IH.
Qed.

Section ScriptedSteps.
Context `{Ext : Externals}.

Lemma nextToken_scripted (t : Token) (l : list Lexeme) :
  nextToken (TS := ScriptedSource) (stateAt t l) = Return tt (primed l).
Proof.
  destruct (script_nextToken_total l) as [t' [r Hl]].
  unfold nextToken, bind, onLexer, setCurrentToken, primed, stateAt. simpl.
  rewrite Hl. reflexivity.
Qed.

Lemma match_scripted (ty : TokenType) (t : Token) (l : list Lexeme) :
  type t = ty ->
  match_ (TS := ScriptedSource) ty (stateAt t l) = Return (value t) (primed l).
Proof.
  intros H. unfold match_, bind, currentToken, USER_ASSERT. simpl.
  rewrite H, TokenType_eqb_refl. simpl.
  fold (stateAt t l). rewrite nextToken_scripted. reflexivity.
Qed.

Lemma primed_token (t : Token) (l : list Lexeme) :
  primed (LexTok t :: l) = stateAt t l.
Proof. reflexivity. Qed.

End ScriptedSteps.

(** *** The list-parsing combinator *)

Section SeparatedListProperties.
Context {T : Type}.
Variables (sep B : TokenType) (pe : M (@Parser ScriptedSource) T).
Hypothesis sep_not_none : sep <> TT_NONE.
Hypothesis B_not_none : B <> TT_NONE.
Hypothesis sep_not_B : sep <> B.

#[local] Notation "'loop' mode" :=
  (parseSeparatedList_loop (TS := ScriptedSource) sep mode B pe)
  (at level 10, mode at level 9).

Lemma loop_at_breaker (mode : TrailingSeparator) (fuel : nat) (acc : list T)
  (b : Token) (rest : list Lexeme) :
  type b = B ->
  loop mode (S fuel) acc (stateAt b rest) = Return acc (stateAt b rest).
Proof.
  intros Hb. cbn [parseSeparatedList_loop]. unfold bind, currentToken. simpl.
  rewrite Hb, TokenType_eqb_refl, (TokenType_eqb_neq _ _ B_not_none).
  reflexivity.
Qed.

Lemma forbiddenStep_pass (mode : TrailingSeparator) (st : @Parser ScriptedSource) :
  (mode = TRAILING_FORBIDDEN -> type (_currentToken st) <> B) ->
  forbiddenStep sep mode B st = Return tt st.
Proof.
  intros H. unfold forbiddenStep.
  rewrite (TokenType_eqb_neq _ _ B_not_none). simpl.
  destruct mode; simpl; try reflexivity.
  unfold bind, currentToken, USER_ASSERT.
  rewrite (TokenType_eqb_neq _ _ (H eq_refl)). reflexivity.
Qed.

Lemma forbiddenStep_fail (st : @Parser ScriptedSource) :
  type (_currentToken st) = B ->
  forbiddenStep sep TRAILING_FORBIDDEN B st
  = Throw (UserError [Txt "Found trailing "; Typ sep;
                      Txt " in list, expected new element"]
             (Some (position (_currentToken st)))).
Proof.
  intros H. unfold forbiddenStep.
  rewrite (TokenType_eqb_neq _ _ B_not_none). simpl.
  unfold bind, currentToken, USER_ASSERT.
  rewrite H, TokenType_eqb_refl. reflexivity.
Qed.

Lemma separatorStep_at_separator (mode : TrailingSeparator) (s : Token)
  (l : list Lexeme) :
  type s = sep ->
  separatorStep (TS := ScriptedSource) sep mode (stateAt s l)
  = Return Continue (primed l).
Proof.
  intros Hs. unfold separatorStep.
  rewrite (TokenType_eqb_neq _ _ sep_not_none). simpl.
  unfold bind at 1. unfold currentToken. simpl.
  rewrite Hs, TokenType_eqb_refl.
  unfold bind. rewrite (match_scripted sep s l Hs). reflexivity.
Qed.

Lemma separatorStep_at_breaker (mode : TrailingSeparator) (b : Token)
  (l : list Lexeme) :
  type b = B ->
  separatorStep (TS := ScriptedSource) sep mode (stateAt b l)
  = match mode with
    | TRAILING_REQUIRED =>
      Throw (UserError [Txt "Expected trailing "; Typ sep] (Some (position b)))
    | _ => Return Break (stateAt b l)
    end.
Proof.
  intros Hb. unfold separatorStep.
  rewrite (TokenType_eqb_neq _ _ sep_not_none). simpl.
  unfold bind, currentToken. simpl.
  rewrite Hb. rewrite (TokenType_eqb_neq B sep) by congruence.
  destruct mode; reflexivity.
Qed.

(** One turn of the loop over an element that its separator follows. *)
Lemma loop_element_separator (mode : TrailingSeparator) (fuel : nat)
  (acc : list T) (e : ListElement T) (s : Token) (l : list Lexeme) :
  ReadsElement sep B pe e -> type s = sep ->
  loop mode (S fuel) acc (stateAt (el_head e) (el_tail e ++ LexTok s :: l))
  = bind (forbiddenStep sep mode B)
      (fun _ => loop mode fuel (acc ++ [el_value e])) (primed l).
Proof.
  intros [Hhead Hreads] Hs. cbn [parseSeparatedList_loop].
  unfold bind at 1. unfold currentToken at 1. simpl.
  rewrite (TokenType_eqb_neq _ _ Hhead). rewrite orb_true_r.
  unfold bind at 1. fold (stateAt (el_head e) (el_tail e ++ LexTok s :: l)).
  rewrite (Hreads s l (or_introl Hs)).
  unfold bind at 1. rewrite (separatorStep_at_separator mode s l Hs).
  reflexivity.
Qed.

(** The turn of the loop over an element that the breaker follows. *)
Lemma loop_element_breaker (mode : TrailingSeparator) (fuel : nat)
  (acc : list T) (e : ListElement T) (b : Token) (l : list Lexeme) :
  ReadsElement sep B pe e -> type b = B ->
  loop mode (S fuel) acc (stateAt (el_head e) (el_tail e ++ LexTok b :: l))
  = match mode with
    | TRAILING_REQUIRED =>
      Throw (UserError [Txt "Expected trailing "; Typ sep] (Some (position b)))
    | _ => Return (acc ++ [el_value e]) (stateAt b l)
    end.
Proof.
  intros [Hhead Hreads] Hb. cbn [parseSeparatedList_loop].
  unfold bind at 1. unfold currentToken at 1. simpl.
  rewrite (TokenType_eqb_neq _ _ Hhead). rewrite orb_true_r.
  unfold bind at 1. fold (stateAt (el_head e) (el_tail e ++ LexTok b :: l)).
  rewrite (Hreads b l (or_intror Hb)).
  unfold bind at 1. rewrite (separatorStep_at_breaker mode b l Hb).
  destruct mode; reflexivity.
Qed.

Lemma loop_prefix (mode : TrailingSeparator)
  (items : list (ListElement T * Token)) :
  Forall (ReadsItem sep B pe) items ->
  forall (acc : list T) (fuel : nat) (t0 : Token) (rest0 : list Lexeme),
    (mode = TRAILING_FORBIDDEN -> items <> [] -> type t0 <> B) ->
    loop mode (length items + fuel) acc
      (primed (separated items ++ LexTok t0 :: rest0))
    = loop mode fuel (acc ++ values items) (stateAt t0 rest0).
Proof.
  induction items as [| [e s] items IH]; intros Hitems acc fuel t0 rest0 Ht0.
  - simpl. rewrite app_nil_r. reflexivity.
  - inversion Hitems as [| x l' Hitem Hrest]; subst.
    destruct Hitem as [He Hs]. simpl in He, Hs.
    simpl separated. unfold el_lexemes. simpl app.
    rewrite <- app_assoc. simpl app. rewrite primed_token.
    simpl length. simpl Nat.add.
    rewrite (loop_element_separator mode _ acc e s _ He Hs).
    unfold bind. rewrite forbiddenStep_pass.
    + rewrite IH; [| exact Hrest |].
      * unfold values. simpl. rewrite <- app_assoc. reflexivity.
      * intros Hm _. apply Ht0; [exact Hm | discriminate].
    + intros Hm. destruct items as [| [e' s'] items'].
      * simpl. apply Ht0; [exact Hm | discriminate].
      * inversion Hrest as [| x l' Hitem' _]; subst.
        destruct Hitem' as [[Hh _] _]. exact Hh.
Qed.



Lemma loop_with_trailing (mode : TrailingSeparator) (fuel : nat)
  (items : list (ListElement T * Token)) (e : ListElement T) (s b : Token)
  (rest : list Lexeme) :
  Forall (ReadsItem sep B pe) items -> ReadsElement sep B pe e ->
  type s = sep -> type b = B -> S (length items) < fuel ->
  parseSeparatedList sep mode B pe fuel
    (primed (withTrailing items e s b rest))
  = match mode with
    | TRAILING_FORBIDDEN =>
      Throw (UserError [Txt "Found trailing "; Typ sep;
                        Txt " in list, expected new element"]
               (Some (position b)))
    | _ => Return (values items ++ [el_value e]) (stateAt b rest)
    end.
Proof.
  intros Hitems He Hs Hb Hfuel.
  replace fuel with (length items + S (S (fuel - length items - 2))) by lia.
  unfold parseSeparatedList, withTrailing, el_lexemes. simpl app.
  rewrite (loop_prefix mode items Hitems).
  2:{ intros _ _. exact (proj1 He). }
  rewrite (loop_element_separator mode _ _ e s _ He Hs).
  rewrite primed_token. unfold bind. simpl app.
  destruct mode.
  - rewrite forbiddenStep_fail by exact Hb. reflexivity.
  - rewrite forbiddenStep_pass by discriminate.
    apply loop_at_breaker. exact Hb.
  - rewrite forbiddenStep_pass by discriminate.
    apply loop_at_breaker. exact Hb.
Qed.

Lemma loop_without_trailing (mode : TrailingSeparator) (fuel : nat)
  (items : list (ListElement T * Token)) (e : ListElement T) (b : Token)
  (rest : list Lexeme) :
  Forall (ReadsItem sep B pe) items -> ReadsElement sep B pe e ->
  type b = B -> S (length items) < fuel ->
  parseSeparatedList sep mode B pe fuel
    (primed (withoutTrailing items e b rest))
  = match mode with
    | TRAILING_REQUIRED =>
      Throw (UserError [Txt "Expected trailing "; Typ sep] (Some (position b)))
    | _ => Return (values items ++ [el_value e]) (stateAt b rest)
    end.
Proof.
  intros Hitems He Hb Hfuel.
  replace fuel with (length items + S (S (fuel - length items - 2))) by lia.
  unfold parseSeparatedList, withoutTrailing, el_lexemes. simpl app.
  rewrite (loop_prefix mode items Hitems).
  2:{ intros _ _. exact (proj1 He). }
  rewrite (loop_element_breaker mode _ _ e b _ He Hb).
  destruct mode; reflexivity.
Qed.

(** C1: for the list of the elements [items] followed by [e], each read
    by [parseElement], with a separator kind and a breaker kind that
    differ (and neither is [TT_NONE]): under [TRAILING_REQUIRED],
    [parseSeparatedList] returns the elements' values on
    [e1 sep ... eN sep B], stopping at [B], and throws a user-facing
    error on [e1 sep ... eN B]; under [TRAILING_FORBIDDEN] it throws on
    the first input and returns the values on the second; under
    [TRAILING_OPTIONAL] it returns the values on both.  The empty list,
    the breaker alone, is returned as such under every policy. *)
Theorem parseSeparatedList_trailing_policy :
  forall (fuel : nat) (items : list (ListElement T * Token))
         (e : ListElement T) (s b : Token) (rest : list Lexeme),
    Forall (ReadsItem sep B pe) items -> ReadsElement sep B pe e ->
    type s = sep -> type b = B -> S (length items) < fuel ->
    parseSeparatedList sep TRAILING_REQUIRED B pe fuel
      (primed (withTrailing items e s b rest))
    = Return (values items ++ [el_value e]) (stateAt b rest)
    /\ parseSeparatedList sep TRAILING_REQUIRED B pe fuel
         (primed (withoutTrailing items e b rest))
       = Throw (UserError [Txt "Expected trailing "; Typ sep]
                  (Some (position b)))
    /\ parseSeparatedList sep TRAILING_FORBIDDEN B pe fuel
         (primed (withTrailing items e s b rest))
       = Throw (UserError [Txt "Found trailing "; Typ sep;
                           Txt " in list, expected new element"]
                  (Some (position b)))
    /\ parseSeparatedList sep TRAILING_FORBIDDEN B pe fuel
         (primed (withoutTrailing items e b rest))
       = Return (values items ++ [el_value e]) (stateAt b rest)
    /\ parseSeparatedList sep TRAILING_OPTIONAL B pe fuel
         (primed (withTrailing items e s b rest))
       = Return (values items ++ [el_value e]) (stateAt b rest)
    /\ parseSeparatedList sep TRAILING_OPTIONAL B pe fuel
         (primed (withoutTrailing items e b rest))
       = Return (values items ++ [el_value e]) (stateAt b rest)
    /\ (forall mode : TrailingSeparator,
          parseSeparatedList sep mode B pe fuel (stateAt b rest)
          = Return [] (stateAt b rest)).
Proof.
  intros fuel items e s b rest Hitems He Hs Hb Hfuel.
  repeat split.
  7:{ intros mode. destruct fuel as [| fuel]; [lia |].
      apply loop_at_breaker. exact Hb. }
  - exact (loop_with_trailing TRAILING_REQUIRED fuel items e s b rest
             Hitems He Hs Hb Hfuel).
  - exact (loop_without_trailing TRAILING_REQUIRED fuel items e b rest
             Hitems He Hb Hfuel).
  - exact (loop_with_trailing TRAILING_FORBIDDEN fuel items e s b rest
             Hitems He Hs Hb Hfuel).
  - exact (loop_without_trailing TRAILING_FORBIDDEN fuel items e b rest
             Hitems He Hb Hfuel).
  - exact (loop_with_trailing TRAILING_OPTIONAL fuel items e s b rest
             Hitems He Hs Hb Hfuel).
  - exact (loop_without_trailing TRAILING_OPTIONAL fuel items e b rest
             Hitems He Hb Hfuel).
Qed.

End SeparatedListProperties.

Section ParameterSteps.
Context `{Ext : Externals}.

Lemma parsePureType_X_In (tokens : list TokenType) (s : Parser (TS := ScriptedSource)) :
  In (type (_currentToken s)) tokens ->
  parsePureType_X tokens s = match_ (type (_currentToken s)) s.
Proof.
  induction tokens as [| token tokens IH]; intros Hin.
  - destruct Hin.
  - cbn [parsePureType_X]. unfold bind at 1. unfold currentToken at 1.
    destruct (type (_currentToken s) =?t token) eqn:E.
    + apply TokenType_eqb_eq in E. rewrite <- E. reflexivity.
    + apply IH. destruct Hin as [H | H]; [| exact H].
      apply TokenType_eqb_false in E. congruence.
Qed.

Lemma parseType_loop_stop (fuel : nat) (pointerDepth : Z)
  (s : Parser (TS := ScriptedSource)) :
  type (_currentToken s) <> TT_STAR ->
  parseType_loop (S fuel) pointerDepth s = Return pointerDepth s.
Proof.
  intros H. cbn [parseType_loop]. unfold bind, currentToken.
  rewrite (TokenType_eqb_neq _ _ H). reflexivity.
Qed.

(** A primitive-type keyword with no star behind it is a type of pointer
    depth zero. *)
Lemma parseType_keyword (fuel : nat) (ty next : Token) (l : list Lexeme) :
  In (type ty) PURE_TYPES_TOKEN_LIST -> type next <> TT_STAR ->
  parseType (TS := ScriptedSource) (S fuel) (stateAt ty (LexTok next :: l))
  = Return (newType (value ty) 0) (stateAt next l).
Proof.
  intros Hpure Hnext. unfold parseType, parsePureType.
  unfold bind at 1. rewrite parsePureType_X_In by exact Hpure.
  cbn [_currentToken stateAt].
  rewrite (match_scripted (type ty) ty _ eq_refl). rewrite primed_token.
  unfold bind. rewrite parseType_loop_stop by exact Hnext. reflexivity.
Qed.

(** [parseSingleParam] reads a parameter made of a primitive-type keyword
    and a name. *)
Lemma parseSingleParam_reads (fuel : nat) (ty name : Token) :
  In (type ty) PURE_TYPES_TOKEN_LIST -> type ty <> TT_RPAR ->
  type name = TT_IDENT ->
  ReadsElement TT_COMMA TT_RPAR (parseSingleParam (TS := ScriptedSource) (S fuel))
    (mkListElement ty [LexTok name]
       (mkFunctionParameter (newType (value ty) 0) (value name))).
Proof.
  intros Hpure Hrpar Hname. split; [exact Hrpar |].
  intros t rest _. simpl.
  unfold parseSingleParam. unfold bind at 1.
  rewrite parseType_keyword; [| exact Hpure | rewrite Hname; discriminate].
  unfold bind at 1. unfold currentToken at 1.
  cbn [_currentToken stateAt]. rewrite Hname, TokenType_eqb_refl.
  unfold bind. rewrite (match_scripted TT_IDENT name _ Hname).
  reflexivity.
Qed.

End ParameterSteps.

Lemma parseSeparatedList_trailing_policy_witness :
  let pe := parseSingleParam (TS := ScriptedSource) (Ext := SampleExternals) 3 in
  let items := [(sample_param "a" 1, sample_comma 6)] in
  let e := sample_param "b" 8 in
  let vs := [mkFunctionParameter (newType "int" 0) "a";
             mkFunctionParameter (newType "int" 0) "b"] in
  let after := stateAt (sample_rpar 14) [] in
  let trailing := primed (withTrailing items e (sample_comma 13) (sample_rpar 14) []) in
  let plain := primed (withoutTrailing items e (sample_rpar 14) []) in
  parseSeparatedList TT_COMMA TRAILING_REQUIRED TT_RPAR pe 3 trailing
  = Return vs after
  /\ parseSeparatedList TT_COMMA TRAILING_REQUIRED TT_RPAR pe 3 plain
     = Throw (UserError [Txt "Expected trailing "; Typ TT_COMMA] (Some 14))
  /\ parseSeparatedList TT_COMMA TRAILING_FORBIDDEN TT_RPAR pe 3 trailing
     = Throw (UserError [Txt "Found trailing "; Typ TT_COMMA;
                         Txt " in list, expected new element"] (Some 14))
  /\ parseSeparatedList TT_COMMA TRAILING_FORBIDDEN TT_RPAR pe 3 plain
     = Return vs after
  /\ parseSeparatedList TT_COMMA TRAILING_OPTIONAL TT_RPAR pe 3 trailing
     = Return vs after
  /\ parseSeparatedList TT_COMMA TRAILING_OPTIONAL TT_RPAR pe 3 plain
     = Return vs after
  /\ (forall mode : TrailingSeparator,
        parseSeparatedList TT_COMMA mode TT_RPAR pe 3 after
        = Return [] after).
Proof.
  cbv zeta.
  apply (parseSeparatedList_trailing_policy TT_COMMA TT_RPAR
           (parseSingleParam (TS := ScriptedSource) (Ext := SampleExternals) 3)).
  - discriminate.
  - discriminate.
  - discriminate.
  - constructor; [| constructor].
    split; [| reflexivity].
    split; [discriminate | intros t rest _; reflexivity].
  - split; [discriminate | intros t rest _; reflexivity].
  - reflexivity.
  - reflexivity.
  - simpl. lia.
Defined.

Section FunctionParameterProperties.
Context `{Ext : Externals}.

(** C3, as the source has it: on the parameter list [(int a,)] the
    parser throws the user-facing error of the [TRAILING_FORBIDDEN]
    check, and the position it reports is that of the current token
    when the check runs, which is the closing parenthesis behind the
    trailing comma. *)
Theorem parseFunctionParams_trailing_comma :
  forall (fuel : nat) (lpar ty name comma rpar : Token) (rest : list Lexeme),
    In TT_K_INT PURE_TYPES_TOKEN_LIST ->
    type lpar = TT_LPAR -> type ty = TT_K_INT -> type name = TT_IDENT ->
    type comma = TT_COMMA -> type rpar = TT_RPAR ->
    1 < fuel ->
    parseFunctionParams (TS := ScriptedSource) fuel
      (primed (toks [lpar; ty; name; comma; rpar] ++ rest))
    = Throw (UserError [Txt "Found trailing "; Typ TT_COMMA;
                        Txt " in list, expected new element"]
               (Some (position rpar))).
Proof.
  intros fuel lpar ty name comma rpar rest Hpure Hlpar Hty Hname Hcomma Hrpar
    Hfuel.
  destruct fuel as [| fuel]; [lia |].
  unfold toks. simpl map. simpl app. rewrite primed_token.
  unfold parseFunctionParams. unfold bind at 1.
  rewrite (match_scripted TT_LPAR lpar _ Hlpar).
  unfold bind at 1.
  change (primed (LexTok ty :: LexTok name :: LexTok comma :: LexTok rpar :: rest))
    with (primed (withTrailing []
                    (mkListElement ty [LexTok name]
                       (mkFunctionParameter (newType (value ty) 0) (value name)))
                    comma rpar rest)).
  rewrite (loop_with_trailing TT_COMMA TT_RPAR
             (parseSingleParam (TS := ScriptedSource) (S fuel))).
  - reflexivity.
  - discriminate.
  - discriminate.
  - discriminate.
  - constructor.
  - apply parseSingleParam_reads.
    + rewrite Hty. exact Hpure.
    + rewrite Hty. discriminate.
    + exact Hname.
  - exact Hcomma.
  - exact Hrpar.
  - simpl. lia.
Qed.

End FunctionParameterProperties.

Lemma parseFunctionParams_trailing_comma_witness :
  parseFunctionParams (TS := ScriptedSource) (Ext := SampleExternals) 2
    sample_params_trailing_comma
  = Throw (UserError [Txt "Found trailing "; Typ TT_COMMA;
                      Txt " in list, expected new element"] (Some 7)).
Proof.
  apply (parseFunctionParams_trailing_comma (Ext := SampleExternals) 2
           (tk TT_LPAR "(" 0) (tk TT_K_INT "int" 1) (tk TT_IDENT "a" 5)
           (tk TT_COMMA "," 6) (tk TT_RPAR ")" 7) []).
  - simpl. left. reflexivity.
  - reflexivity.
  - reflexivity.
  - reflexivity.
  - reflexivity.
  - reflexivity.
  - lia.
Defined.

(** C3, as the specification words it, fails on [(int a,)] with the
    comma at column 6 and the closing parenthesis at column 7: the error
    is positioned at column 7, not at the trailing comma. *)
Lemma parseFunctionParams_position_not_comma :
  parseFunctionParams (TS := ScriptedSource) (Ext := SampleExternals) 2
    sample_params_trailing_comma
  = Throw (UserError [Txt "Found trailing "; Typ TT_COMMA;
                      Txt " in list, expected new element"]
             (Some (position (tk TT_RPAR ")" 7))))
  /\ Some (position (tk TT_RPAR ")" 7)) <> Some (position (tk TT_COMMA "," 6)).
Proof.
  split; [reflexivity | discriminate].
Qed.

(** *** Function-call argument lists *)

Section CallProperties.
Context `{Ext : Externals}.


End CallProperties.



(** [parseFunctionCall] is private and no function of the parser calls
    it (its one call, in [parseExpression], is commented out).  Run on
    its own on [f(a)] and on [f(a,)], it throws on the call without a
    trailing comma, at the closing parenthesis where it demands a comma,
    and it returns a call on the one with the trailing comma. *)
Lemma parseFunctionCall_demands_trailing_comma :
  parseFunctionCall (TS := ScriptedSource) (Ext := SampleExternals) 3 sample_call
  = Throw (UserError
             [Txt "Unexpected token type=["; Typ TT_RPAR;
              Txt "] for value=["; Val ")"; Txt "] expected=[";
              Typ TT_COMMA; Txt "]"]
             (Some 3))
  /\ parseFunctionCall (TS := ScriptedSource) (Ext := SampleExternals) 3
       sample_call_trailing_comma
     = Return (mkFunctionCall "f" [Expression_Variable (newVariable "a")])
         (stateAt endToken []).
Proof.
  split; reflexivity.
Qed.

(** *** String literals *)

Section StringLiteralProperties.
Context `{Ext : Externals}.

Lemma parseRawSingleStringLiteral_scripted (p : LiteralPiece) (l : list Lexeme) :
  wellQuoted p ->
  parseRawSingleStringLiteral (TS := ScriptedSource)
    (primed (piece_lexemes p ++ l))
  = Return (piece_raw p) (primed l).
Proof.
  intros [Hopen Hclose]. destruct p as [o raw c]. simpl in Hopen, Hclose.
  simpl. rewrite primed_token.
  unfold parseRawSingleStringLiteral.
  unfold bind at 1. unfold currentToken at 1. cbn [_currentToken stateAt].
  rewrite Hopen, TokenType_eqb_refl. unfold USER_ASSERT.
  unfold bind at 1. unfold ret at 1.
  unfold bind at 1.
  change (getRawUntil double_quote (stateAt o (LexRaw raw :: LexTok c :: l)))
    with (Return (S := @Parser ScriptedSource) raw (stateAt c l)).
  unfold bind. rewrite (match_scripted TT_DOUBLE_QUOTE c l Hclose).
  reflexivity.
Qed.

Lemma parseStringLiteral_loop_pieces (ps : list LiteralPiece) :
  Forall wellQuoted ps ->
  forall (fuel : nat) (acc : list string) (t : Token) (rest : list Lexeme),
    type t <> TT_DOUBLE_QUOTE ->
    parseStringLiteral_loop (TS := ScriptedSource) (length ps + S fuel) acc
      (primed (pieces_lexemes ps ++ LexTok t :: rest))
    = Return (acc ++ map piece_raw ps) (stateAt t rest).
Proof.
  induction ps as [| p ps IH]; intros Hps fuel acc t rest Ht.
  - simpl. rewrite primed_token. unfold bind, currentToken.
    cbn [_currentToken stateAt]. rewrite (TokenType_eqb_neq _ _ Ht).
    rewrite app_nil_r. reflexivity.
  - inversion Hps as [| x l' Hp Hrest]; subst.
    replace (pieces_lexemes (p :: ps) ++ LexTok t :: rest)
      with (piece_lexemes p ++ (pieces_lexemes ps ++ LexTok t :: rest))
      by reflexivity.
    simpl length. simpl Nat.add. cbn [parseStringLiteral_loop].
    unfold bind at 1. unfold currentToken at 1.
    replace (type (_currentToken
                     (primed (piece_lexemes p ++
                              (pieces_lexemes ps ++ LexTok t :: rest)))))
      with TT_DOUBLE_QUOTE by (symmetry; exact (proj1 Hp)).
    rewrite TokenType_eqb_refl.
    unfold bind. rewrite (parseRawSingleStringLiteral_scripted p _ Hp).
    rewrite (IH Hrest fuel _ t rest Ht).
    rewrite <- app_assoc. reflexivity.
Qed.

Lemma string_append_nil_r (s : string) : (s ++ EmptyString)%string = s.
Proof.
  induction s as [| c s IH]; simpl; [| rewrite IH]; reflexivity.
Qed.

Lemma string_append_assoc (a b c : string) :
  ((a ++ b) ++ c)%string = (a ++ (b ++ c))%string.
Proof.
  induction a as [| x a IH]; simpl; [| rewrite IH]; reflexivity.
Qed.

Lemma concatReplaced_acc (ps : list LiteralPiece) (acc : string) :
  fold_left (fun content lit => (content ++ Lexer_replaceEscapes lit)%string)
    (map piece_raw ps) acc
  = (acc ++ concatenation ps)%string.
Proof.
  revert acc. induction ps as [| p ps IH]; intros acc.
  - simpl. rewrite string_append_nil_r. reflexivity.
  - simpl. rewrite IH. apply string_append_assoc.
Qed.

Lemma concatReplaced_concatenation (ps : list LiteralPiece) :
  concatReplaced (map piece_raw ps) = concatenation ps.
Proof.
  unfold concatReplaced. rewrite concatReplaced_acc. reflexivity.
Qed.

(** Several adjacent pieces are read to the end and joined. *)
Lemma parseStringLiteral_pieces (fuel : nat) (ps : list LiteralPiece)
  (t : Token) (rest : list Lexeme) :
  ps <> [] -> Forall wellQuoted ps -> type t <> TT_DOUBLE_QUOTE ->
  length ps < fuel ->
  parseStringLiteral (TS := ScriptedSource) fuel
    (primed (pieces_lexemes ps ++ LexTok t :: rest))
  = Return (mkStringLiteral (concatenation ps)) (stateAt t rest).
Proof.
  intros Hne Hps Ht Hfuel.
  replace fuel with (length ps + S (fuel - length ps - 1)) by lia.
  unfold parseStringLiteral. unfold bind at 1.
  rewrite (parseStringLiteral_loop_pieces ps Hps _ [] t rest Ht).
  simpl app. rewrite concatReplaced_concatenation.
  destruct ps as [| p ps]; [contradiction |]. reflexivity.
Qed.

End StringLiteralProperties.

Section StringLiteralErrors.
Context `{TS : TokenSource} `{Ext : Externals}.

(** With no opening quote at hand the loop reads nothing and the literal
    is refused. *)
Lemma parseStringLiteral_no_piece (fuel : nat) (s : Parser) :
  type (_currentToken s) <> TT_DOUBLE_QUOTE ->
  parseStringLiteral (S fuel) s
  = Throw (UserError [Txt "Expected a valid string literal"]
             (Some (position (_currentToken s)))).
Proof.
  intros H. unfold parseStringLiteral. cbn [parseStringLiteral_loop].
  unfold bind, currentToken. rewrite (TokenType_eqb_neq _ _ H). reflexivity.
Qed.

End StringLiteralErrors.

(** C6: on one or more adjacent double-quoted pieces followed by a token
    that is no opening quote, [parseStringLiteral] returns the
    [StringLiteral] whose content is the in-order concatenation of the
    pieces with their escape sequences replaced, and stops at that
    token; with no double-quoted piece at the current token, it throws a
    user-facing error, whatever the token source. *)
Theorem parseStringLiteral_concatenates :
  forall (Ext : Externals),
    (forall (fuel : nat) (ps : list LiteralPiece) (t : Token)
            (rest : list Lexeme),
        ps <> [] -> Forall wellQuoted ps -> type t <> TT_DOUBLE_QUOTE ->
        length ps < fuel ->
        parseStringLiteral (TS := ScriptedSource) fuel
          (primed (pieces_lexemes ps ++ LexTok t :: rest))
        = Return (mkStringLiteral (concatenation ps)) (stateAt t rest))
    /\ (forall (TS : TokenSource) (fuel : nat) (s : Parser),
          type (_currentToken s) <> TT_DOUBLE_QUOTE ->
          0 < fuel ->
          parseStringLiteral fuel s
          = Throw (UserError [Txt "Expected a valid string literal"]
                     (Some (position (_currentToken s))))).
Proof.
  intros Ext. split.
  - intros fuel ps t rest. apply parseStringLiteral_pieces.
  - intros TS fuel s H Hfuel. destruct fuel as [| fuel]; [lia |].
    apply parseStringLiteral_no_piece. exact H.
Qed.

Lemma parseStringLiteral_concatenates_witness :
  parseStringLiteral (TS := ScriptedSource) (Ext := SampleExternals) 3
    (primed (pieces_lexemes
               [mkLiteralPiece (quoteAt 0) "mov " (quoteAt 5);
                mkLiteralPiece (quoteAt 7) "eax, 1" (quoteAt 14)]
             ++ LexTok (tk TT_RPAR ")" 15) :: []))
  = Return (mkStringLiteral "mov eax, 1") (stateAt (tk TT_RPAR ")" 15) [])
  /\ parseStringLiteral (TS := ScriptedSource) (Ext := SampleExternals) 3
       (stateAt (tk TT_RPAR ")" 15) [])
     = Throw (UserError [Txt "Expected a valid string literal"] (Some 15)).
Proof.
  split.
  - apply (proj1 (parseStringLiteral_concatenates SampleExternals) 3
             [mkLiteralPiece (quoteAt 0) "mov " (quoteAt 5);
              mkLiteralPiece (quoteAt 7) "eax, 1" (quoteAt 14)]
             (tk TT_RPAR ")" 15) []).
    + discriminate.
    + repeat constructor.
    + discriminate.
    + simpl. lia.
  - apply (proj2 (parseStringLiteral_concatenates SampleExternals)
             ScriptedSource 3 (stateAt (tk TT_RPAR ")" 15) [])).
    + discriminate.
    + lia.
Defined.

(** *** Progress of the parser over a scripted source *)

Lemma script_nextToken_shape (l : list Lexeme) :
  (script_nextToken l = Return endToken []
   /\ Forall (fun x => match x with LexTok _ => False | LexRaw _ => True end) l)
  \/ (exists t r, script_nextToken l = Return t r
                  /\ In (LexTok t) l /\ length r < length l
                  /\ (NoEndInside l -> NoEndInside r)).
Proof.
  induction l as [| [t | raw] l IH]; simpl.
  - left. split; [reflexivity | constructor].
  - right. exists t, l. repeat split.
    + left. reflexivity.
    + lia.
    + intros H. inversion H; assumption.
  - destruct IH as [[H1 H2] | [t [r [H1 [H2 [H3 H4]]]]]].
    + left. split; [exact H1 | constructor; [exact I | exact H2]].
    + right. exists t, r. repeat split.
      * exact H1.
      * right. exact H2.
      * lia.
      * intros H. inversion H; subst. apply H4. assumption.
Qed.

Lemma NoEndInside_In (l : list Lexeme) (t : Token) :
  NoEndInside l -> In (LexTok t) l -> type t <> TT_END.
Proof.
  intros H Hin. unfold NoEndInside in H. rewrite Forall_forall in H.
  specialize (H _ Hin). simpl in H. apply TokenType_eqb_false. exact H.
Qed.

Lemma remaining_primed (l : list Lexeme) : remaining (primed l) <= length l.
Proof.
  unfold primed.
  destruct (script_nextToken_shape l) as [[H _] | [t [r [H [_ [Hlen _]]]]]];
    rewrite H; unfold remaining; simpl.
  - lia.
  - destruct (type t =?t TT_END); lia.
Qed.

Lemma EndMeansExhausted_primed (l : list Lexeme) :
  NoEndInside l -> EndMeansExhausted (primed l).
Proof.
  intros Hl. unfold primed.
  destruct (script_nextToken_shape l) as [[H _] | [t [r [H [Hin [_ Hr]]]]]];
    rewrite H; unfold EndMeansExhausted; simpl.
  - split; [constructor | reflexivity].
  - split; [exact (Hr Hl) |].
    intros Ht. exfalso. exact (NoEndInside_In l t Hl Hin Ht).
Qed.

Section Progress.
Context `{Ext : Externals}.

#[local] Notation "'State'" := (@Parser ScriptedSource).

(** With [lax] the lemmas hold for any fuel and allow running out of
    it; without, they ask for enough fuel and exclude it. *)
Variable lax : bool.

Lemma Advances_refl (s : State) : Advances false s s.
Proof. split; [simpl; lia | tauto]. Qed.

Lemma Advances_weaken (strict : bool) (s s' : State) :
  Advances strict s s' -> Advances false s s'.
Proof.
  intros [H1 H2]. split; [| exact H2]. destruct strict; simpl in *; lia.
Qed.

Lemma Advances_trans (b1 b2 : bool) (s s1 s2 : State) :
  Advances b1 s s1 -> Advances b2 s1 s2 -> Advances (b1 || b2) s s2.
Proof.
  intros [H1 Q1] [H2 Q2]. split; [| tauto].
  destruct b1, b2; simpl in *; lia.
Qed.

Lemma WellBehaved_weaken (strict : bool) {A} (m : M State A) (s : State) :
  WellBehaved lax strict m s -> WellBehaved lax false m s.
Proof.
  unfold WellBehaved. destruct (m s); try tauto. apply Advances_weaken.
Qed.

Lemma WellBehaved_ret {A} (a : A) (s : State) : WellBehaved lax false (ret a) s.
Proof. apply Advances_refl. Qed.

Lemma WellBehaved_bind (b1 b2 : bool) {A B} (m : M State A)
  (k : A -> M State B) (s : State) :
  WellBehaved lax b1 m s ->
  (forall a s1, m s = Return a s1 -> Advances b1 s s1 ->
                WellBehaved lax b2 (k a) s1) ->
  WellBehaved lax (b1 || b2) (bind m k) s.
Proof.
  unfold WellBehaved at 1 3, bind. destruct (m s) as [a s1 | e | |];
    intros Hm Hk; try exact Hm.
  specialize (Hk a s1 eq_refl Hm). unfold WellBehaved in Hk.
  destruct (k a s1) as [b s2 | e | |]; try exact Hk.
  exact (Advances_trans b1 b2 s s1 s2 Hm Hk).
Qed.

(** Reading the current token does not move the parser. *)
Lemma WellBehaved_currentToken (strict : bool) {A} (k : Token -> M State A)
  (s : State) :
  WellBehaved lax strict (k (_currentToken s)) s ->
  WellBehaved lax strict (bind currentToken k) s.
Proof. intros H. exact H. Qed.

Lemma WellBehaved_USER_THROW (strict : bool) {A} (msg : Message) (p : Position)
  (s : State) :
  WellBehaved lax strict (USER_THROW (A := A) msg (Some p)) s.
Proof. left. exists msg, p. reflexivity. Qed.

Lemma WellBehaved_USER_ASSERT (cond : bool) (msg : Message) (p : Position)
  (s : State) :
  WellBehaved lax false (USER_ASSERT cond msg (Some p)) s.
Proof.
  destruct cond; [apply WellBehaved_ret | apply WellBehaved_USER_THROW].
Qed.

Lemma Advances_nextToken (s : State) : Advances false s (primed (_lexer s)).
Proof.
  split.
  - simpl. pose proof (remaining_primed (_lexer s)). unfold remaining at 2.
    lia.
  - intros [H _]. apply EndMeansExhausted_primed. exact H.
Qed.

Lemma Advances_nextToken_strict (s : State) :
  type (_currentToken s) <> TT_END -> Advances true s (primed (_lexer s)).
Proof.
  intros Ht. split.
  - simpl. pose proof (remaining_primed (_lexer s)). unfold remaining at 2.
    rewrite (TokenType_eqb_neq _ _ Ht). lia.
  - intros [H _]. apply EndMeansExhausted_primed. exact H.
Qed.

Lemma nextToken_primed (s : State) :
  nextToken (TS := ScriptedSource) s = Return tt (primed (_lexer s)).
Proof. destruct s as [l t]. apply (nextToken_scripted t l). Qed.

Lemma WellBehaved_nextToken (s : State) :
  WellBehaved lax false (nextToken (TS := ScriptedSource)) s.
Proof.
  unfold WellBehaved. rewrite nextToken_primed. apply Advances_nextToken.
Qed.

(** A successful [match] of a kind other than [TT_END] consumes a token. *)
Lemma WellBehaved_match (ty : TokenType) (s : State) :
  ty <> TT_END -> WellBehaved lax true (match_ (TS := ScriptedSource) ty) s.
Proof.
  intros Hty. unfold WellBehaved.
  destruct s as [l t].
  destruct (TokenType_eq_dec (type t) ty) as [E | E].
  - change (mkParser l t) with (stateAt t l).
    rewrite (match_scripted ty t l E).
    apply (Advances_nextToken_strict (stateAt t l)). simpl. congruence.
  - unfold match_, bind, currentToken, USER_ASSERT. simpl.
    rewrite (TokenType_eqb_neq _ _ E). simpl.
    left. eexists. eexists. reflexivity.
Qed.

Lemma WellBehaved_match_any (ty : TokenType) (s : State) :
  WellBehaved lax false (match_ (TS := ScriptedSource) ty) s.
Proof.
  unfold WellBehaved.
  destruct s as [l t].
  destruct (TokenType_eq_dec (type t) ty) as [E | E].
  - change (mkParser l t) with (stateAt t l).
    rewrite (match_scripted ty t l E).
    apply (Advances_nextToken (stateAt t l)).
  - unfold match_, bind, currentToken, USER_ASSERT. simpl.
    rewrite (TokenType_eqb_neq _ _ E). simpl.
    left. eexists. eexists. reflexivity.
Qed.


Lemma WellBehaved_bind_any (b1 b2 : bool) {A B} (m : M State A)
  (k : A -> M State B) (s : State) :
  WellBehaved lax b1 m s ->
  (forall a s1, m s = Return a s1 -> Advances false s s1 ->
                WellBehaved lax b2 (k a) s1) ->
  WellBehaved lax false (bind m k) s.
Proof.
  intros Hm Hk. apply (WellBehaved_weaken (b1 || b2)).
  apply WellBehaved_bind; [exact Hm |].
  intros a s1 E Hadv. apply (Hk a s1 E). exact (Advances_weaken _ _ _ Hadv).
Qed.

Lemma WellBehaved_bind_first {A B} (b2 : bool) (m : M State A)
  (k : A -> M State B) (s : State) :
  WellBehaved lax true m s ->
  (forall a s1, m s = Return a s1 -> Advances true s s1 ->
                WellBehaved lax b2 (k a) s1) ->
  WellBehaved lax true (bind m k) s.
Proof. intros Hm Hk. exact (WellBehaved_bind true b2 m k s Hm Hk). Qed.

Lemma WellBehaved_bind_then {A B} (b1 : bool) (m : M State A)
  (k : A -> M State B) (s : State) :
  WellBehaved lax b1 m s ->
  (forall a s1, m s = Return a s1 -> Advances false s s1 ->
                WellBehaved lax true (k a) s1) ->
  WellBehaved lax true (bind m k) s.
Proof.
  intros Hm Hk.
  assert (H : WellBehaved lax (b1 || true) (bind m k) s).
  { apply WellBehaved_bind; [exact Hm |].
    intros a s1 E Hadv. apply (Hk a s1 E). exact (Advances_weaken _ _ _ Hadv). }
  rewrite orb_true_r in H. exact H.
Qed.

Lemma Fuelled_advances (strict : bool) (slack fuel : nat) (s s1 : State) :
  Advances strict s s1 -> Fuelled lax slack fuel s -> Fuelled lax slack fuel s1.
Proof.
  intros [H _] [Hn | Hn]; [left; exact Hn | right].
  destruct strict; simpl in H; lia.
Qed.

Lemma Fuelled_step (slack fuel : nat) (s s1 : State) :
  Advances true s s1 -> Fuelled lax slack (S fuel) s -> Fuelled lax slack fuel s1.
Proof.
  intros [H _] [Hn | Hn]; [left; exact Hn | right]. simpl in H. lia.
Qed.

Lemma Fuelled_inner (slack fuel : nat) (s : State) :
  Fuelled lax (S slack) (S fuel) s -> Fuelled lax slack fuel s.
Proof. intros [Hn | Hn]; [left; exact Hn | right; lia]. Qed.

Lemma Fuelled_slack (slack fuel : nat) (s : State) :
  Fuelled lax (S slack) fuel s -> Fuelled lax slack fuel s.
Proof. intros [Hn | Hn]; [left; exact Hn | right; lia]. Qed.

Lemma WellBehaved_out_of_fuel (strict : bool) {A} (slack : nat) (s : State) :
  Fuelled lax slack 0 s -> WellBehaved lax strict (out_of_fuel (A := A)) s.
Proof. intros [Hn | Hn]; [exact Hn | lia]. Qed.

Lemma getRawUntil_scripted (breaker : ascii) (s : State) :
  exists raw l1,
    getRawUntil (TS := ScriptedSource) breaker s = Return raw (primed l1)
    /\ length l1 <= length (_lexer s : list Lexeme)
    /\ (NoEndInside (_lexer s) -> NoEndInside l1).
Proof.
  destruct s as [l t]. unfold getRawUntil, bind, onLexer. simpl.
  destruct l as [| [t1 | raw] l]; simpl.
  - exists EmptyString, []. repeat split; auto.
  - exists EmptyString, (LexTok t1 :: l). repeat split; auto.
  - exists raw, l.
    destruct (script_nextToken_total l) as [t2 [r E]].
    unfold primed, stateAt, setCurrentToken, ret. rewrite E. simpl.
    repeat split; [lia |]. intros H. inversion H; assumption.
Qed.

Lemma WellBehaved_getRawUntil (breaker : ascii) (s : State) :
  WellBehaved lax false (getRawUntil (TS := ScriptedSource) breaker) s.
Proof.
  unfold WellBehaved.
  destruct (getRawUntil_scripted breaker s) as [raw [l1 [E [Hlen Hend]]]].
  rewrite E. split.
  - simpl. pose proof (remaining_primed l1). unfold remaining at 2. lia.
  - intros [H _]. apply EndMeansExhausted_primed. apply Hend. exact H.
Qed.

(** *** Each function of the parser is well behaved *)

Lemma WellBehaved_parsePureType_X (tokens : list TokenType) (s : State) :
  WellBehaved lax false (parsePureType_X (TS := ScriptedSource) tokens) s.
Proof.
  induction tokens as [| token tokens IH]; cbn [parsePureType_X].
  - apply WellBehaved_match_any.
  - apply WellBehaved_currentToken.
    destruct (type (_currentToken s) =?t token);
      [apply WellBehaved_match_any | exact IH].
Qed.

Lemma WellBehaved_parseType_loop (fuel : nat) :
  forall (pointerDepth : Z) (s : State),
    Fuelled lax 0 fuel s ->
    WellBehaved lax false (parseType_loop (TS := ScriptedSource) fuel pointerDepth) s.
Proof.
  induction fuel as [| fuel IH]; intros pointerDepth s Hs;
    [exact (WellBehaved_out_of_fuel _ _ _ Hs) |].
  cbn [parseType_loop]. apply WellBehaved_currentToken.
  destruct (type (_currentToken s) =?t TT_STAR).
  - apply (WellBehaved_weaken true). apply (WellBehaved_bind_first false).
    + apply WellBehaved_match. discriminate.
    + intros _ s1 _ H1. unfold int_increment.
      destruct (pointerDepth <? INT_MAX)%Z; [| exact I].
      change (WellBehaved lax false
                (parseType_loop (TS := ScriptedSource) fuel (pointerDepth + 1)%Z)
                s1).
      apply IH. exact (Fuelled_step _ _ _ _ H1 Hs).
  - apply WellBehaved_ret.
Qed.

Lemma WellBehaved_parseType (fuel : nat) (s : State) :
  Fuelled lax 0 fuel s ->
  WellBehaved lax false (parseType (TS := ScriptedSource) fuel) s.
Proof.
  intros Hs. unfold parseType.
  apply (WellBehaved_bind_any false false).
  - apply WellBehaved_parsePureType_X.
  - intros pureType s1 _ H1. apply (WellBehaved_bind_any false false).
    + apply WellBehaved_parseType_loop.
      exact (Fuelled_advances _ _ _ _ _ H1 Hs).
    + intros d s2 _ _. apply WellBehaved_ret.
Qed.

Lemma WellBehaved_parseSingleParam (fuel : nat) (s : State) :
  Fuelled lax 0 fuel s ->
  WellBehaved lax false (parseSingleParam (TS := ScriptedSource) fuel) s.
Proof.
  intros Hs. unfold parseSingleParam.
  apply (WellBehaved_bind_any false false).
  - apply WellBehaved_parseType. exact Hs.
  - intros ty s1 _ _. apply WellBehaved_currentToken.
    apply (WellBehaved_bind_any false false).
    + destruct (type (_currentToken s1) =?t TT_IDENT);
        [apply WellBehaved_match_any | apply WellBehaved_ret].
    + intros name s2 _ _. apply WellBehaved_ret.
Qed.

Lemma WellBehaved_forbiddenStep (sep : TokenType) (mode : TrailingSeparator)
  (B : TokenType) (s : State) :
  WellBehaved lax false (forbiddenStep (TS := ScriptedSource) sep mode B) s.
Proof.
  unfold forbiddenStep.
  destruct (negb (B =?t TT_NONE)
            && TrailingSeparator_eqb mode TRAILING_FORBIDDEN).
  - apply WellBehaved_currentToken. apply WellBehaved_USER_ASSERT.
  - apply WellBehaved_ret.
Qed.

(** The separator step either breaks out of the loop where it stands,
    or consumes the separator and continues, or throws. *)
Lemma separatorStep_cases (sep : TokenType) (mode : TrailingSeparator)
  (s : State) :
  sep <> TT_NONE -> sep <> TT_END ->
  match separatorStep (TS := ScriptedSource) sep mode s with
  | Return Continue s' => Advances true s s'
  | Return Break s' => s' = s
  | Throw e => Positioned e
  | OutOfBounds => False
  | OutOfFuel => False
  end.
Proof.
  intros Hnone Hend. unfold separatorStep.
  rewrite (TokenType_eqb_neq _ _ Hnone). simpl.
  unfold bind at 1. unfold currentToken at 1.
  destruct (type (_currentToken s) =?t sep) eqn:E.
  - apply TokenType_eqb_eq in E. destruct s as [l t]. simpl in E.
    unfold bind. change (mkParser l t) with (stateAt t l).
    rewrite (match_scripted sep t l E). unfold ret.
    apply (Advances_nextToken_strict (stateAt t l)). simpl. congruence.
  - destruct (TrailingSeparator_eqb mode TRAILING_REQUIRED).
    + left. eexists. eexists. reflexivity.
    + reflexivity.
Qed.

Lemma WellBehaved_parseSeparatedList_loop {T : Type} (sep : TokenType)
  (mode : TrailingSeparator) (B : TokenType) (pe : M State T) (n : nat) :
  sep <> TT_NONE -> sep <> TT_END ->
  (forall s, Fuelled lax 0 n s -> WellBehaved lax false pe s) ->
  forall (fuel : nat) (acc : list T) (s : State),
    Fuelled lax 0 fuel s -> Fuelled lax 0 n s ->
    WellBehaved lax false
      (parseSeparatedList_loop (TS := ScriptedSource) sep mode B pe fuel acc) s.
Proof.
  intros Hnone Hend Hpe.
  induction fuel as [| fuel IH]; intros acc s Hs Hn;
    [exact (WellBehaved_out_of_fuel _ _ _ Hs) |].
  cbn [parseSeparatedList_loop]. apply WellBehaved_currentToken.
  destruct ((B =?t TT_NONE) || negb (type (_currentToken s) =?t B)).
  - apply (WellBehaved_bind_any false false).
    + apply Hpe. exact Hn.
    + intros e s1 _ H1.
      pose proof (separatorStep_cases sep mode s1 Hnone Hend) as Hsep.
      unfold WellBehaved, bind.
      destruct (separatorStep sep mode s1) as [[|] s2 | err | |];
        try contradiction.
      * assert (Hloop : WellBehaved lax false
                  (bind (forbiddenStep sep mode B)
                     (fun _ => parseSeparatedList_loop sep mode B pe fuel
                                 (acc ++ [e]))) s2).
        { apply (WellBehaved_bind_any false false).
          - apply WellBehaved_forbiddenStep.
          - intros _ s3 _ H3. apply IH.
            + exact (Fuelled_advances _ _ _ _ _ H3
                       (Fuelled_step _ _ _ _ Hsep
                          (Fuelled_advances _ _ _ _ _ H1 Hs))).
            + exact (Fuelled_advances _ _ _ _ _ H3
                       (Fuelled_advances _ _ _ _ _ Hsep
                          (Fuelled_advances _ _ _ _ _ H1 Hn))). }
        unfold WellBehaved, bind in Hloop.
        destruct (forbiddenStep sep mode B s2) as [u s3 | err | |];
          try exact Hloop.
        destruct (parseSeparatedList_loop sep mode B pe fuel (acc ++ [e]) s3)
          as [r s4 | err | |]; try exact Hloop.
        exact (Advances_weaken _ _ _
                 (Advances_trans true false s1 s2 s4 Hsep Hloop)).
      * subst s2. apply Advances_refl.
      * exact Hsep.
  - apply WellBehaved_ret.
Qed.

Lemma WellBehaved_parseSeparatedList {T : Type} (sep : TokenType)
  (mode : TrailingSeparator) (B : TokenType) (pe : M State T) (fuel : nat)
  (s : State) :
  sep <> TT_NONE -> sep <> TT_END ->
  (forall s1, Fuelled lax 0 fuel s1 -> WellBehaved lax false pe s1) ->
  Fuelled lax 0 fuel s ->
  WellBehaved lax false
    (parseSeparatedList (TS := ScriptedSource) sep mode B pe fuel) s.
Proof.
  intros Hnone Hend Hpe Hs. unfold parseSeparatedList.
  apply (WellBehaved_parseSeparatedList_loop sep mode B pe fuel);
    assumption.
Qed.

Lemma WellBehaved_parseFunctionParams (fuel : nat) (s : State) :
  Fuelled lax 0 fuel s ->
  WellBehaved lax true (parseFunctionParams (TS := ScriptedSource) fuel) s.
Proof.
  intros Hs. unfold parseFunctionParams.
  apply (WellBehaved_bind_first false).
  - apply WellBehaved_match. discriminate.
  - intros _ s1 _ H1. apply (WellBehaved_bind_any false false).
    + apply WellBehaved_parseSeparatedList; try discriminate.
      * intros s2 H2. apply WellBehaved_parseSingleParam. exact H2.
      * exact (Fuelled_advances _ _ _ _ _ H1 Hs).
    + intros ps s2 _ _. apply (WellBehaved_bind_any false false).
      * apply WellBehaved_match_any.
      * intros _ s3 _ _. apply WellBehaved_ret.
Qed.

Lemma WellBehaved_parseRawSingleStringLiteral (s : State) :
  WellBehaved lax true (parseRawSingleStringLiteral (TS := ScriptedSource)) s.
Proof.
  unfold parseRawSingleStringLiteral. apply WellBehaved_currentToken.
  apply (WellBehaved_bind_then false).
  - apply WellBehaved_USER_ASSERT.
  - intros _ s1 _ _. apply (WellBehaved_bind_then false).
    + apply WellBehaved_getRawUntil.
    + intros raw s2 _ _. apply (WellBehaved_bind_first false).
      * apply WellBehaved_match. discriminate.
      * intros _ s3 _ _. apply WellBehaved_ret.
Qed.

Lemma WellBehaved_callStrToReg (name : string) (s : State) :
  WellBehaved lax false (callStrToReg (TS := ScriptedSource) name) s.
Proof.
  unfold callStrToReg, WellBehaved.
  destruct (strToReg name) as [e | r] eqn:E.
  - unfold throw. right. exists name. exact E.
  - apply Advances_refl.
Qed.

Lemma WellBehaved_string_view_at (raw : string) (pos : nat) (s : State) :
  WellBehaved lax false (string_view_at (S := State) raw pos) s.
Proof.
  unfold string_view_at, WellBehaved.
  destruct (String.get pos raw); [apply Advances_refl | exact I].
Qed.

Lemma WellBehaved_parseRegisterName (s : State) :
  WellBehaved lax true (parseRegisterName (TS := ScriptedSource)) s.
Proof.
  unfold parseRegisterName. apply (WellBehaved_bind_first false).
  - apply WellBehaved_parseRawSingleStringLiteral.
  - intros raw s1 _ _. apply (WellBehaved_bind_any false false).
    + apply WellBehaved_string_view_at.
    + intros c s2 _ _. apply WellBehaved_currentToken.
      apply (WellBehaved_bind_any false false).
      * apply WellBehaved_USER_ASSERT.
      * intros _ s3 _ _. apply WellBehaved_callStrToReg.
Qed.

Lemma WellBehaved_parseStringLiteral_loop (fuel : nat) :
  forall (literals : list string) (s : State),
    Fuelled lax 0 fuel s ->
    WellBehaved lax false
      (parseStringLiteral_loop (TS := ScriptedSource) fuel literals) s.
Proof.
  induction fuel as [| fuel IH]; intros literals s Hs;
    [exact (WellBehaved_out_of_fuel _ _ _ Hs) |].
  cbn [parseStringLiteral_loop]. apply WellBehaved_currentToken.
  destruct (type (_currentToken s) =?t TT_DOUBLE_QUOTE).
  - apply (WellBehaved_weaken true). apply (WellBehaved_bind_first false).
    + apply WellBehaved_parseRawSingleStringLiteral.
    + intros lit s1 _ H1. apply IH. exact (Fuelled_step _ _ _ _ H1 Hs).
  - apply WellBehaved_ret.
Qed.

Lemma WellBehaved_parseStringLiteral (fuel : nat) (s : State) :
  Fuelled lax 0 fuel s ->
  WellBehaved lax false (parseStringLiteral (TS := ScriptedSource) fuel) s.
Proof.
  intros Hs. unfold parseStringLiteral.
  apply (WellBehaved_bind_any false false).
  - apply WellBehaved_parseStringLiteral_loop. exact Hs.
  - intros literals s1 _ _. apply WellBehaved_currentToken.
    apply (WellBehaved_bind_any false false).
    + destruct literals;
        [apply WellBehaved_USER_THROW | apply WellBehaved_ret].
    + intros _ s2 _ _. apply WellBehaved_ret.
Qed.

Lemma WellBehaved_parseNumberLiteral (s : State) :
  WellBehaved lax true (parseNumberLiteral (TS := ScriptedSource)) s.
Proof.
  unfold parseNumberLiteral. apply (WellBehaved_bind_first false).
  - apply WellBehaved_match. discriminate.
  - intros v s1 _ _. apply WellBehaved_ret.
Qed.

Lemma WellBehaved_parseExpression (s : State) :
  WellBehaved lax true (parseExpression (TS := ScriptedSource)) s.
Proof.
  unfold parseExpression. apply WellBehaved_currentToken.
  destruct (type (_currentToken s) =?t TT_IDENT).
  - apply (WellBehaved_bind_first false).
    + apply WellBehaved_match. discriminate.
    + intros v s1 _ _. apply WellBehaved_ret.
  - apply (WellBehaved_bind_first false).
    + apply WellBehaved_parseNumberLiteral.
    + intros v s1 _ _. apply WellBehaved_ret.
Qed.

Lemma WellBehaved_parseReturnStatement (s : State) :
  WellBehaved lax true (parseReturnStatement (TS := ScriptedSource)) s.
Proof.
  unfold parseReturnStatement. apply (WellBehaved_bind_first false).
  - apply WellBehaved_match. discriminate.
  - intros _ s1 _ _. apply (WellBehaved_bind_any true false).
    + apply WellBehaved_parseExpression.
    + intros e s2 _ _. apply WellBehaved_ret.
Qed.

Lemma WellBehaved_parseBindingRequest (s : State) :
  WellBehaved lax true (parseBindingRequest (TS := ScriptedSource)) s.
Proof.
  unfold parseBindingRequest. apply (WellBehaved_bind_first false).
  - apply WellBehaved_parseRegisterName.
  - intros r s1 _ _. apply (WellBehaved_bind_any false false).
    + apply WellBehaved_match_any.
    + intros _ s2 _ _. apply (WellBehaved_bind_any false false).
      * apply WellBehaved_match_any.
      * intros ident s3 _ _. apply (WellBehaved_bind_any false false).
        -- apply WellBehaved_match_any.
        -- intros _ s4 _ _. apply WellBehaved_ret.
Qed.

Lemma WellBehaved_parseInlineAsmStatement (fuel : nat) (s : State) :
  Fuelled lax 0 fuel s ->
  WellBehaved lax true (parseInlineAsmStatement (TS := ScriptedSource) fuel) s.
Proof.
  intros Hs. unfold parseInlineAsmStatement.
  apply (WellBehaved_bind_first false).
  - apply WellBehaved_match. discriminate.
  - intros _ s1 _ H1. apply (WellBehaved_bind_any false false).
    + apply WellBehaved_match_any.
    + intros _ s2 _ H2.
      pose proof (Fuelled_advances _ _ _ _ _ H2
                    (Fuelled_advances _ _ _ _ _ H1 Hs)) as Hs2.
      apply (WellBehaved_bind_any false false).
      * apply WellBehaved_parseStringLiteral. exact Hs2.
      * intros asmBlock s3 _ H3.
        pose proof (Fuelled_advances _ _ _ _ _ H3 Hs2) as Hs3.
        apply WellBehaved_currentToken.
        apply (WellBehaved_bind_any false false).
        -- destruct (type (_currentToken s3) =?t TT_COLON).
           ++ apply (WellBehaved_bind_any false false).
              ** apply WellBehaved_match_any.
              ** intros _ s4 _ H4.
                 apply WellBehaved_parseSeparatedList; try discriminate.
                 --- intros s5 _. apply (WellBehaved_weaken true).
                     apply WellBehaved_parseBindingRequest.
                 --- exact (Fuelled_advances _ _ _ _ _ H4 Hs3).
           ++ apply WellBehaved_ret.
        -- intros requests s4 _ _. apply (WellBehaved_bind_any false false).
           ++ apply WellBehaved_match_any.
           ++ intros _ s5 _ _. apply WellBehaved_ret.
Qed.

Lemma WellBehaved_parseDeclaration (fuel : nat) (s : State) :
  Fuelled lax 0 fuel s ->
  WellBehaved lax true (parseDeclaration (TS := ScriptedSource) fuel) s.
Proof.
  intros Hs. unfold parseDeclaration. apply (WellBehaved_bind_then false).
  - apply WellBehaved_parseType. exact Hs.
  - intros ty s1 _ _. apply (WellBehaved_bind_first false).
    + apply WellBehaved_match. discriminate.
    + intros name s2 _ _. apply WellBehaved_currentToken.
      destruct (type (_currentToken s2) =?t TT_EQUAL).
      * apply (WellBehaved_bind_any false false).
        -- apply WellBehaved_match_any.
        -- intros _ s3 _ _. apply (WellBehaved_bind_any true false).
           ++ apply WellBehaved_parseExpression.
           ++ intros e s4 _ _. apply WellBehaved_ret.
      * apply WellBehaved_ret.
Qed.

Lemma WellBehaved_parseSingleInstruction (fuel : nat) (s : State) :
  Fuelled lax 0 fuel s ->
  WellBehaved lax true (parseSingleInstruction (TS := ScriptedSource) fuel) s.
Proof.
  intros Hs. unfold parseSingleInstruction. apply WellBehaved_currentToken.
  destruct (type (_currentToken s) =?t TT_K_RETURN).
  { apply (WellBehaved_bind_first false).
    - apply WellBehaved_parseReturnStatement.
    - intros i s1 _ _. apply WellBehaved_ret. }
  destruct (type (_currentToken s) =?t TT_K_ASM).
  { apply (WellBehaved_bind_first false).
    - apply WellBehaved_parseInlineAsmStatement. exact Hs.
    - intros i s1 _ _. apply WellBehaved_ret. }
  destruct (isPureTypeToken (type (_currentToken s))).
  { apply (WellBehaved_bind_first false).
    - apply WellBehaved_parseDeclaration. exact Hs.
    - intros i s1 _ _. apply WellBehaved_ret. }
  apply WellBehaved_USER_THROW.
Qed.

Lemma WellBehaved_parseFunctionCall_loop (fuel : nat) :
  forall (arguments : list Expression) (s : State),
    Fuelled lax 0 fuel s ->
    WellBehaved lax false
      (parseFunctionCall_loop (TS := ScriptedSource) fuel arguments) s.
Proof.
  induction fuel as [| fuel IH]; intros arguments s Hs;
    [exact (WellBehaved_out_of_fuel _ _ _ Hs) |].
  cbn [parseFunctionCall_loop]. apply WellBehaved_currentToken.
  destruct (negb (type (_currentToken s) =?t TT_RPAR)).
  - apply (WellBehaved_weaken true). apply (WellBehaved_bind_first false).
    + apply WellBehaved_parseExpression.
    + intros e s1 _ H1.
      apply (WellBehaved_bind_any false false).
      * apply WellBehaved_match_any.
      * intros _ s2 _ H2. apply IH.
        exact (Fuelled_advances _ _ _ _ _ H2 (Fuelled_step _ _ _ _ H1 Hs)).
  - apply WellBehaved_ret.
Qed.

Lemma WellBehaved_parseFunctionCall (fuel : nat) (s : State) :
  Fuelled lax 0 fuel s ->
  WellBehaved lax true (parseFunctionCall (TS := ScriptedSource) fuel) s.
Proof.
  intros Hs. unfold parseFunctionCall. apply (WellBehaved_bind_first false).
  - apply WellBehaved_match. discriminate.
  - intros name s1 _ H1. apply (WellBehaved_bind_any false false).
    + apply WellBehaved_match_any.
    + intros _ s2 _ H2. apply (WellBehaved_bind_any false false).
      * apply WellBehaved_parseFunctionCall_loop.
        exact (Fuelled_advances _ _ _ _ _ H2
                 (Fuelled_advances _ _ _ _ _ H1 Hs)).
      * intros args s3 _ _. apply (WellBehaved_bind_any false false).
        -- apply WellBehaved_match_any.
        -- intros _ s4 _ _. apply WellBehaved_ret.
Qed.

Lemma WellBehaved_parseCodeBlock (fuel : nat) (s : State) :
  Fuelled lax 0 fuel s ->
  WellBehaved lax true (parseCodeBlock (TS := ScriptedSource) fuel) s.
Proof.
  intros Hs. unfold parseCodeBlock. apply (WellBehaved_bind_first false).
  - apply WellBehaved_match. discriminate.
  - intros _ s1 _ H1. apply (WellBehaved_bind_any false false).
    + apply WellBehaved_parseSeparatedList; try discriminate.
      * intros s2 H2. apply (WellBehaved_weaken true).
        apply WellBehaved_parseSingleInstruction. exact H2.
      * exact (Fuelled_advances _ _ _ _ _ H1 Hs).
    + intros instrs s2 _ _. apply (WellBehaved_bind_any false false).
      * apply WellBehaved_match_any.
      * intros _ s3 _ _. apply WellBehaved_ret.
Qed.

Lemma WellBehaved_parseFunction (fuel : nat) (s : State) :
  Fuelled lax 0 fuel s ->
  WellBehaved lax true (parseFunction (TS := ScriptedSource) fuel) s.
Proof.
  intros Hs. unfold parseFunction. apply (WellBehaved_bind_then false).
  - apply WellBehaved_parseType. exact Hs.
  - intros ty s1 _ H1. pose proof (Fuelled_advances _ _ _ _ _ H1 Hs) as Hs1.
    apply (WellBehaved_bind_first false).
    + apply WellBehaved_match. discriminate.
    + intros name s2 _ H2.
      pose proof (Fuelled_advances _ _ _ _ _ H2 Hs1) as Hs2.
      apply (WellBehaved_bind_any true false).
      * apply WellBehaved_parseFunctionParams. exact Hs2.
      * intros ps s3 _ H3.
        pose proof (Fuelled_advances _ _ _ _ _ H3 Hs2) as Hs3.
        apply (WellBehaved_bind_any true false).
        -- apply WellBehaved_parseCodeBlock. exact Hs3.
        -- intros body s4 _ _. apply WellBehaved_ret.
Qed.

Lemma WellBehaved_parseClass_loop (fuel : nat) :
  forall (ms : MethodList) (ats : AttributeList) (s : State),
    Fuelled lax 1 fuel s ->
    WellBehaved lax false
      (parseClass_loop (TS := ScriptedSource) fuel ms ats) s.
Proof.
  induction fuel as [| fuel IH]; intros ms ats s Hs;
    [exact (WellBehaved_out_of_fuel _ _ _ Hs) |].
  pose proof (Fuelled_inner _ _ _ Hs) as Hin.
  cbn [parseClass_loop]. apply WellBehaved_currentToken.
  destruct (negb (type (_currentToken s) =?t TT_RCURL));
    [| apply WellBehaved_ret].
  apply (WellBehaved_bind_any false false).
  { apply WellBehaved_parseType. exact Hin. }
  intros ty s1 _ H1. apply (WellBehaved_bind_any true false).
  { apply WellBehaved_match. discriminate. }
  intros name s2 E2 H2.
  assert (H2s : Advances true s1 s2).
  { pose proof (WellBehaved_match TT_IDENT s1) as Hm.
    unfold WellBehaved in Hm. rewrite E2 in Hm. apply Hm. discriminate. }
  assert (Hs2 : Fuelled lax 1 fuel s2).
  { exact (Fuelled_step _ _ _ _ H2s (Fuelled_advances _ _ _ _ _ H1 Hs)). }
  assert (Hin2 : Fuelled lax 0 fuel s2).
  { exact (Fuelled_advances _ _ _ _ _ H2 (Fuelled_advances _ _ _ _ _ H1 Hin)). }
  apply WellBehaved_currentToken.
  destruct (type (_currentToken s2) =?t TT_LPAR).
  - apply (WellBehaved_bind_any true false).
    { apply WellBehaved_parseFunctionParams. exact Hin2. }
    intros ps s3 _ H3. apply (WellBehaved_bind_any true false).
    { apply WellBehaved_parseCodeBlock.
      exact (Fuelled_advances _ _ _ _ _ H3 Hin2). }
    intros body s4 _ H4. apply IH.
    exact (Fuelled_advances _ _ _ _ _ H4 (Fuelled_advances _ _ _ _ _ H3 Hs2)).
  - apply (WellBehaved_bind_any false false).
    { apply WellBehaved_match_any. }
    intros _ s3 _ H3. apply IH. exact (Fuelled_advances _ _ _ _ _ H3 Hs2).
Qed.

Lemma WellBehaved_parseClass (fuel : nat) (s : State) :
  Fuelled lax 1 fuel s ->
  WellBehaved lax true (parseClass (TS := ScriptedSource) fuel) s.
Proof.
  intros Hs. unfold parseClass. apply (WellBehaved_bind_first false).
  { apply WellBehaved_match. discriminate. }
  intros _ s1 _ H1. apply (WellBehaved_bind_any false false).
  { apply WellBehaved_match_any. }
  intros name s2 _ H2. apply (WellBehaved_bind_any false false).
  { apply WellBehaved_match_any. }
  intros _ s3 _ H3. apply (WellBehaved_bind_any false false).
  { apply WellBehaved_parseClass_loop.
    exact (Fuelled_advances _ _ _ _ _ H3
             (Fuelled_advances _ _ _ _ _ H2
                (Fuelled_advances _ _ _ _ _ H1 Hs))). }
  intros members s4 _ _. apply (WellBehaved_bind_any false false).
  { apply WellBehaved_match_any. }
  intros _ s5 _ _. apply (WellBehaved_bind_any false false).
  { apply WellBehaved_match_any. }
  intros _ s6 _ _. apply WellBehaved_ret.
Qed.

Lemma WellBehaved_parseTranslationUnit_loop (fuel : nat) :
  forall (funcList : list Function) (classList : list Class_) (s : State),
    Fuelled lax 2 fuel s ->
    WellBehaved lax false
      (parseTranslationUnit_loop (TS := ScriptedSource) fuel funcList
         classList) s.
Proof.
  induction fuel as [| fuel IH]; intros funcList classList s Hs;
    [exact (WellBehaved_out_of_fuel _ _ _ Hs) |].
  pose proof (Fuelled_inner _ _ _ Hs) as Hin.
  cbn [parseTranslationUnit_loop]. apply WellBehaved_currentToken.
  destruct (negb (type (_currentToken s) =?t TT_END));
    [| apply WellBehaved_ret].
  destruct (type (_currentToken s) =?t TT_K_CLASS).
  - apply (WellBehaved_weaken true). apply (WellBehaved_bind_first false).
    { apply WellBehaved_parseClass. exact Hin. }
    intros c s1 _ H1. apply IH. exact (Fuelled_step _ _ _ _ H1 Hs).
  - apply (WellBehaved_weaken true). apply (WellBehaved_bind_first false).
    { apply WellBehaved_parseFunction. exact (Fuelled_slack _ _ _ Hin). }
    intros f s1 _ H1. apply IH. exact (Fuelled_step _ _ _ _ H1 Hs).
Qed.

Lemma WellBehaved_parseTranslationUnit (fuel : nat) (s : State) :
  Fuelled lax 2 fuel (primed (_lexer s)) ->
  match parseTranslationUnit (TS := ScriptedSource) fuel s with
  | Return _ s' =>
    NoEndInside (_lexer s) ->
    (_lexer s' : list Lexeme) = [] /\ _currentToken s' = endToken
  | Throw e => Positioned e
  | OutOfBounds => True
  | OutOfFuel => lax = true
  end.
Proof.
  intros Hs. unfold parseTranslationUnit. unfold bind at 1.
  rewrite nextToken_primed.
  pose proof (WellBehaved_parseTranslationUnit_loop fuel [] []
                (primed (_lexer s)) Hs) as Hloop.
  unfold WellBehaved in Hloop. unfold bind at 1.
  destruct (parseTranslationUnit_loop fuel [] [] (primed (_lexer s)))
    as [lists s1 | e | |]; try exact Hloop.
  destruct Hloop as [_ Hend].
  destruct s1 as [l1 t1]. unfold bind.
  destruct (TokenType_eq_dec (type t1) TT_END) as [E | E].
  - change (mkParser l1 t1) with (stateAt t1 l1).
    rewrite (match_scripted TT_END t1 l1 E). unfold ret.
    intros Hno. specialize (Hend (EndMeansExhausted_primed _ Hno)).
    destruct Hend as [_ Hl1]. simpl in Hl1. rewrite (Hl1 E).
    split; reflexivity.
  - unfold match_, bind, currentToken, USER_ASSERT. simpl.
    rewrite (TokenType_eqb_neq _ _ E). simpl.
    left. eexists. eexists. reflexivity.
Qed.

End Progress.

(** X1: the parser terminates on every finite input.  Over a script of
    [n] lexemes, [parseTranslationUnit] with more than [n + 2] units of
    fuel never runs out of fuel in any of its loops: every turn of every
    loop consumes a token or ends the loop. *)
Theorem parseTranslationUnit_terminates :
  forall (Ext : Externals) (fuel : nat) (l : list Lexeme) (t0 : Token),
    length l + 2 < fuel ->
    parseTranslationUnit (TS := ScriptedSource) fuel (stateAt t0 l)
    <> OutOfFuel.
Proof.
  intros Ext fuel l t0 Hfuel E.
  pose proof (WellBehaved_parseTranslationUnit false fuel (stateAt t0 l)) as H.
  rewrite E in H. simpl in H.
  assert (false = true); [| discriminate].
  apply H. right. pose proof (remaining_primed l). lia.
Qed.

(** X2: every error that [parseTranslationUnit] throws over a scripted
    source is a user-facing error that carries a source position, or is
    the error that [strToReg] threw for a register name; the parser
    itself throws no internal error and no error without a position. *)
Theorem parseTranslationUnit_errors_positioned :
  forall (Ext : Externals) (fuel : nat) (l : list Lexeme) (t0 : Token)
         (e : Error),
    parseTranslationUnit (TS := ScriptedSource) fuel (stateAt t0 l) = Throw e ->
    (exists msg p, e = UserError msg (Some p))
    \/ (exists name, strToReg name = inl e).
Proof.
  intros Ext fuel l t0 e E.
  pose proof (WellBehaved_parseTranslationUnit true fuel (stateAt t0 l)) as H.
  rewrite E in H. apply H. left. reflexivity.
Qed.

(** X3: when [parseTranslationUnit] returns, it has read the whole
    input: over a script that holds no [TT_END] token of its own, the
    script is exhausted and the current token is the end of input. *)
Theorem parseTranslationUnit_consumes_input :
  forall (Ext : Externals) (fuel : nat) (l : list Lexeme) (t0 : Token)
         (tu : TranslationUnit) (s' : @Parser ScriptedSource),
    NoEndInside l ->
    parseTranslationUnit (TS := ScriptedSource) fuel (stateAt t0 l)
    = Return tu s' ->
    s' = stateAt endToken [].
Proof.
  intros Ext fuel l t0 tu s' Hno E.
  pose proof (WellBehaved_parseTranslationUnit true fuel (stateAt t0 l)) as H.
  rewrite E in H. destruct H as [Hl Ht]; [left; reflexivity | exact Hno |].
  destruct s' as [l' t']. simpl in Hl, Ht. subst. reflexivity.
Qed.

(** *** The parser leaves every description slot unset *)

Section Undecorated.
Context `{TS : TokenSource} `{Ext : Externals}.

(** Splits a [bind] that returned into its two halves. *)
Ltac bind_inv H :=
  let a := fresh "a" in
  let s := fresh "s" in
  let E := fresh "E" in
  apply bind_Return_inv in H; destruct H as [a [s [E H]]].

Ltac ret_inv H := unfold ret in H; inversion H; subst; clear H.

Lemma parseType_undecorated (fuel : nat) (s s' : Parser) (t : Type_) :
  parseType fuel s = Return t s' -> UndecoratedType t.
Proof.
  unfold parseType. intros H. bind_inv H. bind_inv H. ret_inv H. reflexivity.
Qed.

Lemma parseExpression_undecorated (s s' : Parser) (e : Expression) :
  parseExpression s = Return e s' -> UndecoratedExpression e.
Proof.
  unfold parseExpression. intros H. bind_inv H.
  destruct (type a =?t TT_IDENT).
  - bind_inv H. ret_inv H. reflexivity.
  - bind_inv H. ret_inv H. exact I.
Qed.

Lemma parseSingleParam_undecorated (fuel : nat) (s s' : Parser)
  (p : FunctionParameter) :
  parseSingleParam fuel s = Return p s' -> UndecoratedParameter p.
Proof.
  unfold parseSingleParam. intros H. bind_inv H. bind_inv H. bind_inv H.
  ret_inv H. exact (parseType_undecorated _ _ _ _ E).
Qed.

Lemma parseDeclaration_undecorated (fuel : nat) (s s' : Parser)
  (d : Declaration) :
  parseDeclaration fuel s = Return d s' ->
  UndecoratedInstruction (Instruction_Declaration d).
Proof.
  unfold parseDeclaration. intros H. bind_inv H. bind_inv H. bind_inv H.
  pose proof (parseType_undecorated _ _ _ _ E) as Ht.
  destruct (type a1 =?t TT_EQUAL).
  - bind_inv H. bind_inv H. ret_inv H. simpl.
    repeat split; [exact Ht | exact (parseExpression_undecorated _ _ _ E3)].
  - ret_inv H. simpl. repeat split. exact Ht.
Qed.

Lemma parseSingleInstruction_undecorated (fuel : nat) (s s' : Parser)
  (i : Instruction) :
  parseSingleInstruction fuel s = Return i s' -> UndecoratedInstruction i.
Proof.
  unfold parseSingleInstruction. intros H. bind_inv H.
  destruct (type a =?t TT_K_RETURN).
  { bind_inv H. ret_inv H. simpl.
    unfold parseReturnStatement in E0. bind_inv E0. bind_inv E0. ret_inv E0.
    exact (parseExpression_undecorated _ _ _ E2). }
  destruct (type a =?t TT_K_ASM).
  { bind_inv H. ret_inv H. exact I. }
  destruct (isPureTypeToken (type a)).
  { bind_inv H. ret_inv H. exact (parseDeclaration_undecorated _ _ _ _ E0). }
  discriminate H.
Qed.

(** The list parser returns only what its element parser has built. *)
Lemma parseSeparatedList_loop_Forall {T : Type} (Q : T -> Prop)
  (sep : TokenType) (mode : TrailingSeparator) (B : TokenType) (pe : P T) :
  (forall s v s', pe s = Return v s' -> Q v) ->
  forall (fuel : nat) (acc : list T) (s s' : Parser) (vs : list T),
    Forall Q acc ->
    parseSeparatedList_loop sep mode B pe fuel acc s = Return vs s' ->
    Forall Q vs.
Proof.
  intros Hpe. induction fuel as [| fuel IH]; intros acc s s' vs Hacc H.
  - discriminate H.
  - cbn [parseSeparatedList_loop] in H. bind_inv H.
    destruct ((B =?t TT_NONE) || negb (type a =?t B)).
    + bind_inv H. bind_inv H.
      assert (Hacc' : Forall Q (acc ++ [a0])).
      { apply Forall_app. split; [exact Hacc |].
        constructor; [exact (Hpe _ _ _ E0) | constructor]. }
      destruct a1.
      * bind_inv H. exact (IH _ _ _ _ Hacc' H).
      * ret_inv H. exact Hacc'.
    + ret_inv H. exact Hacc.
Qed.

Lemma parseFunctionParams_undecorated (fuel : nat) (s s' : Parser)
  (ps : FunctionParameterList) :
  parseFunctionParams fuel s = Return ps s' -> UndecoratedParameters ps.
Proof.
  unfold parseFunctionParams. intros H. bind_inv H. bind_inv H. bind_inv H.
  ret_inv H. unfold UndecoratedParameters. simpl.
  unfold parseSeparatedList in E0.
  apply (parseSeparatedList_loop_Forall UndecoratedParameter) in E0.
  - exact E0.
  - intros s2 v s3. apply parseSingleParam_undecorated.
  - constructor.
Qed.

Lemma parseCodeBlock_undecorated (fuel : nat) (s s' : Parser)
  (b : InstructionList) :
  parseCodeBlock fuel s = Return b s' -> UndecoratedBody b.
Proof.
  unfold parseCodeBlock. intros H. bind_inv H. bind_inv H. bind_inv H.
  ret_inv H. unfold UndecoratedBody. simpl.
  unfold parseSeparatedList in E0.
  apply (parseSeparatedList_loop_Forall UndecoratedInstruction) in E0.
  - exact E0.
  - intros s2 v s3. apply parseSingleInstruction_undecorated.
  - constructor.
Qed.

Lemma parseFunction_undecorated (fuel : nat) (s s' : Parser) (f : Function) :
  parseFunction fuel s = Return f s' -> UndecoratedFunction f.
Proof.
  unfold parseFunction. intros H. bind_inv H. bind_inv H. bind_inv H.
  bind_inv H. ret_inv H. unfold UndecoratedFunction, newFunction. simpl.
  repeat split.
  - exact (parseType_undecorated _ _ _ _ E).
  - exact (parseFunctionParams_undecorated _ _ _ _ E1).
  - exact (parseCodeBlock_undecorated _ _ _ _ E2).
Qed.

Lemma parseClass_loop_undecorated (fuel : nat) :
  forall (ms : MethodList) (ats : AttributeList) (s s' : Parser)
         (ms' : MethodList) (ats' : AttributeList),
    Forall (fun m => UndecoratedMethod (fst m)) ms ->
    Forall (fun a => UndecoratedType (Attribute_type (fst a))) ats ->
    parseClass_loop fuel ms ats s = Return (ms', ats') s' ->
    Forall (fun m => UndecoratedMethod (fst m)) ms'
    /\ Forall (fun a => UndecoratedType (Attribute_type (fst a))) ats'.
Proof.
  induction fuel as [| fuel IH]; intros ms ats s s' ms' ats' Hms Hats H.
  - discriminate H.
  - cbn [parseClass_loop] in H. bind_inv H.
    destruct (negb (type a =?t TT_RCURL)).
    + bind_inv H. bind_inv H. bind_inv H.
      pose proof (parseType_undecorated _ _ _ _ E0) as Ht.
      destruct (type a2 =?t TT_LPAR).
      * bind_inv H. bind_inv H. apply IH in H; [exact H | | exact Hats].
        apply Forall_app. split; [exact Hms |].
        constructor; [| constructor]. simpl. repeat split.
        -- exact Ht.
        -- exact (parseFunctionParams_undecorated _ _ _ _ E3).
        -- exact (parseCodeBlock_undecorated _ _ _ _ E4).
      * bind_inv H. apply IH in H; [exact H | exact Hms |].
        apply Forall_app. split; [exact Hats |].
        constructor; [exact Ht | constructor].
    + ret_inv H. split; assumption.
Qed.

Lemma parseClass_undecorated (fuel : nat) (s s' : Parser) (c : Class_) :
  parseClass fuel s = Return c s' -> UndecoratedClass c.
Proof.
  unfold parseClass. intros H. bind_inv H. bind_inv H. bind_inv H.
  bind_inv H. bind_inv H. bind_inv H. ret_inv H.
  destruct a2 as [ms ats]. unfold UndecoratedClass. simpl.
  apply parseClass_loop_undecorated in E2; [| constructor | constructor].
  destruct E2 as [Hms Hats]. split; assumption.
Qed.

Lemma parseTranslationUnit_loop_undecorated (fuel : nat) :
  forall (fs : list Function) (cs : list Class_) (s s' : Parser)
         (fs' : list Function) (cs' : list Class_),
    Forall UndecoratedFunction fs -> Forall UndecoratedClass cs ->
    parseTranslationUnit_loop fuel fs cs s = Return (fs', cs') s' ->
    Forall UndecoratedFunction fs' /\ Forall UndecoratedClass cs'.
Proof.
  induction fuel as [| fuel IH]; intros fs cs s s' fs' cs' Hfs Hcs H.
  - discriminate H.
  - cbn [parseTranslationUnit_loop] in H. bind_inv H.
    destruct (negb (type a =?t TT_END)).
    + destruct (type a =?t TT_K_CLASS).
      * bind_inv H. apply IH in H; [exact H | exact Hfs |].
        apply Forall_app. split; [exact Hcs |].
        constructor; [exact (parseClass_undecorated _ _ _ _ E0) | constructor].
      * bind_inv H. apply IH in H; [exact H | | exact Hcs].
        apply Forall_app. split; [exact Hfs |].
        constructor; [exact (parseFunction_undecorated _ _ _ _ E0)
                     | constructor].
    + ret_inv H. split; assumption.
Qed.

(** X4: a translation unit fresh from the parser is undecorated: every
    Type and Variable node in it, and every Function, has its
    description slot unset, so that the description getters throw their
    internal error on each of them until decoration has run. *)
Theorem parseTranslationUnit_undecorated :
  forall (fuel : nat) (s s' : Parser) (tu : TranslationUnit),
    parseTranslationUnit fuel s = Return tu s' ->
    UndecoratedUnit tu
    /\ (forall (f : Function) (G : Type) (g : G),
          In f (functions tu) ->
          getTypeDescription (Function_returnType f) g
          = Throw (InternalError [Txt "TypeDescription not set"])
          /\ (forall p, In p (parameters (Function_params f)) ->
                FunctionParameter_getTypeDescription p g
                = Throw (InternalError [Txt "TypeDescription not set"]))).
Proof.
  intros fuel s s' tu H.
  assert (Hu : UndecoratedUnit tu).
  { unfold parseTranslationUnit in H. bind_inv H. bind_inv H. bind_inv H.
    ret_inv H. destruct a0 as [fs cs]. unfold UndecoratedUnit. simpl.
    apply parseTranslationUnit_loop_undecorated in E0;
      [exact E0 | constructor | constructor]. }
  split; [exact Hu |].
  intros f G g Hin. destruct Hu as [Hfs _].
  rewrite Forall_forall in Hfs. destruct (Hfs f Hin) as [Hret [Hps _]].
  split.
  - unfold getTypeDescription. rewrite Hret. reflexivity.
  - intros p Hp. unfold UndecoratedParameters in Hps.
    rewrite Forall_forall in Hps. specialize (Hps p Hp).
    unfold FunctionParameter_getTypeDescription, getTypeDescription.
    rewrite Hps. reflexivity.
Qed.

End Undecorated.

(** *** Types *)

Section TypeProperties.
Context `{Ext : Externals}.

#[local] Notation "'State'" := (@Parser ScriptedSource).

Lemma parsePureType_X_name (tokens : list TokenType) (s : State) :
  In (type (_currentToken s)) tokens \/ type (_currentToken s) = TT_IDENT ->
  parsePureType_X tokens s = match_ (type (_currentToken s)) s.
Proof.
  induction tokens as [| token tokens IH]; intros H.
  - destruct H as [[] | H]. cbn [parsePureType_X]. rewrite H. reflexivity.
  - cbn [parsePureType_X]. unfold bind at 1. unfold currentToken at 1.
    destruct (type (_currentToken s) =?t token) eqn:E.
    + apply TokenType_eqb_eq in E. rewrite <- E. reflexivity.
    + apply IH. destruct H as [[H | H] | H].
      * apply TokenType_eqb_false in E. congruence.
      * left. exact H.
      * right. exact H.
Qed.

Lemma parseType_loop_stars (stars : list Token) :
  Forall (fun star => type star = TT_STAR) stars ->
  forall (fuel : nat) (depth : Z) (next : Token) (rest : list Lexeme),
    type next <> TT_STAR ->
    (depth + Z.of_nat (length stars) <= INT_MAX)%Z ->
    parseType_loop (TS := ScriptedSource) (length stars + S fuel) depth
      (primed (toks stars ++ LexTok next :: rest))
    = Return (depth + Z.of_nat (length stars))%Z (stateAt next rest).
Proof.
  induction stars as [| star stars IH];
    intros Hstars fuel depth next rest Hnext Hmax.
  - simpl. rewrite primed_token. unfold bind, currentToken.
    cbn [_currentToken stateAt]. rewrite (TokenType_eqb_neq _ _ Hnext).
    rewrite Z.add_0_r. reflexivity.
  - inversion Hstars as [| x l' Hstar Hrest]; subst.
    simpl toks. simpl app. rewrite primed_token.
    simpl length. simpl Nat.add. cbn [parseType_loop].
    unfold bind at 1. unfold currentToken at 1. cbn [_currentToken stateAt].
    rewrite Hstar, TokenType_eqb_refl.
    unfold bind. rewrite (match_scripted TT_STAR star _ Hstar).
    simpl length in Hmax. unfold int_increment.
    assert (Hlt : (depth <? INT_MAX)%Z = true) by (apply Z.ltb_lt; lia).
    rewrite Hlt. unfold ret. fold (toks stars).
    assert (Hmax' : (depth + 1 + Z.of_nat (length stars) <= INT_MAX)%Z) by lia.
    rewrite (IH Hrest fuel _ next rest Hnext Hmax').
    f_equal. lia.
Qed.

(** A well-formed type is read up to the token behind its stars. *)
Lemma parseType_syntax (fuel : nat) (t : TypeSyntax) (next : Token)
  (rest : list Lexeme) :
  WellFormedType t -> type next <> TT_STAR -> length (ts_stars t) < fuel ->
  parseType (TS := ScriptedSource) fuel
    (stateAt (ts_name t) (toks (ts_stars t) ++ LexTok next :: rest))
  = Return (typeOf t) (stateAt next rest).
Proof.
  intros [Hname [Hstars Hmax]] Hnext Hfuel.
  replace fuel with (length (ts_stars t) + S (fuel - length (ts_stars t) - 1))
    by lia.
  unfold parseType, parsePureType. unfold bind at 1.
  rewrite parsePureType_X_name by exact Hname.
  cbn [_currentToken stateAt].
  rewrite (match_scripted (type (ts_name t)) (ts_name t) _ eq_refl).
  unfold bind.
  rewrite (parseType_loop_stars _ Hstars _ 0%Z next rest Hnext Hmax).
  reflexivity.
Qed.

Lemma fullName_typeOf (t : TypeSyntax) :
  fullName (typeOf t)
  = Some (value (ts_name t)
          ++ string_of_copies (length (ts_stars t)) "*")%string.
Proof.
  unfold fullName, typeOf, newType. simpl.
  assert (H : (0 <=? Z.of_nat (length (ts_stars t)))%Z = true)
    by (apply Z.leb_le; lia).
  rewrite H, Nat2Z.id. reflexivity.
Qed.

(** X5: [parseType] reads a primitive-type keyword or an identifier
    followed by stars, no more of them than [INT_MAX]: the node it
    returns carries the text of the name token and a pointer depth
    equal to the number of stars, it stops at the first token that is
    no star, and the node's [fullName] is the name followed by that
    many stars. *)
Theorem parseType_counts_stars :
  forall (fuel : nat) (t : TypeSyntax) (next : Token) (rest : list Lexeme),
    WellFormedType t -> type next <> TT_STAR -> length (ts_stars t) < fuel ->
    parseType (TS := ScriptedSource) fuel
      (stateAt (ts_name t) (toks (ts_stars t) ++ LexTok next :: rest))
    = Return (newType (value (ts_name t)) (Z.of_nat (length (ts_stars t))))
        (stateAt next rest)
    /\ fullName (newType (value (ts_name t)) (Z.of_nat (length (ts_stars t))))
       = Some (value (ts_name t)
               ++ string_of_copies (length (ts_stars t)) "*")%string.
Proof.
  intros fuel t next rest Hwf Hnext Hfuel. split.
  - exact (parseType_syntax fuel t next rest Hwf Hnext Hfuel).
  - exact (fullName_typeOf t).
Qed.

(** X6: a type cannot begin with a token that is neither a
    primitive-type keyword nor an identifier: [parseType] then throws
    the user-facing error of [match(TT_IDENT)] at that token, whatever
    the token source. *)
Theorem parseType_rejects_other_tokens :
  forall (TS : TokenSource) (fuel : nat) (s : Parser),
    ~ In (type (_currentToken s)) PURE_TYPES_TOKEN_LIST ->
    type (_currentToken s) <> TT_IDENT ->
    parseType fuel s
    = Throw (UserError
               [Txt "Unexpected token type=["; Typ (type (_currentToken s));
                Txt "] for value=["; Val (value (_currentToken s));
                Txt "] expected=["; Typ TT_IDENT; Txt "]"]
               (Some (position (_currentToken s)))).
Proof.
  intros TS fuel s Hpure Hident.
  unfold parseType, parsePureType. unfold bind at 1.
  assert (E : parsePureType_X PURE_TYPES_TOKEN_LIST s = match_ TT_IDENT s).
  { generalize PURE_TYPES_TOKEN_LIST Hpure. intros tokens.
    induction tokens as [| token tokens IH]; intros H.
    - reflexivity.
    - cbn [parsePureType_X]. unfold bind at 1. unfold currentToken at 1.
      rewrite TokenType_eqb_neq.
      + apply IH. intros Hin. apply H. right. exact Hin.
      + intros E. apply H. left. symmetry. exact E. }
  rewrite E. unfold match_, bind, currentToken, USER_ASSERT.
  rewrite (TokenType_eqb_neq _ _ Hident). reflexivity.
Qed.

End TypeProperties.

(** *** Expressions *)

Section ExpressionProperties.
Context `{Ext : Externals}.

Lemma parseExpression_token (t : Token) (l : list Lexeme) :
  isExpressionToken t ->
  parseExpression (TS := ScriptedSource) (stateAt t l)
  = Return (expressionOf t) (primed l).
Proof.
  intros H. unfold parseExpression, expressionOf.
  unfold bind at 1. unfold currentToken at 1. cbn [_currentToken stateAt].
  destruct (type t =?t TT_IDENT) eqn:E.
  - apply TokenType_eqb_eq in E. unfold bind.
    rewrite (match_scripted TT_IDENT t l E). reflexivity.
  - destruct H as [H | H]; [rewrite H in E; discriminate E |].
    unfold parseNumberLiteral, bind.
    rewrite (match_scripted TT_NUMBER t l H). reflexivity.
Qed.

(** X7: [parseExpression] reads exactly one token.  An identifier gives
    a Variable node with the identifier's text, a number gives a
    NumberLiteral with the value [readNumber] finds in its text, and any
    other token is refused with the user-facing error of
    [match(TT_NUMBER)] at that token. *)
Theorem parseExpression_one_token :
  forall (t : Token) (l : list Lexeme),
    (type t = TT_IDENT ->
     parseExpression (TS := ScriptedSource) (stateAt t l)
     = Return (Expression_Variable (newVariable (value t))) (primed l))
    /\ (type t = TT_NUMBER ->
        parseExpression (TS := ScriptedSource) (stateAt t l)
        = Return (Expression_NumberLiteral
                    (mkNumberLiteral (readNumber (value t)))) (primed l))
    /\ (type t <> TT_IDENT -> type t <> TT_NUMBER ->
        parseExpression (TS := ScriptedSource) (stateAt t l)
        = Throw (UserError
                   [Txt "Unexpected token type=["; Typ (type t);
                    Txt "] for value=["; Val (value t);
                    Txt "] expected=["; Typ TT_NUMBER; Txt "]"]
                   (Some (position t)))).
Proof.
  intros t l. repeat split.
  - intros H. rewrite parseExpression_token by (left; exact H).
    unfold expressionOf. rewrite H. reflexivity.
  - intros H. rewrite parseExpression_token by (right; exact H).
    unfold expressionOf. rewrite H. reflexivity.
  - intros Hi Hn. destruct t as [ty v p]. simpl in Hi, Hn.
    destruct ty; try congruence; reflexivity.
Qed.

End ExpressionProperties.

(** *** Function parameters *)

Section ParameterListProperties.
Context `{Ext : Externals}.

Lemma toks_app (a b : list Token) : toks (a ++ b) = toks a ++ toks b.
Proof. unfold toks. apply map_app. Qed.

(** [parseSingleParam] reads a well-formed parameter, named or not. *)
Lemma parseSingleParam_syntax (fuel : nat) (p : ParamSyntax) :
  ParamFits fuel p ->
  ReadsElement TT_COMMA TT_RPAR (parseSingleParam (TS := ScriptedSource) fuel)
    (paramElement p).
Proof.
  intros [[Hty [Hrpar Hname]] Hfuel]. split; [exact Hrpar |].
  intros t rest Ht. unfold paramElement, paramOf. cbn [el_head el_tail el_value].
  rewrite toks_app, <- app_assoc. unfold parseSingleParam. unfold bind at 1.
  destruct (par_name p) as [n |]; simpl optionTokens; simpl toks; simpl app.
  - rewrite (parseType_syntax fuel (par_type p) n _ Hty);
      [| rewrite Hname; discriminate | exact Hfuel].
    unfold bind at 1. unfold currentToken at 1. cbn [_currentToken stateAt].
    rewrite Hname, TokenType_eqb_refl. unfold bind.
    rewrite (match_scripted TT_IDENT n _ Hname). reflexivity.
  - rewrite (parseType_syntax fuel (par_type p) t _ Hty);
      [| destruct Ht as [Ht | Ht]; rewrite Ht; discriminate | exact Hfuel].
    unfold bind at 1. unfold currentToken at 1. cbn [_currentToken stateAt].
    rewrite TokenType_eqb_neq
      by (destruct Ht as [Ht | Ht]; rewrite Ht; discriminate).
    reflexivity.
Qed.

Lemma paramItems_read (fuel : nat) (items : list (ParamSyntax * Token)) :
  Forall (ParamItemFits fuel) items ->
  Forall (ReadsItem TT_COMMA TT_RPAR (parseSingleParam (TS := ScriptedSource) fuel))
    (paramItems items).
Proof.
  intros H. unfold paramItems. apply Forall_map.
  eapply Forall_impl; [| exact H].
  intros [p c] [Hp Hc]. split; [apply parseSingleParam_syntax; exact Hp | exact Hc].
Qed.

(** A parenthesised parameter list, empty or not. *)
Lemma parseFunctionParams_syntax :
  forall (fuel : nat) (lpar rpar : Token) (ps : ParamListSyntax)
         (rest : list Lexeme),
    type lpar = TT_LPAR -> type rpar = TT_RPAR -> ParamListFits fuel ps ->
    parseFunctionParams (TS := ScriptedSource) fuel
      (stateAt lpar (paramListLexemes ps ++ LexTok rpar :: rest))
    = Return (paramListOf ps) (primed rest).
Proof.
  intros fuel lpar rpar ps rest Hlpar Hrpar Hfits.
  unfold parseFunctionParams. unfold bind at 1.
  rewrite (match_scripted TT_LPAR lpar _ Hlpar). unfold bind at 1.
  destruct ps as [| items last]; simpl paramListLexemes.
  - simpl in Hfits. destruct fuel as [| fuel]; [lia |].
    simpl app. rewrite primed_token. unfold parseSeparatedList.
    rewrite (loop_at_breaker TT_COMMA TT_RPAR _ ltac:(discriminate)
               TRAILING_FORBIDDEN fuel [] rpar rest Hrpar).
    unfold bind. rewrite (match_scripted TT_RPAR rpar _ Hrpar). reflexivity.
  - destruct Hfits as [Hitems [Hlast Hfuel]].
    rewrite <- app_assoc.
    change (separated (paramItems items)
            ++ el_lexemes (paramElement last) ++ LexTok rpar :: rest)
      with (withoutTrailing (paramItems items) (paramElement last) rpar rest).
    rewrite (loop_without_trailing TT_COMMA TT_RPAR
               (parseSingleParam (TS := ScriptedSource) fuel));
      try discriminate.
    + unfold bind. rewrite (match_scripted TT_RPAR rpar _ Hrpar). reflexivity.
    + apply paramItems_read. exact Hitems.
    + apply parseSingleParam_syntax. exact Hlast.
    + exact Hrpar.
    + unfold paramItems. rewrite length_map. exact Hfuel.
Qed.


(** X8: [parseFunctionParams] reads a parenthesised parameter list.
    The empty list [()] gives no parameters; parameters separated by
    commas, each a type with at most [INT_MAX] stars and an optional
    name, are returned in order, an unnamed one with the empty name; and
    the parser stops behind the closing parenthesis. *)
Theorem parseFunctionParams_reads :
  forall (fuel : nat) (lpar rpar : Token) (ps : ParamListSyntax)
         (rest : list Lexeme),
    type lpar = TT_LPAR -> type rpar = TT_RPAR -> ParamListFits fuel ps ->
    parseFunctionParams (TS := ScriptedSource) fuel
      (stateAt lpar (paramListLexemes ps ++ LexTok rpar :: rest))
    = Return (paramListOf ps) (primed rest).
Proof.
  intros fuel lpar rpar ps rest. apply parseFunctionParams_syntax.
Qed.

End ParameterListProperties.

(** *** Declarations and blocks *)

Section StatementSyntaxProperties.
Context `{Ext : Externals}.

Lemma parseDeclaration_syntax (fuel : nat) (d : DeclSyntax) (next : Token)
  (rest : list Lexeme) :
  WellFormedDecl d -> length (ts_stars (decl_type d)) < fuel ->
  (decl_init d = None -> type next <> TT_EQUAL) ->
  parseDeclaration (TS := ScriptedSource) fuel
    (stateAt (ts_name (decl_type d)) (toks (declTail d) ++ LexTok next :: rest))
  = Return (declOf d) (stateAt next rest).
Proof.
  intros [Hty [Hname Hinit]] Hfuel Hnext.
  unfold declTail, declOf. rewrite toks_app, <- app_assoc.
  unfold parseDeclaration. unfold bind at 1.
  simpl toks. simpl app.
  rewrite (parseType_syntax fuel (decl_type d) (decl_name d) _ Hty);
    [| rewrite Hname; discriminate | exact Hfuel].
  unfold bind at 1. rewrite (match_scripted TT_IDENT (decl_name d) _ Hname).
  destruct (decl_init d) as [[eq e] |].
  - destruct Hinit as [Heq He]. simpl map. simpl app. rewrite primed_token.
    unfold bind at 1. unfold currentToken at 1. cbn [_currentToken stateAt].
    rewrite Heq, TokenType_eqb_refl.
    unfold bind at 1. rewrite (match_scripted TT_EQUAL eq _ Heq).
    rewrite primed_token. unfold bind.
    rewrite (parseExpression_token e _ He). reflexivity.
  - simpl map. simpl app. rewrite primed_token.
    unfold bind, currentToken. cbn [_currentToken stateAt].
    rewrite (TokenType_eqb_neq _ _ (Hnext eq_refl)). reflexivity.
Qed.

(** X9: [parseDeclaration] reads a type with its stars, at most
    [INT_MAX] of them, and the name of the variable; when an equals sign
    follows it also reads the one-token initialiser and records it,
    otherwise it stops behind the name and records no initialiser. *)
Theorem parseDeclaration_reads :
  forall (fuel : nat) (t : TypeSyntax) (name eq e next : Token)
         (rest : list Lexeme),
    WellFormedType t -> length (ts_stars t) < fuel -> type name = TT_IDENT ->
    (type next <> TT_EQUAL ->
     parseDeclaration (TS := ScriptedSource) fuel
       (stateAt (ts_name t) (toks (ts_stars t ++ [name]) ++ LexTok next :: rest))
     = Return (mkDeclaration (typeOf t) (newVariable (value name)) None)
         (stateAt next rest))
    /\ (type eq = TT_EQUAL -> isExpressionToken e ->
        parseDeclaration (TS := ScriptedSource) fuel
          (stateAt (ts_name t)
             (toks (ts_stars t ++ [name; eq; e]) ++ LexTok next :: rest))
        = Return (mkDeclaration (typeOf t) (newVariable (value name))
                    (Some (expressionOf e)))
            (stateAt next rest)).
Proof.
  intros fuel t name eq e next rest Hty Hfuel Hname. split.
  - intros Hnext.
    apply (parseDeclaration_syntax fuel (mkDeclSyntax t name None) next rest).
    + split; [exact Hty | split; [exact Hname | exact I]].
    + exact Hfuel.
    + intros _. exact Hnext.
  - intros Heq He.
    apply (parseDeclaration_syntax fuel (mkDeclSyntax t name (Some (eq, e)))
             next rest).
    + split; [exact Hty | split; [exact Hname | split; assumption]].
    + exact Hfuel.
    + discriminate.
Qed.

(** [parseSingleInstruction] reads a well-formed return statement or
    declaration statement. *)
Lemma parseSingleInstruction_syntax (fuel : nat) (st : StatementSyntax) :
  WellFormedStatement st -> statementStars st < fuel ->
  ReadsElement TT_SEMI TT_RCURL
    (parseSingleInstruction (TS := ScriptedSource) fuel) (statementElement st).
Proof.
  intros Hwf Hfuel. destruct st as [r e | d].
  - destruct Hwf as [Hr He]. split; [simpl; rewrite Hr; discriminate |].
    intros t rest _. simpl. unfold parseSingleInstruction.
    unfold bind at 1. unfold currentToken at 1. cbn [_currentToken stateAt].
    rewrite Hr. rewrite TokenType_eqb_refl.
    unfold parseReturnStatement. unfold bind at 1. unfold bind at 1.
    rewrite (match_scripted TT_K_RETURN r _ Hr). rewrite primed_token.
    unfold bind at 1. rewrite (parseExpression_token e _ He).
    reflexivity.
  - destruct Hwf as [Hd [Hpure [Hret [Hasm Hrcurl]]]].
    split; [exact Hrcurl |].
    intros t rest Ht. simpl. unfold parseSingleInstruction.
    unfold bind at 1. unfold currentToken at 1. cbn [_currentToken stateAt].
    rewrite (TokenType_eqb_neq _ _ Hret), (TokenType_eqb_neq _ _ Hasm).
    rewrite (proj2 (isPureTypeToken_In _) Hpure).
    unfold bind. rewrite (parseDeclaration_syntax fuel d t rest Hd Hfuel).
    + reflexivity.
    + intros _. destruct Ht as [Ht | Ht]; rewrite Ht; discriminate.
Qed.

Lemma statementItems_read (fuel : nat) (items : list (StatementSyntax * Token)) :
  Forall (StatementItemFits fuel) items ->
  Forall (ReadsItem TT_SEMI TT_RCURL
            (parseSingleInstruction (TS := ScriptedSource) fuel))
    (statementItems items).
Proof.
  intros H. unfold statementItems. apply Forall_map.
  eapply Forall_impl; [| exact H].
  intros [st c] [Hwf [Hfuel Hc]].
  split; [apply parseSingleInstruction_syntax; assumption | exact Hc].
Qed.

Lemma parseCodeBlock_syntax (fuel : nat) (lcurl rcurl : Token)
  (items : list (StatementSyntax * Token)) (rest : list Lexeme) :
  type lcurl = TT_LCURL -> type rcurl = TT_RCURL ->
  Forall (StatementItemFits fuel) items -> length items < fuel ->
  parseCodeBlock (TS := ScriptedSource) fuel
    (stateAt lcurl (separated (statementItems items) ++ LexTok rcurl :: rest))
  = Return (mkInstructionList (values (statementItems items))) (primed rest).
Proof.
  intros Hl Hr Hitems Hfuel.
  unfold parseCodeBlock. unfold bind at 1.
  rewrite (match_scripted TT_LCURL lcurl _ Hl). unfold bind at 1.
  unfold parseSeparatedList.
  replace fuel with (length (statementItems items)
                     + S (fuel - length items - 1))
    by (unfold statementItems; rewrite length_map; lia).
  rewrite (loop_prefix TT_SEMI TT_RCURL
             (parseSingleInstruction (TS := ScriptedSource) _)
             ltac:(discriminate) ltac:(discriminate) ltac:(discriminate)
             TRAILING_REQUIRED).
  - rewrite (loop_at_breaker TT_SEMI TT_RCURL _ ltac:(discriminate)
               TRAILING_REQUIRED _ _ rcurl rest Hr).
    unfold bind. rewrite (match_scripted TT_RCURL rcurl _ Hr). reflexivity.
  - replace (length (statementItems items) + S (fuel - length items - 1))
      with fuel by (unfold statementItems; rewrite length_map; lia).
    apply statementItems_read. exact Hitems.
  - discriminate.
Qed.

(** X10: [parseCodeBlock] reads a block of return and declaration
    statements, no declared type with more than [INT_MAX] stars.  When every statement is followed by a semicolon, the
    last one included, it returns their instructions in order ([{}]
    gives none) and stops behind the closing brace; when the last
    statement lacks its semicolon it throws the user-facing error
    "Expected trailing" at the closing brace. *)
Theorem parseCodeBlock_reads :
  forall (fuel : nat) (lcurl rcurl : Token)
         (items : list (StatementSyntax * Token)) (last : StatementSyntax)
         (rest : list Lexeme),
    type lcurl = TT_LCURL -> type rcurl = TT_RCURL ->
    Forall (StatementItemFits fuel) items -> S (length items) < fuel ->
    parseCodeBlock (TS := ScriptedSource) fuel
      (stateAt lcurl (separated (statementItems items) ++ LexTok rcurl :: rest))
    = Return (mkInstructionList (map (fun item => statementOf (fst item)) items))
        (primed rest)
    /\ (WellFormedStatement last -> statementStars last < fuel ->
        parseCodeBlock (TS := ScriptedSource) fuel
          (stateAt lcurl
             (withoutTrailing (statementItems items) (statementElement last)
                rcurl rest))
        = Throw (UserError [Txt "Expected trailing "; Typ TT_SEMI]
                   (Some (position rcurl)))).
Proof.
  intros fuel lcurl rcurl items last rest Hl Hr Hitems Hfuel. split.
  - rewrite (parseCodeBlock_syntax fuel lcurl rcurl items rest Hl Hr Hitems)
      by lia.
    unfold values, statementItems. rewrite map_map. simpl.
    f_equal. f_equal. apply map_ext. intros [st c]. destruct st; reflexivity.
  - intros Hlast Hstars.
    unfold parseCodeBlock. unfold bind at 1.
    rewrite (match_scripted TT_LCURL lcurl _ Hl). unfold bind at 1.
    rewrite (loop_without_trailing TT_SEMI TT_RCURL
               (parseSingleInstruction (TS := ScriptedSource) fuel));
      try discriminate.
    + reflexivity.
    + apply statementItems_read. exact Hitems.
    + apply parseSingleInstruction_syntax; assumption.
    + exact Hr.
    + unfold statementItems. rewrite length_map. exact Hfuel.
Qed.

End StatementSyntaxProperties.

(** *** Functions, classes and whole translation units *)

Section UnitProperties.
Context `{Ext : Externals}.

Lemma values_statementItems (items : list (StatementSyntax * Token)) :
  values (statementItems items)
  = map (fun item => statementOf (fst item)) items.
Proof.
  unfold values, statementItems. rewrite map_map. apply map_ext.
  intros [st c]. destruct st; reflexivity.
Qed.

(** The parameters and the body of a function, from its opening
    parenthesis on. *)
Lemma parseFunction_params_body (fuel : nat) (f : FunctionSyntax)
  (rest : list Lexeme) :
  FunctionFits fuel f ->
  bind (parseFunctionParams (TS := ScriptedSource) fuel)
    (fun ps => bind (parseCodeBlock fuel) (fun body => ret (ps, body)))
    (stateAt (fn_lpar f)
       (paramListLexemes (fn_params f)
        ++ LexTok (fn_rpar f) :: LexTok (fn_lcurl f)
        :: separated (statementItems (fn_body f))
        ++ LexTok (fn_rcurl f) :: rest))
  = Return (paramListOf (fn_params f), bodyOf f) (primed rest).
Proof.
  intros [_ [_ [_ [Hlpar [Hps [Hrpar [Hlcurl [Hbody [Hlen Hrcurl]]]]]]]]].
  unfold bind at 1.
  rewrite (parseFunctionParams_syntax fuel (fn_lpar f) (fn_rpar f)
             (fn_params f) _ Hlpar Hrpar Hps).
  rewrite primed_token. unfold bind.
  rewrite (parseCodeBlock_syntax fuel (fn_lcurl f) (fn_rcurl f) (fn_body f)
             rest Hlcurl Hrcurl Hbody Hlen).
  rewrite values_statementItems. reflexivity.
Qed.

Lemma parseFunction_syntax (fuel : nat) (f : FunctionSyntax)
  (rest : list Lexeme) :
  FunctionFits fuel f ->
  parseFunction (TS := ScriptedSource) fuel (primed (functionLexemes f rest))
  = Return (functionOf f) (primed rest).
Proof.
  intros Hf. pose proof (parseFunction_params_body fuel f rest Hf) as Hpb.
  destruct Hf as [Hty [Hstars [Hname [Hlpar _]]]].
  unfold functionLexemes, functionTail. rewrite primed_token.
  unfold parseFunction. unfold bind at 1.
  rewrite (parseType_syntax fuel (fn_type f) (fn_name f) _ Hty);
    [| rewrite Hname; discriminate | exact Hstars].
  unfold bind at 1. rewrite (match_scripted TT_IDENT (fn_name f) _ Hname).
  rewrite primed_token.
  unfold bind in Hpb |- *.
  destruct (parseFunctionParams fuel _) as [ps s1 | | |]; try discriminate Hpb.
  destruct (parseCodeBlock fuel s1) as [body s2 | | |]; try discriminate Hpb.
  unfold ret in Hpb |- *. inversion Hpb; subst. reflexivity.
Qed.









End UnitProperties.

(** *** Inline assembly *)

Section InlineAsmProperties.
Context `{Ext : Externals}.

Lemma parseRegisterName_scripted (q1 q2 t : Token) (name : string)
  (rest : list Lexeme) :
  type q1 = TT_DOUBLE_QUOTE -> type q2 = TT_DOUBLE_QUOTE ->
  parseRegisterName (TS := ScriptedSource)
    (stateAt q1 (LexRaw (String "=" name) :: LexTok q2 :: LexTok t :: rest))
  = callStrToReg name (stateAt t rest).
Proof.
  intros H1 H2. destruct q1 as [ty1 v1 p1], q2 as [ty2 v2 p2].
  simpl in H1, H2. subst ty1 ty2.
  unfold parseRegisterName, parseRawSingleStringLiteral, getRawUntil, match_,
    nextToken, bind, currentToken, onLexer, setCurrentToken,
    USER_ASSERT, string_view_at, ret, stateAt.
  simpl. rewrite string_view_substr_1. reflexivity.
Qed.

(** X14: [parseBindingRequest] reads a binding written as the quoted
    register name with its leading equals sign and the variable in
    parentheses.  When [strToReg] knows the name, the request pairs the
    register with the variable's text; when it does not, the error of
    [strToReg] is what the parser throws. *)
Theorem parseBindingRequest_reads :
  forall (q1 q2 lpar ident rpar t : Token) (name : string)
         (rest : list Lexeme),
    type q1 = TT_DOUBLE_QUOTE -> type q2 = TT_DOUBLE_QUOTE ->
    type lpar = TT_LPAR -> type ident = TT_IDENT -> type rpar = TT_RPAR ->
    parseBindingRequest (TS := ScriptedSource)
      (stateAt q1 (LexRaw (String "=" name)
                   :: toks [q2; lpar; ident; rpar] ++ LexTok t :: rest))
    = match strToReg name with
      | inr r => Return (mkBindingRequest r (value ident)) (stateAt t rest)
      | inl e => Throw e
      end.
Proof.
  intros q1 q2 lpar ident rpar t name rest H1 H2 Hl Hi Hr.
  simpl toks. simpl app. unfold parseBindingRequest. unfold bind at 1.
  rewrite (parseRegisterName_scripted q1 q2 lpar name _ H1 H2).
  unfold callStrToReg. destruct (strToReg name) as [e | r]; [reflexivity |].
  unfold ret at 1. unfold bind at 1.
  rewrite (match_scripted TT_LPAR lpar _ Hl). rewrite primed_token.
  unfold bind at 1. rewrite (match_scripted TT_IDENT ident _ Hi).
  rewrite primed_token. unfold bind.
  rewrite (match_scripted TT_RPAR rpar _ Hr). reflexivity.
Qed.

Lemma parseBindingRequest_syntax (b : BindingSyntax) :
  WellFormedBinding b ->
  ReadsElement TT_COMMA TT_RPAR (parseBindingRequest (TS := ScriptedSource))
    (bindingElement b).
Proof.
  intros [H1 [H2 [Hl [Hi [Hr Hreg]]]]].
  split; [simpl; rewrite H1; discriminate |].
  intros t rest _. simpl el_head. simpl el_tail. simpl el_value.
  simpl toks. simpl app. unfold parseBindingRequest. unfold bind at 1.
  rewrite (parseRegisterName_scripted _ _ (bd_lpar b) _ _ H1 H2).
  unfold callStrToReg. rewrite Hreg.
  unfold ret at 1. unfold bind at 1.
  rewrite (match_scripted TT_LPAR _ _ Hl). rewrite primed_token.
  unfold bind at 1. rewrite (match_scripted TT_IDENT _ _ Hi).
  rewrite primed_token. unfold bind.
  rewrite (match_scripted TT_RPAR _ _ Hr). reflexivity.
Qed.

Lemma bindingItems_read (items : list (BindingSyntax * Token)) :
  Forall BindingItemFits items ->
  Forall (ReadsItem TT_COMMA TT_RPAR
            (parseBindingRequest (TS := ScriptedSource)))
    (bindingItems items).
Proof.
  intros H. unfold bindingItems. apply Forall_map.
  eapply Forall_impl; [| exact H].
  intros [b c] [Hb Hc]. split; [apply parseBindingRequest_syntax; exact Hb | exact Hc].
Qed.

(** The statement up to the token behind the assembly text. *)
Lemma parseInlineAsm_head (fuel : nat) (asm lpar next : Token)
  (ps : list LiteralPiece) (rest : list Lexeme)
  (k : StringLiteral -> M (@Parser ScriptedSource) InlineAsmStatement) :
  type asm = TT_K_ASM -> type lpar = TT_LPAR ->
  ps <> [] -> Forall wellQuoted ps -> length ps < fuel ->
  type next <> TT_DOUBLE_QUOTE ->
  bind (match_ (TS := ScriptedSource) TT_K_ASM)
    (fun _ => bind (match_ TT_LPAR)
                (fun _ => bind (parseStringLiteral fuel) k))
    (stateAt asm (LexTok lpar :: pieces_lexemes ps ++ LexTok next :: rest))
  = k (mkStringLiteral (concatenation ps)) (stateAt next rest).
Proof.
  intros Ha Hl Hne Hps Hfuel Hnext.
  unfold bind at 1. rewrite (match_scripted TT_K_ASM asm _ Ha).
  rewrite primed_token. unfold bind at 1.
  rewrite (match_scripted TT_LPAR lpar _ Hl). unfold bind.
  rewrite (parseStringLiteral_pieces fuel ps next rest Hne Hps Hnext Hfuel).
  reflexivity.
Qed.

(** X15: [parseInlineAsmStatement] reads [asm], the assembly text as one
    or more adjacent literals, and the bindings.  With no colon, and
    also with a colon that no binding follows, the statement has no
    binding request; with bindings behind the colon it has theirs, in
    order, whether or not a comma follows the last one. *)
Theorem parseInlineAsmStatement_reads :
  forall (fuel : nat) (asm lpar colon comma rpar : Token)
         (ps : list LiteralPiece) (items : list (BindingSyntax * Token))
         (last : BindingSyntax) (rest : list Lexeme),
    type asm = TT_K_ASM -> type lpar = TT_LPAR -> type colon = TT_COLON ->
    type comma = TT_COMMA -> type rpar = TT_RPAR ->
    ps <> [] -> Forall wellQuoted ps -> length ps < fuel ->
    Forall BindingItemFits items -> WellFormedBinding last ->
    S (length items) < fuel ->
    let text := mkStringLiteral (concatenation ps) in
    let requests := values (bindingItems items) ++ [bindingOf last] in
    parseInlineAsmStatement (TS := ScriptedSource) fuel
      (stateAt asm (LexTok lpar :: pieces_lexemes ps ++ LexTok rpar :: rest))
    = Return (mkInlineAsmStatement text []) (primed rest)
    /\ parseInlineAsmStatement (TS := ScriptedSource) fuel
         (stateAt asm (LexTok lpar :: pieces_lexemes ps
                       ++ LexTok colon :: LexTok rpar :: rest))
       = Return (mkInlineAsmStatement text []) (primed rest)
    /\ parseInlineAsmStatement (TS := ScriptedSource) fuel
         (stateAt asm (LexTok lpar :: pieces_lexemes ps
                       ++ LexTok colon
                       :: withoutTrailing (bindingItems items)
                            (bindingElement last) rpar rest))
       = Return (mkInlineAsmStatement text requests) (primed rest)
    /\ parseInlineAsmStatement (TS := ScriptedSource) fuel
         (stateAt asm (LexTok lpar :: pieces_lexemes ps
                       ++ LexTok colon
                       :: withTrailing (bindingItems items)
                            (bindingElement last) comma rpar rest))
       = Return (mkInlineAsmStatement text requests) (primed rest).
Proof.
  intros fuel asm lpar colon comma rpar ps items last rest
    Ha Hl Hcolon Hcomma Hr Hne Hps Hfuel Hitems Hlast Hlen text requests.
  assert (Hlen' : S (length (bindingItems items)) < fuel).
  { unfold bindingItems. rewrite length_map. exact Hlen. }
  unfold parseInlineAsmStatement. repeat split.
  - rewrite (parseInlineAsm_head fuel asm lpar rpar ps rest _ Ha Hl Hne Hps
               Hfuel) by (rewrite Hr; discriminate).
    unfold bind at 1. unfold currentToken at 1. cbn [_currentToken stateAt].
    rewrite Hr. change (TT_RPAR =?t TT_COLON) with false. cbv iota.
    unfold bind at 1. unfold ret at 1. unfold bind.
    rewrite (match_scripted TT_RPAR rpar _ Hr). reflexivity.
  - rewrite (parseInlineAsm_head fuel asm lpar colon ps _ _ Ha Hl Hne Hps
               Hfuel) by (rewrite Hcolon; discriminate).
    unfold bind at 1. unfold currentToken at 1. cbn [_currentToken stateAt].
    rewrite Hcolon. change (TT_COLON =?t TT_COLON) with true. cbv iota.
    unfold bind at 1. unfold bind at 1.
    rewrite (match_scripted TT_COLON colon _ Hcolon). rewrite primed_token.
    destruct fuel as [| fuel]; [lia |]. unfold parseSeparatedList.
    rewrite (loop_at_breaker TT_COMMA TT_RPAR _ ltac:(discriminate)
               TRAILING_OPTIONAL fuel [] rpar rest Hr).
    unfold bind. rewrite (match_scripted TT_RPAR rpar _ Hr). reflexivity.
  - rewrite (parseInlineAsm_head fuel asm lpar colon ps _ _ Ha Hl Hne Hps
               Hfuel) by (rewrite Hcolon; discriminate).
    unfold bind at 1. unfold currentToken at 1. cbn [_currentToken stateAt].
    rewrite Hcolon. change (TT_COLON =?t TT_COLON) with true. cbv iota.
    unfold bind at 1. unfold bind at 1.
    rewrite (match_scripted TT_COLON colon _ Hcolon).
    rewrite (loop_without_trailing TT_COMMA TT_RPAR
               (parseBindingRequest (TS := ScriptedSource))
               ltac:(discriminate) ltac:(discriminate) ltac:(discriminate)
               TRAILING_OPTIONAL fuel (bindingItems items)
               (bindingElement last) rpar rest
               (bindingItems_read items Hitems)
               (parseBindingRequest_syntax last Hlast) Hr Hlen').
    unfold bind. rewrite (match_scripted TT_RPAR rpar _ Hr). reflexivity.
  - rewrite (parseInlineAsm_head fuel asm lpar colon ps _ _ Ha Hl Hne Hps
               Hfuel) by (rewrite Hcolon; discriminate).
    unfold bind at 1. unfold currentToken at 1. cbn [_currentToken stateAt].
    rewrite Hcolon. change (TT_COLON =?t TT_COLON) with true. cbv iota.
    unfold bind at 1. unfold bind at 1.
    rewrite (match_scripted TT_COLON colon _ Hcolon).
    rewrite (loop_with_trailing TT_COMMA TT_RPAR
               (parseBindingRequest (TS := ScriptedSource))
               ltac:(discriminate) ltac:(discriminate) ltac:(discriminate)
               TRAILING_OPTIONAL fuel (bindingItems items)
               (bindingElement last) comma rpar rest
               (bindingItems_read items Hitems)
               (parseBindingRequest_syntax last Hlast) Hcomma Hr Hlen').
    unfold bind. rewrite (match_scripted TT_RPAR rpar _ Hr). reflexivity.
Qed.

End InlineAsmProperties.

(** *** Calls *)

Section FunctionCallProperties.
Context `{Ext : Externals}.

Lemma parseFunctionCall_loop_arguments (args : list (Token * Token)) :
  Forall ArgumentFits args ->
  forall (fuel : nat) (acc : list Expression) (next : Token)
         (rest : list Lexeme),
    parseFunctionCall_loop (TS := ScriptedSource) (length args + fuel) acc
      (primed (argumentLexemes args ++ LexTok next :: rest))
    = parseFunctionCall_loop fuel
        (acc ++ map (fun arg => expressionOf (fst arg)) args)
        (stateAt next rest).
Proof.
  induction args as [| [e c] args IH]; intros Hargs fuel acc next rest.
  - simpl. rewrite app_nil_r. reflexivity.
  - inversion Hargs as [| x l' [He Hc] Hrest]; subst. simpl in He, Hc.
    simpl argumentLexemes. simpl app. rewrite primed_token.
    simpl length. simpl Nat.add. cbn [parseFunctionCall_loop].
    unfold bind at 1. unfold currentToken at 1. cbn [_currentToken stateAt].
    rewrite TokenType_eqb_neq
      by (destruct He as [He | He]; rewrite He; discriminate).
    cbn [negb]. unfold bind at 1.
    rewrite (parseExpression_token e _ He). rewrite primed_token.
    unfold bind. rewrite (match_scripted TT_COMMA c _ Hc).
    fold (argumentLexemes args). rewrite (IH Hrest).
    simpl map. rewrite <- app_assoc. reflexivity.
Qed.

(** X16: [parseFunctionCall] wants a comma behind every argument.  A
    call whose arguments are each followed by a comma, the last one
    included, is returned with its arguments in order ([f()] has none);
    a call whose last argument stands directly before the closing
    parenthesis is refused at that parenthesis with the user-facing
    error of [match(TT_COMMA)]. *)
Theorem parseFunctionCall_comma_after_each_argument :
  forall (fuel : nat) (f lpar rpar e : Token) (args : list (Token * Token))
         (rest : list Lexeme),
    type f = TT_IDENT -> type lpar = TT_LPAR -> type rpar = TT_RPAR ->
    Forall ArgumentFits args -> S (length args) < fuel ->
    parseFunctionCall (TS := ScriptedSource) fuel
      (stateAt f (LexTok lpar :: argumentLexemes args ++ LexTok rpar :: rest))
    = Return (mkFunctionCall (value f)
                (map (fun arg => expressionOf (fst arg)) args))
        (primed rest)
    /\ (isExpressionToken e ->
        parseFunctionCall (TS := ScriptedSource) fuel
          (stateAt f (LexTok lpar :: argumentLexemes args
                      ++ LexTok e :: LexTok rpar :: rest))
        = Throw (UserError
                   [Txt "Unexpected token type=["; Typ TT_RPAR;
                    Txt "] for value=["; Val (value rpar);
                    Txt "] expected=["; Typ TT_COMMA; Txt "]"]
                   (Some (position rpar)))).
Proof.
  intros fuel f lpar rpar e args rest Hf Hl Hr Hargs Hfuel.
  unfold parseFunctionCall. split.
  - unfold bind at 1. rewrite (match_scripted TT_IDENT f _ Hf).
    rewrite primed_token. unfold bind at 1.
    rewrite (match_scripted TT_LPAR lpar _ Hl). unfold bind at 1.
    replace fuel with (length args + S (fuel - length args - 1)) by lia.
    rewrite (parseFunctionCall_loop_arguments args Hargs).
    cbn [parseFunctionCall_loop]. unfold bind at 1. unfold currentToken at 1.
    cbn [_currentToken stateAt]. rewrite Hr, TokenType_eqb_refl. cbn [negb].
    unfold ret at 1. unfold bind.
    rewrite (match_scripted TT_RPAR rpar _ Hr). reflexivity.
  - intros He.
    unfold bind at 1. rewrite (match_scripted TT_IDENT f _ Hf).
    rewrite primed_token. unfold bind at 1.
    rewrite (match_scripted TT_LPAR lpar _ Hl). unfold bind at 1.
    replace fuel with (length args + S (fuel - length args - 1)) by lia.
    rewrite (parseFunctionCall_loop_arguments args Hargs).
    cbn [parseFunctionCall_loop]. unfold bind at 1. unfold currentToken at 1.
    cbn [_currentToken stateAt].
    rewrite TokenType_eqb_neq
      by (destruct He as [He | He]; rewrite He; discriminate).
    cbn [negb]. unfold bind at 1.
    rewrite (parseExpression_token e _ He). rewrite primed_token.
    unfold bind at 1. unfold match_ at 1. unfold bind at 1.
    unfold currentToken at 1. cbn [_currentToken stateAt].
    rewrite Hr. reflexivity.
Qed.

End FunctionCallProperties.

(** *** Matching a given identifier *)

(** X17: [matchIdent] consumes the current token when it is an
    identifier with the expected text.  An identifier with another text
    is refused with a user-facing error that carries no position, and a
    token of another kind with the error of [match(TT_IDENT)] at that
    token. *)
Theorem matchIdent_expected_text :
  forall (Ext : Externals) (ident : string) (t : Token) (l : list Lexeme),
    (type t = TT_IDENT -> value t = ident ->
     matchIdent (TS := ScriptedSource) ident (stateAt t l)
     = Return tt (primed l))
    /\ (type t = TT_IDENT -> value t <> ident ->
        matchIdent (TS := ScriptedSource) ident (stateAt t l)
        = Throw (UserError
                   [Txt "Specific expected ident was not matched. Expected=[";
                    Val ident; Txt "] got=["; Val (value t); Txt "]"]
                   None))
    /\ (type t <> TT_IDENT ->
        matchIdent (TS := ScriptedSource) ident (stateAt t l)
        = Throw (UserError
                   [Txt "Unexpected token type=["; Typ (type t);
                    Txt "] for value=["; Val (value t);
                    Txt "] expected=["; Typ TT_IDENT; Txt "]"]
                   (Some (position t)))).
Proof.
  intros Ext ident t l. unfold matchIdent. repeat split.
  - intros Ht Hv. unfold bind. rewrite (match_scripted TT_IDENT t l Ht).
    unfold USER_ASSERT. rewrite Hv, String.eqb_refl. reflexivity.
  - intros Ht Hv. unfold bind. rewrite (match_scripted TT_IDENT t l Ht).
    unfold USER_ASSERT. apply String.eqb_neq in Hv. rewrite Hv. reflexivity.
  - intros Ht. destruct t as [ty v p]. simpl in Ht.
    destruct ty; try congruence; reflexivity.
Qed.

Section UnitTheorems.
Context `{Ext : Externals}.

(** X11: [parseFunction] reads a whole function: the return type with
    its stars, the name, the parenthesised parameters and the block of
    return and declaration statements, no type in it with more than
    [INT_MAX] stars.  It returns the Function node with these parts in
    order and stops behind the closing brace. *)
Theorem parseFunction_reads :
  forall (fuel : nat) (f : FunctionSyntax) (rest : list Lexeme),
    FunctionFits fuel f ->
    parseFunction (TS := ScriptedSource) fuel (primed (functionLexemes f rest))
    = Return (newFunction (typeOf (fn_type f)) (value (fn_name f))
                (paramListOf (fn_params f))
                (mkInstructionList
                   (map (fun item => statementOf (fst item)) (fn_body f))))
        (primed rest).
Proof.
  intros fuel f rest Hf. exact (parseFunction_syntax fuel f rest Hf).
Qed.



End UnitTheorems.

(** *** The list parser without a breaker *)

Section NoBreaker.
Context `{TS : TokenSource} {T : Type}.

Lemma separatorStep_Break (sep : TokenType) (mode : TrailingSeparator)
  (s s' : Parser) :
  separatorStep sep mode s = Return Break s' ->
  sep <> TT_NONE /\ mode <> TRAILING_REQUIRED.
Proof.
  unfold separatorStep. intros H.
  destruct (TokenType_eq_dec sep TT_NONE) as [E | E].
  - subst sep. simpl in H. discriminate H.
  - split; [exact E |].
    rewrite (TokenType_eqb_neq _ _ E) in H. simpl in H.
    apply bind_Return_inv in H. destruct H as [tok [s1 [_ H]]].
    destruct (type tok =?t sep).
    + apply bind_Return_inv in H. destruct H as [v [s2 [_ H]]].
      discriminate H.
    + destruct mode; simpl in H; try discriminate H; discriminate.
Qed.

(** X18: without a breaker ([ttBreaker = TT_NONE], the template's
    default) the list parser can only leave its loop through a missing
    separator.  So with no separator either, or with
    [TRAILING_REQUIRED], it never returns a list: it throws or it loops
    for ever. *)
Theorem parseSeparatedList_no_breaker_never_returns :
  forall (sep : TokenType) (mode : TrailingSeparator) (pe : P T) (fuel : nat)
         (s s' : Parser) (vs : list T),
    sep = TT_NONE \/ mode = TRAILING_REQUIRED ->
    parseSeparatedList sep mode TT_NONE pe fuel s <> Return vs s'.
Proof.
  intros sep mode pe fuel s s' vs Hcase. unfold parseSeparatedList.
  generalize (@nil T). revert s.
  induction fuel as [| fuel IH]; intros s acc H.
  - discriminate H.
  - cbn [parseSeparatedList_loop] in H.
    apply bind_Return_inv in H. destruct H as [tok [s1 [_ H]]].
    rewrite TokenType_eqb_refl in H. simpl in H.
    apply bind_Return_inv in H. destruct H as [e [s2 [_ H]]].
    apply bind_Return_inv in H. destruct H as [ctl [s3 [Hsep H]]].
    destruct ctl.
    + apply bind_Return_inv in H. destruct H as [u [s4 [_ H]]].
      exact (IH _ _ H).
    + apply separatorStep_Break in Hsep. destruct Hsep as [H1 H2].
      destruct Hcase; contradiction.
Qed.

End NoBreaker.

(** *** The properties at work on the sample syntax *)

(** Settles the side conditions of a concrete piece of syntax. *)
Ltac fits :=
  unfold TopFits, ClassFits, MemberFits, FunctionFits, ParamListFits,
    ParamItemFits, ParamFits, WellFormedParam, StatementItemFits,
    WellFormedStatement, WellFormedDecl, WellFormedType, BindingItemFits,
    WellFormedBinding, ArgumentFits, isExpressionToken, wellQuoted;
  simpl;
  repeat (first [split | apply Forall_cons | apply Forall_nil]);
  simpl; try reflexivity; try discriminate; try lia; auto.

Lemma parseTranslationUnit_terminates_witness :
  length sample_unit_script + 2 < 80
  /\ parseTranslationUnit (TS := ScriptedSource) (Ext := SampleExternals) 80
       (stateAt endToken sample_unit_script)
     <> OutOfFuel.
Proof.
  assert (H : length sample_unit_script + 2 < 80)
    by (apply Nat.ltb_lt; vm_compute; reflexivity).
  split; [exact H |].
  exact (parseTranslationUnit_terminates SampleExternals 80 sample_unit_script
           endToken H).
Defined.

Lemma parseTranslationUnit_errors_positioned_witness :
  exists e : Error,
    parseTranslationUnit (TS := ScriptedSource) (Ext := SampleExternals) 5
      (stateAt endToken sample_truncated_script)
    = Throw e
    /\ ((exists msg p, e = UserError msg (Some p))
        \/ (exists name, strToReg (Externals := SampleExternals) name = inl e)).
Proof.
  eexists. split; [vm_compute; reflexivity |].
  eapply (parseTranslationUnit_errors_positioned SampleExternals 5
            sample_truncated_script endToken).
  vm_compute. reflexivity.
Defined.

Lemma parseTranslationUnit_consumes_input_witness :
  exists (tu : TranslationUnit (Ext := SampleExternals))
         (s' : @Parser ScriptedSource),
    parseTranslationUnit (TS := ScriptedSource) (Ext := SampleExternals) 20
      (stateAt endToken sample_unit_script)
    = Return tu s'
    /\ s' = stateAt endToken [].
Proof.
  eexists. eexists. split; [vm_compute; reflexivity |].
  eapply (parseTranslationUnit_consumes_input SampleExternals 20
            sample_unit_script endToken).
  - unfold NoEndInside, sample_unit_script. simpl.
    repeat (apply Forall_cons; [reflexivity |]). apply Forall_nil.
  - vm_compute. reflexivity.
Defined.

Lemma parseTranslationUnit_undecorated_witness :
  exists (tu : TranslationUnit (Ext := SampleExternals))
         (s' : @Parser ScriptedSource),
    parseTranslationUnit (TS := ScriptedSource) (Ext := SampleExternals) 20
      (stateAt endToken sample_unit_script)
    = Return tu s'
    /\ length (functions tu) = 2
    /\ UndecoratedUnit tu.
Proof.
  eexists. eexists. split; [vm_compute; reflexivity |].
  split; [reflexivity |].
  exact (proj1 (parseTranslationUnit_undecorated
                  (TS := ScriptedSource) (Ext := SampleExternals) 20
                  (stateAt endToken sample_unit_script) _ _ eq_refl)).
Defined.

Lemma parseType_counts_stars_witness :
  parseType (TS := ScriptedSource) (Ext := SampleExternals) 3
    (stateAt (tk TT_K_INT "int" 0)
       (toks [tk TT_STAR "*" 3; tk TT_STAR "*" 4]
        ++ LexTok (tk TT_IDENT "p" 6) :: []))
  = Return (newType "int" 2) (stateAt (tk TT_IDENT "p" 6) [])
  /\ fullName (newType "int" 2) = Some "int**".
Proof.
  apply (parseType_counts_stars (Ext := SampleExternals) 3 sample_int_pp
           (tk TT_IDENT "p" 6) []).
  - fits.
  - discriminate.
  - simpl. lia.
Defined.

Lemma parseType_rejects_other_tokens_witness :
  parseType (TS := ScriptedSource) (Ext := SampleExternals) 3
    (stateAt (tk TT_NUMBER "7" 0) [])
  = Throw (UserError
             [Txt "Unexpected token type=["; Typ TT_NUMBER;
              Txt "] for value=["; Val "7"; Txt "] expected=[";
              Typ TT_IDENT; Txt "]"]
             (Some 0)).
Proof.
  apply (parseType_rejects_other_tokens (Ext := SampleExternals)
           ScriptedSource 3 (stateAt (tk TT_NUMBER "7" 0) [])).
  - simpl. intros [H | [H | H]]; [discriminate H | discriminate H | exact H].
  - discriminate.
Defined.

Lemma parseExpression_one_token_witness :
  parseExpression (TS := ScriptedSource) (Ext := SampleExternals)
    (stateAt (tk TT_IDENT "x" 0) [])
  = Return (Expression_Variable (newVariable "x")) (stateAt endToken [])
  /\ parseExpression (TS := ScriptedSource) (Ext := SampleExternals)
       (stateAt (tk TT_NUMBER "42" 0) [])
     = Return (Expression_NumberLiteral (mkNumberLiteral 42%Z))
         (stateAt endToken [])
  /\ parseExpression (TS := ScriptedSource) (Ext := SampleExternals)
       (stateAt (tk TT_STAR "*" 0) [])
     = Throw (UserError
                [Txt "Unexpected token type=["; Typ TT_STAR;
                 Txt "] for value=["; Val "*"; Txt "] expected=[";
                 Typ TT_NUMBER; Txt "]"]
                (Some 0)).
Proof.
  split; [| split].
  - apply (proj1 (parseExpression_one_token (Ext := SampleExternals)
                    (tk TT_IDENT "x" 0) [])).
    reflexivity.
  - apply (proj1 (proj2 (parseExpression_one_token (Ext := SampleExternals)
                           (tk TT_NUMBER "42" 0) []))).
    reflexivity.
  - apply (proj2 (proj2 (parseExpression_one_token (Ext := SampleExternals)
                           (tk TT_STAR "*" 0) []))); discriminate.
Defined.

Lemma parseFunctionParams_reads_witness :
  parseFunctionParams (TS := ScriptedSource) (Ext := SampleExternals) 4
    (stateAt (tk TT_LPAR "(" 0)
       (paramListLexemes sample_param_list ++ LexTok (tk TT_RPAR ")" 20) :: []))
  = Return (mkFunctionParameterList
              [mkFunctionParameter (newType "int" 0) "a";
               mkFunctionParameter (newType "Node" 1) "next";
               mkFunctionParameter (newType "int" 0) EmptyString])
      (stateAt endToken [])
  /\ parseFunctionParams (TS := ScriptedSource) (Ext := SampleExternals) 4
       (stateAt (tk TT_LPAR "(" 0)
          (paramListLexemes NoParams ++ LexTok (tk TT_RPAR ")" 1) :: []))
     = Return (mkFunctionParameterList []) (stateAt endToken []).
Proof.
  split.
  - apply (parseFunctionParams_reads (Ext := SampleExternals) 4
             (tk TT_LPAR "(" 0) (tk TT_RPAR ")" 20) sample_param_list []);
      fits.
  - apply (parseFunctionParams_reads (Ext := SampleExternals) 4
             (tk TT_LPAR "(" 0) (tk TT_RPAR ")" 1) NoParams []); fits.
Defined.

Lemma parseSeparatedList_no_breaker_never_returns_witness :
  parseSeparatedList (TS := ScriptedSource) TT_COMMA TRAILING_REQUIRED TT_NONE
    (parseExpression (Ext := SampleExternals)) 4
    (stateAt (tk TT_IDENT "a" 0) (toks [tk TT_COMMA "," 1; tk TT_IDENT "b" 2]))
  = Throw (UserError [Txt "Expected trailing "; Typ TT_COMMA] (Some 0))
  /\ parseSeparatedList (TS := ScriptedSource) TT_COMMA TRAILING_REQUIRED
       TT_NONE (parseExpression (Ext := SampleExternals)) 4
       (stateAt (tk TT_IDENT "a" 0)
          (toks [tk TT_COMMA "," 1; tk TT_IDENT "b" 2]))
     <> Return [Expression_Variable (newVariable "a");
                Expression_Variable (newVariable "b")]
          (stateAt endToken []).
Proof.
  split; [reflexivity |].
  apply (parseSeparatedList_no_breaker_never_returns (TS := ScriptedSource)).
  right. reflexivity.
Defined.

Lemma parseDeclaration_reads_witness :
  parseDeclaration (TS := ScriptedSource) (Ext := SampleExternals) 3
    (stateAt (tk TT_K_INT "int" 0)
       (toks (ts_stars sample_int_pp ++ [tk TT_IDENT "p" 6])
        ++ LexTok (tk TT_SEMI ";" 7) :: []))
  = Return (mkDeclaration (newType "int" 2) (newVariable "p") None)
      (stateAt (tk TT_SEMI ";" 7) [])
  /\ parseDeclaration (TS := ScriptedSource) (Ext := SampleExternals) 3
       (stateAt (tk TT_K_INT "int" 0)
          (toks (ts_stars sample_int
                 ++ [tk TT_IDENT "x" 4; tk TT_EQUAL "=" 6; tk TT_NUMBER "2" 8])
           ++ LexTok (tk TT_SEMI ";" 9) :: []))
     = Return (mkDeclaration (newType "int" 0) (newVariable "x")
                 (Some (Expression_NumberLiteral (mkNumberLiteral 2%Z))))
         (stateAt (tk TT_SEMI ";" 9) []).
Proof.
  split.
  - apply (proj1 (parseDeclaration_reads (Ext := SampleExternals) 3
                    sample_int_pp (tk TT_IDENT "p" 6) (tk TT_EQUAL "=" 0)
                    (tk TT_NUMBER "0" 0) (tk TT_SEMI ";" 7) []
                    ltac:(fits) ltac:(simpl; lia) eq_refl)).
    discriminate.
  - apply (proj2 (parseDeclaration_reads (Ext := SampleExternals) 3
                    sample_int (tk TT_IDENT "x" 4) (tk TT_EQUAL "=" 6)
                    (tk TT_NUMBER "2" 8) (tk TT_SEMI ";" 9) []
                    ltac:(fits) ltac:(simpl; lia) eq_refl)); fits.
Defined.

Lemma parseCodeBlock_reads_witness :
  parseCodeBlock (TS := ScriptedSource) (Ext := SampleExternals) 5
    (stateAt (tk TT_LCURL "{" 0)
       (separated (statementItems (Ext := SampleExternals) sample_statements)
        ++ LexTok (tk TT_RCURL "}" 9) :: []))
  = Return (mkInstructionList
              (map (fun item => statementOf (Ext := SampleExternals) (fst item)) sample_statements))
      (stateAt endToken [])
  /\ parseCodeBlock (TS := ScriptedSource) (Ext := SampleExternals) 5
       (stateAt (tk TT_LCURL "{" 0)
          (withoutTrailing (statementItems (Ext := SampleExternals) sample_statements)
             (statementElement
                (SReturn (tk TT_K_RETURN "return" 0) (tk TT_NUMBER "0" 7)))
             (tk TT_RCURL "}" 9) []))
     = Throw (UserError [Txt "Expected trailing "; Typ TT_SEMI] (Some 9)).
Proof.
  pose proof (parseCodeBlock_reads (Ext := SampleExternals) 5
                (tk TT_LCURL "{" 0) (tk TT_RCURL "}" 9) sample_statements
                (SReturn (tk TT_K_RETURN "return" 0) (tk TT_NUMBER "0" 7)) []
                eq_refl eq_refl ltac:(fits) ltac:(simpl; lia)) as H.
  split; [exact (proj1 H) |].
  apply (proj2 H); fits.
Defined.

Lemma parseFunction_reads_witness :
  parseFunction (TS := ScriptedSource) (Ext := SampleExternals) 5
    (primed (functionLexemes (Ext := SampleExternals) sample_function []))
  = Return (newFunction (newType "int" 0) "f" (paramListOf sample_param_list)
              (mkInstructionList
                 (map (fun item => statementOf (Ext := SampleExternals) (fst item)) sample_statements)))
      (stateAt endToken []).
Proof.
  apply (parseFunction_reads (Ext := SampleExternals) 5 sample_function []).
  fits.
Defined.



Lemma parseBindingRequest_reads_witness :
  parseBindingRequest (TS := ScriptedSource) (Ext := SampleExternals)
    (stateAt (quoteAt 0)
       (LexRaw "=eax"
        :: toks [quoteAt 5; tk TT_LPAR "(" 6; tk TT_IDENT "x" 7;
                 tk TT_RPAR ")" 8]
        ++ LexTok (tk TT_RPAR ")" 9) :: []))
  = Return (mkBindingRequest (Ext := SampleExternals) REG_EAX "x")
      (stateAt (tk TT_RPAR ")" 9) [])
  /\ parseBindingRequest (TS := ScriptedSource) (Ext := SampleExternals)
       (stateAt (quoteAt 0)
          (LexRaw "=r99"
           :: toks [quoteAt 5; tk TT_LPAR "(" 6; tk TT_IDENT "x" 7;
                    tk TT_RPAR ")" 8]
           ++ LexTok (tk TT_RPAR ")" 9) :: []))
     = Throw (UserError [Txt "Unknown register "; Val "r99"] None).
Proof.
  split.
  - apply (parseBindingRequest_reads (Ext := SampleExternals) (quoteAt 0)
             (quoteAt 5) (tk TT_LPAR "(" 6) (tk TT_IDENT "x" 7)
             (tk TT_RPAR ")" 8) (tk TT_RPAR ")" 9) "eax" []); reflexivity.
  - apply (parseBindingRequest_reads (Ext := SampleExternals) (quoteAt 0)
             (quoteAt 5) (tk TT_LPAR "(" 6) (tk TT_IDENT "x" 7)
             (tk TT_RPAR ")" 8) (tk TT_RPAR ")" 9) "r99" []); reflexivity.
Defined.

Lemma parseInlineAsmStatement_reads_witness :
  let text := mkStringLiteral "nop" in
  let items := [(sample_binding_syntax "eax" REG_EAX "x", tk TT_COMMA "," 9)] in
  let last := sample_binding_syntax "ebx" REG_EBX "y" in
  let requests :=
    [mkBindingRequest (Ext := SampleExternals) REG_EAX "x";
     mkBindingRequest (Ext := SampleExternals) REG_EBX "y"] in
  let start := fun l =>
    stateAt (tk TT_K_ASM "asm" 0)
      (LexTok (tk TT_LPAR "(" 3) :: pieces_lexemes sample_asm_text ++ l) in
  parseInlineAsmStatement (TS := ScriptedSource) (Ext := SampleExternals) 4
    (start (LexTok (tk TT_RPAR ")" 20) :: []))
  = Return (mkInlineAsmStatement text []) (stateAt endToken [])
  /\ parseInlineAsmStatement (TS := ScriptedSource) (Ext := SampleExternals) 4
       (start (LexTok (tk TT_COLON ":" 9) :: LexTok (tk TT_RPAR ")" 20) :: []))
     = Return (mkInlineAsmStatement text []) (stateAt endToken [])
  /\ parseInlineAsmStatement (TS := ScriptedSource) (Ext := SampleExternals) 4
       (start (LexTok (tk TT_COLON ":" 9)
               :: withoutTrailing (bindingItems (Ext := SampleExternals) items) (bindingElement (Ext := SampleExternals) last)
                    (tk TT_RPAR ")" 20) []))
     = Return (mkInlineAsmStatement text requests) (stateAt endToken [])
  /\ parseInlineAsmStatement (TS := ScriptedSource) (Ext := SampleExternals) 4
       (start (LexTok (tk TT_COLON ":" 9)
               :: withTrailing (bindingItems (Ext := SampleExternals) items) (bindingElement (Ext := SampleExternals) last)
                    (tk TT_COMMA "," 19) (tk TT_RPAR ")" 20) []))
     = Return (mkInlineAsmStatement text requests) (stateAt endToken []).
Proof.
  cbv zeta.
  apply (parseInlineAsmStatement_reads (Ext := SampleExternals) 4
           (tk TT_K_ASM "asm" 0) (tk TT_LPAR "(" 3) (tk TT_COLON ":" 9)
           (tk TT_COMMA "," 19) (tk TT_RPAR ")" 20) sample_asm_text
           [(sample_binding_syntax "eax" REG_EAX "x", tk TT_COMMA "," 9)]
           (sample_binding_syntax "ebx" REG_EBX "y") []); fits.
Defined.

Lemma parseFunctionCall_comma_after_each_argument_witness :
  parseFunctionCall (TS := ScriptedSource) (Ext := SampleExternals) 4
    (stateAt (tk TT_IDENT "f" 0)
       (LexTok (tk TT_LPAR "(" 1)
        :: argumentLexemes [(tk TT_IDENT "a" 2, tk TT_COMMA "," 3);
                            (tk TT_NUMBER "1" 4, tk TT_COMMA "," 5)]
        ++ LexTok (tk TT_RPAR ")" 6) :: []))
  = Return (mkFunctionCall "f"
              [Expression_Variable (newVariable "a");
               Expression_NumberLiteral (mkNumberLiteral 1%Z)])
      (stateAt endToken [])
  /\ parseFunctionCall (TS := ScriptedSource) (Ext := SampleExternals) 4
       (stateAt (tk TT_IDENT "f" 0)
          (LexTok (tk TT_LPAR "(" 1)
           :: argumentLexemes [(tk TT_IDENT "a" 2, tk TT_COMMA "," 3);
                               (tk TT_NUMBER "1" 4, tk TT_COMMA "," 5)]
           ++ LexTok (tk TT_IDENT "b" 6) :: LexTok (tk TT_RPAR ")" 7) :: []))
     = Throw (UserError
                [Txt "Unexpected token type=["; Typ TT_RPAR;
                 Txt "] for value=["; Val ")"; Txt "] expected=[";
                 Typ TT_COMMA; Txt "]"]
                (Some 7)).
Proof.
  split.
  - apply (proj1 (parseFunctionCall_comma_after_each_argument
                    (Ext := SampleExternals) 4 (tk TT_IDENT "f" 0)
                    (tk TT_LPAR "(" 1) (tk TT_RPAR ")" 6) (tk TT_IDENT "b" 6)
                    [(tk TT_IDENT "a" 2, tk TT_COMMA "," 3);
                     (tk TT_NUMBER "1" 4, tk TT_COMMA "," 5)] []
                    eq_refl eq_refl eq_refl ltac:(fits) ltac:(simpl; lia))).
  - apply (proj2 (parseFunctionCall_comma_after_each_argument
                    (Ext := SampleExternals) 4 (tk TT_IDENT "f" 0)
                    (tk TT_LPAR "(" 1) (tk TT_RPAR ")" 7) (tk TT_IDENT "b" 6)
                    [(tk TT_IDENT "a" 2, tk TT_COMMA "," 3);
                     (tk TT_NUMBER "1" 4, tk TT_COMMA "," 5)] []
                    eq_refl eq_refl eq_refl ltac:(fits) ltac:(simpl; lia))).
    fits.
Defined.

Lemma matchIdent_expected_text_witness :
  matchIdent (TS := ScriptedSource) "this" (stateAt (tk TT_IDENT "this" 0) [])
  = Return tt (stateAt endToken [])
  /\ matchIdent (TS := ScriptedSource) "this" (stateAt (tk TT_IDENT "that" 0) [])
     = Throw (UserError
                [Txt "Specific expected ident was not matched. Expected=[";
                 Val "this"; Txt "] got=["; Val "that"; Txt "]"]
                None)
  /\ matchIdent (TS := ScriptedSource) "this" (stateAt (tk TT_NUMBER "1" 0) [])
     = Throw (UserError
                [Txt "Unexpected token type=["; Typ TT_NUMBER;
                 Txt "] for value=["; Val "1"; Txt "] expected=[";
                 Typ TT_IDENT; Txt "]"]
                (Some 0)).
Proof.
  split; [| split].
  - apply (proj1 (matchIdent_expected_text SampleExternals "this"
                    (tk TT_IDENT "this" 0) [])); reflexivity.
  - apply (proj1 (proj2 (matchIdent_expected_text SampleExternals "this"
                           (tk TT_IDENT "that" 0) [])));
      [reflexivity | discriminate].
  - apply (proj2 (proj2 (matchIdent_expected_text SampleExternals "this"
                           (tk TT_NUMBER "1" 0) []))).
    discriminate.
Defined.
